(** * messenger: a topic-routed message broker

    A shallow embedding of the Go package [messenger] (router.go, the
    subscription, node and bridge files) and the properties of its
    dispatch loop, its subscriber life cycle and its peer retry machinery.

    Conventions of the embedding:
    - a buffered Go channel is a record [chan] (buffer, capacity, closed
      flag); sending on a closed channel and closing a closed channel panic,
      a blocking send on a full channel parks the goroutine;
    - pointers ([*Subscription], [*RouterBridge]) are addresses into a heap,
      and the Go maps keyed by pointers that the router uses as sets are
      finite sets of addresses;
    - a function that can park or panic returns an [outcome];
    - [go f()] records [f] in the list of goroutines started. *)

From Stdlib Require Import ZArith.
From Stdlib.Strings Require Import Byte.
From stdpp Require Import gmap strings list fin_maps.

(** ** Messages (message.go) *)

Record Message := mkMessage {
  Header : string;          (* Header is the event type *)
  Body : list Byte.byte     (* Body can be whatever message is desired *)
}.

Global Instance byte_eq_dec : EqDecision Byte.byte := Byte.byte_eq_dec.

Global Instance Message_eq_dec : EqDecision Message.
Proof. solve_decision. Defined.

(** ** Buffered channels *)

Module Chan.

Record chan (A : Type) := mk {
  buf : list A;       (* queued values, oldest first *)
  cap : nat;          (* capacity given to [make] *)
  closed : bool
}.
Arguments mk {A} _ _ _.
Arguments buf {A} _.
Arguments cap {A} _.
Arguments closed {A} _.

(** [make(chan A, n)] *)
Definition make {A} (n : nat) : chan A := mk [] n false.

Definition full {A} (c : chan A) : bool := cap c <=? length (buf c).

Definition free {A} (c : chan A) : nat := cap c - length (buf c).

Inductive sendres (A : Type) :=
| SendOk (c : chan A)     (* the value was queued *)
| SendFull                (* no room: a blocking send parks, a select takes default *)
| SendClosed.             (* panic: send on closed channel *)
Arguments SendOk {A} _.
Arguments SendFull {A}.
Arguments SendClosed {A}.

(** [c <- v], one attempt *)
Definition send {A} (c : chan A) (v : A) : sendres A :=
  if closed c then SendClosed
  else if full c then SendFull
  else SendOk (mk (buf c ++ [v]) (cap c) (closed c)).

(** [close(c)]; [None] is the panic "close of closed channel" *)
Definition close {A} (c : chan A) : option (chan A) :=
  if closed c then None else Some (mk (buf c) (cap c) true).

Inductive recvres (A : Type) :=
| RecvOk (v : A) (c : chan A)
| RecvEmpty               (* nothing queued, channel open: the receiver parks *)
| RecvClosed.             (* nothing queued, channel closed: [ok] is false *)
Arguments RecvOk {A} _ _.
Arguments RecvEmpty {A}.
Arguments RecvClosed {A}.

(** [v, ok := <-c], one attempt *)
Definition recv {A} (c : chan A) : recvres A :=
  match buf c with
  | v :: rest => RecvOk v (mk rest (cap c) (closed c))
  | [] => if closed c then RecvClosed else RecvEmpty
  end.

End Chan.

Abbreviation chan := Chan.chan.

(** ** Outcomes of a goroutine body *)

Inductive fault :=
| CloseOfClosed       (* close of closed channel *)
| SendOnClosed        (* send on closed channel *)
| NilDeref.           (* a pointer that is not in the heap *)

Inductive outcome (K S A : Type) :=
| Done (a : A)                  (* ran to completion with result [a] *)
| Blocked (s : S) (k : K)       (* parked on a channel operation in state [s]; [k] is what remains *)
| Panic (f : fault).
Arguments Done {K S A} _.
Arguments Blocked {K S A} _ _.
Arguments Panic {K S A} _.

(** ** Durations and the timing constants *)

Module Time.

(** [time.Duration] counts nanoseconds. *)
Definition Duration := Z.
Definition Nanosecond : Duration := 1%Z.
Definition Second : Duration := (1000000000 * Nanosecond)%Z.

(** [time.NewTicker(d)] *)
Record Ticker := NewTicker { period : Duration }.

End Time.

(** Time allowed to write a message to the peer. *)
Definition writeWait : Time.Duration := (10 * Time.Second)%Z.

(** Time allowed to read the next pong message from the peer. *)
Definition pongWait : Time.Duration := (60 * Time.Second)%Z.

(** Time allowed to read the next pong message from the router. *)
Definition pingWait : Time.Duration := (90 * Time.Second)%Z.

(** Send pings to peer with this period. Must be less than pongWait. *)
Definition pingPeriod : Time.Duration := Z.quot (pongWait * 5) 10.

(** Interval to wait between retry attempts *)
Definition retryInterval : Time.Duration := (3 * Time.Second)%Z.

(** ** The websocket connection, as far as the package uses it *)

Inductive wsframe :=
| WsJSON (m : Message)      (* conn.WriteJSON *)
| WsPing                    (* WriteControl(PingMessage) *)
| WsPong                    (* WriteControl(PongMessage) *)
| WsClose.                  (* WriteControl(CloseMessage) *)

Record Conn := mkConn {
  remote : string;                    (* the URL that was dialled *)
  connClosed : bool;                  (* conn.Close() was called *)
  readDeadline : option Z;            (* SetReadDeadline, absolute time in ns *)
  written : list wsframe              (* frames handed to the connection *)
}.

Definition Conn_Close (c : Conn) : Conn :=
  mkConn (remote c) true (readDeadline c) (written c).

Definition Conn_SetReadDeadline (t : Z) (c : Conn) : Conn :=
  mkConn (remote c) (connClosed c) (Some t) (written c).

Definition Conn_Write (f : wsframe) (c : Conn) : Conn :=
  mkConn (remote c) (connClosed c) (readDeadline c) (written c ++ [f]).

(** The network: the answer to the [k]-th dial, for the URL dialled.
    [None] is a successful handshake, [Some e] the dialer's error text. *)
Definition Net := nat -> string -> option string.

(** ** Node: the connection this router opens to a peer router *)

Inductive proc :=
| ReadPump
| WritePump
| RetryConnection.

Global Instance proc_eq_dec : EqDecision proc.
Proof. solve_decision. Defined.

(** What a node procedure does to the outside, in order. *)
Inductive act :=
| ADial (url : string) (ok : bool)    (* dialer.Dial and whether it succeeded *)
| ASleep (d : Time.Duration)          (* time.Sleep *)
| AGo (p : proc).                     (* go n.p() *)

Record Node := mkNode {
  Name : string;
  routerAddress : string;
  conn : option Conn;
  writeQueue : chan Message;
  readQueue : chan Message;
  filters : gset string;              (* map[string]bool, only presence is read *)
  readDone : chan bool;
  writeDone : chan bool;
  lastPingTime : Z;
  state : string
}.

Definition set_routerAddress (a : string) (n : Node) : Node :=
  mkNode (Name n) a (conn n) (writeQueue n) (readQueue n) (filters n)
         (readDone n) (writeDone n) (lastPingTime n) (state n).

Definition set_conn (c : option Conn) (n : Node) : Node :=
  mkNode (Name n) (routerAddress n) c (writeQueue n) (readQueue n) (filters n)
         (readDone n) (writeDone n) (lastPingTime n) (state n).

Definition set_writeQueue (q : chan Message) (n : Node) : Node :=
  mkNode (Name n) (routerAddress n) (conn n) q (readQueue n) (filters n)
         (readDone n) (writeDone n) (lastPingTime n) (state n).

Definition set_readQueue (q : chan Message) (n : Node) : Node :=
  mkNode (Name n) (routerAddress n) (conn n) (writeQueue n) q (filters n)
         (readDone n) (writeDone n) (lastPingTime n) (state n).

Definition set_filters (f : gset string) (n : Node) : Node :=
  mkNode (Name n) (routerAddress n) (conn n) (writeQueue n) (readQueue n) f
         (readDone n) (writeDone n) (lastPingTime n) (state n).

Definition set_readDone (q : chan bool) (n : Node) : Node :=
  mkNode (Name n) (routerAddress n) (conn n) (writeQueue n) (readQueue n) (filters n)
         q (writeDone n) (lastPingTime n) (state n).

Definition set_writeDone (q : chan bool) (n : Node) : Node :=
  mkNode (Name n) (routerAddress n) (conn n) (writeQueue n) (readQueue n) (filters n)
         (readDone n) q (lastPingTime n) (state n).

Definition set_lastPingTime (t : Z) (n : Node) : Node :=
  mkNode (Name n) (routerAddress n) (conn n) (writeQueue n) (readQueue n) (filters n)
         (readDone n) (writeDone n) t (state n).

Definition set_state (s : string) (n : Node) : Node :=
  mkNode (Name n) (routerAddress n) (conn n) (writeQueue n) (readQueue n) (filters n)
         (readDone n) (writeDone n) (lastPingTime n) s.

(** The loop of [NewNode]: [n.filters[f] = true] for every [f]. *)
Fixpoint addFilters (fs : list string) (acc : gset string) : gset string :=
  match fs with
  | [] => acc
  | f :: fs' => addFilters fs' ({[f]} ∪ acc)
  end.

Definition NewNode (name : string) (fs : list string) : Node :=
  let n := {| Name := name;
              routerAddress := EmptyString;
              conn := None;
              writeQueue := Chan.make 4096;
              readQueue := Chan.make 4096;
              filters := ∅;
              readDone := Chan.make 1;
              writeDone := Chan.make 1;
              lastPingTime := 0%Z;
              state := "standby"%string |} in
  set_filters (addFilters fs (filters n)) n.

(** A node together with the record of what its procedures did. *)
Record NodeSt := mkNodeSt {
  node : Node;
  attempt : nat;          (* dials made so far: the index of the next answer of the network *)
  acts : list act
}.

Definition on_node (f : Node -> Node) (st : NodeSt) : NodeSt :=
  mkNodeSt (f (node st)) (attempt st) (acts st).

Definition emit (a : act) (st : NodeSt) : NodeSt :=
  mkNodeSt (node st) (attempt st) (acts st ++ [a]).

Definition dialURL (address : string) : string :=
  ("ws://" +:+ address +:+ "/subscribe")%string.

Definition openError (address err : string) : string :=
  ("failed opening websocket with " +:+ address +:+ ": " +:+ err)%string.

Definition connectError (address : string) : string :=
  ("failed to open connection to router " +:+ address +:+ ". retrying connection...")%string.

(** [openConnection]: one dial; the connection is stored only on success. *)
Definition openConnection (net : Net) (st : NodeSt) : NodeSt * option string :=
  let addr := routerAddress (node st) in
  let url := dialURL addr in
  let st1 := mkNodeSt (node st) (S (attempt st)) (acts st) in
  match net (attempt st) url with
  | Some err => (emit (ADial url false) st1, Some (openError addr err))
  | None =>
      (emit (ADial url true) (on_node (set_conn (Some (mkConn url false None []))) st1),
       None)
  end.

(** Where a node procedure can be parked. *)
Inductive park :=
| SendReadDone            (* n.readDone <- true, token already there *)
| SendWriteDone           (* n.writeDone <- true, token already there *)
| RecvReadDone            (* <-n.readDone, no token yet *)
| RecvWriteDone           (* <-n.writeDone, no token yet *)
| SendWriteQueue (m : Message).   (* n.writeQueue <- m, queue full *)

(** [ConnectToRouter]: the result is [nil] ([None]) or the error. *)
Definition ConnectToRouter (net : Net) (address : string) (st : NodeSt)
  : outcome park NodeSt (NodeSt * option string) :=
  let st0 := on_node (set_routerAddress address) st in
  let '(st1, err) := openConnection net st0 in
  match err with
  | Some _ =>
      match Chan.send (readDone (node st1)) true with
      | Chan.SendClosed => Panic SendOnClosed
      | Chan.SendFull => Blocked st1 SendReadDone
      | Chan.SendOk rd =>
          let st2 := on_node (set_readDone rd) st1 in
          match Chan.send (writeDone (node st2)) true with
          | Chan.SendClosed => Panic SendOnClosed
          | Chan.SendFull => Blocked st2 SendWriteDone
          | Chan.SendOk wd =>
              let st3 := on_node (set_writeDone wd) st2 in
              let st4 := emit (AGo RetryConnection) st3 in
              Done (st4, Some (connectError (routerAddress (node st4))))
          end
      end
  | None =>
      (* update state to good, start read/write pumps *)
      let st2 := on_node (set_state "good") st1 in
      Done (emit (AGo WritePump) (emit (AGo ReadPump) st2), None)
  end.

(** [for err != nil { time.Sleep(retryInterval); err = n.openConnection() }];
    [fuel] bounds the number of iterations, [None] is a loop still running. *)
Fixpoint retryLoop (net : Net) (fuel : nat) (st : NodeSt) (err : option string)
  : option NodeSt :=
  match err with
  | None => Some st
  | Some _ =>
      match fuel with
      | O => None
      | S fuel' =>
          let st1 := emit (ASleep retryInterval) st in
          let '(st2, err') := openConnection net st1 in
          retryLoop net fuel' st2 err'
      end
  end.

(** [<-c] on a done channel: [None] when the receiver has to wait. *)
Definition takeDone (c : chan bool) : option (chan bool) :=
  match Chan.recv c with
  | Chan.RecvOk _ c' => Some c'
  | Chan.RecvClosed => Some c
  | Chan.RecvEmpty => None
  end.

(** [n.state = n.state + " retrying"] *)
Definition markRetrying (n : Node) : Node := set_state (state n +:+ " retrying") n.

Definition retryConnection (net : Net) (fuel : nat) (st : NodeSt)
  : option (outcome park NodeSt NodeSt) :=
  (* mark the connection as 'down' *)
  let st1 := on_node markRetrying st in
  (* wait for read to say i'm done. *)
  match takeDone (readDone (node st1)) with
  | None => Some (Blocked st1 RecvReadDone)
  | Some rd =>
      let st2 := on_node (set_readDone rd) st1 in
      (* wait for write to be done. *)
      match takeDone (writeDone (node st2)) with
      | None => Some (Blocked st2 RecvWriteDone)
      | Some wd =>
          let st3 := on_node (set_writeDone wd) st2 in
          (* we retry *)
          let '(st4, err) := openConnection net st3 in
          match retryLoop net fuel st4 err with
          | None => None
          | Some st5 =>
              (* start the pumps again *)
              let st6 := on_node (set_state "good") st5 in
              Some (Done (emit (AGo WritePump) (emit (AGo ReadPump) st6)))
          end
      end
  end.

(** [Node.Write]: a plain (blocking) channel send. *)
Definition Node_Write (n : Node) (message : Message) : outcome park Node Node :=
  match Chan.send (writeQueue n) message with
  | Chan.SendOk q => Done (set_writeQueue q n)
  | Chan.SendFull => Blocked n (SendWriteQueue message)
  | Chan.SendClosed => Panic SendOnClosed
  end.

(** [Node.Read]: [None] when the caller has to wait. *)
Definition Node_Read (n : Node) : option (Message * Node) :=
  match Chan.recv (readQueue n) with
  | Chan.RecvOk m q => Some (m, set_readQueue q n)
  | Chan.RecvClosed => Some (mkMessage EmptyString [], n)
  | Chan.RecvEmpty => None
  end.

(** *** The reader pump of a node *)

(** What [conn.ReadJSON] meets, in order of arrival. *)
Inductive readEvent :=
| RdMessage (m : Message)     (* a decoded message *)
| RdPing (now : Z)            (* a ping control frame, handled inside ReadJSON *)
| RdError.                    (* read error, close, or deadline *)

Inductive readPark :=
| WaitFrame                                     (* inside ReadJSON *)
| WaitReadQueue (m : Message) (rest : list readEvent)   (* n.readQueue <- m *)
| WaitReadDone.                                 (* the deferred n.readDone <- true *)

(** The handler installed by [SetPingHandler]. *)
Definition pingHandler (now : Z) (n : Node) : Node :=
  let c := option_map (fun c => Conn_Write WsPong (Conn_SetReadDeadline (now + pingWait) c))
                      (conn n) in
  set_lastPingTime now (set_conn c n).

(** The first statements of [readPump], run at time [now]. *)
Definition readPump_start (now : Z) (n : Node) : Node :=
  set_conn (option_map (Conn_SetReadDeadline (now + pingWait)) (conn n)) n.

(** The deferred function of [readPump]. *)
Definition readPump_exit (n : Node) : outcome readPark Node Node :=
  match conn n with
  | None => Panic NilDeref
  | Some c =>
      let n1 := set_state "down" (set_conn (Some (Conn_Close c)) n) in
      match Chan.send (readDone n1) true with
      | Chan.SendOk rd => Done (set_readDone rd n1)
      | Chan.SendFull => Blocked n1 WaitReadDone
      | Chan.SendClosed => Panic SendOnClosed
      end
  end.

(** The [for] loop of [readPump] on the events the connection delivers. *)
Fixpoint readPump_loop (evs : list readEvent) (n : Node) : outcome readPark Node Node :=
  match evs with
  | [] => Blocked n WaitFrame
  | RdError :: _ => readPump_exit n
  | RdPing now :: evs' => readPump_loop evs' (pingHandler now n)
  | RdMessage message :: evs' =>
      if decide (Header message ∈ filters n) then
        (* we need to check against the list of accepted values *)
        match Chan.send (readQueue n) message with
        | Chan.SendOk q => readPump_loop evs' (set_readQueue q n)
        | Chan.SendFull => Blocked n (WaitReadQueue message evs')
        | Chan.SendClosed => Panic SendOnClosed
        end
      else readPump_loop evs' n
  end.

Definition readPump (now : Z) (evs : list readEvent) (n : Node)
  : outcome readPark Node Node :=
  readPump_loop evs (readPump_start now n).

(** *** The writer pump of a node *)

(** One receive of the writer's [select] from [n.writeQueue]: the message
    leaves the queue and is written to the connection. *)
Definition writePump_recv (n : Node) : option Node :=
  match Chan.recv (writeQueue n) with
  | Chan.RecvOk m q =>
      Some (set_conn (option_map (Conn_Write (WsJSON m)) (conn n)) (set_writeQueue q n))
  | _ => None
  end.

(** The deferred function of [writePump]: close, mark down, post the token,
    then run the retry procedure in the same goroutine. *)
Definition writePump_exit (net : Net) (fuel : nat) (st : NodeSt)
  : option (outcome park NodeSt NodeSt) :=
  match conn (node st) with
  | None => Some (Panic NilDeref)
  | Some c =>
      let st1 := on_node (fun n => set_state "down" (set_conn (Some (Conn_Close c)) n)) st in
      match Chan.send (writeDone (node st1)) true with
      | Chan.SendOk wd => retryConnection net fuel (on_node (set_writeDone wd) st1)
      | Chan.SendFull => Some (Blocked st1 SendWriteDone)
      | Chan.SendClosed => Some (Panic SendOnClosed)
      end
  end.

(** ** Subscription: a connection that dialled in *)

Record Subscription := mkSubscription {
  send : chan Message       (* the router and the connection are not modelled *)
}.

(** [make(chan Message, 1024)] in [ListenForNodes] *)
Definition newSubscription : Subscription := mkSubscription (Chan.make 1024).

(** The ticker of [Subscription.writePump]. *)
Definition writePump_ticker : Time.Ticker := Time.NewTicker pingPeriod.

(** The read deadline [Subscription.readPump] sets at [now], and again on
    every pong. *)
Definition readPump_deadline (now : Z) : Z := (now + pongWait)%Z.

(** One receive of the subscription writer from [s.send]. *)
Definition Subscription_writePump_recv (s : Subscription) : option (Message * Subscription) :=
  match Chan.recv (send s) with
  | Chan.RecvOk m q => Some (m, mkSubscription q)
  | _ => None
  end.

(** ** RouterBridge (the bridge file) *)

Record RouterBridge := mkRouterBridge {
  BNode : NodeSt;           (* the node, with the record of what it did *)
  BRouter : positive        (* address of the router the bridge feeds *)
}.

(** [StartBridge]: both results of the Go function, a nil pointer being
    [None]. *)
Definition StartBridge (net : Net) (address : string) (fs : list string) (router : positive)
  : outcome park NodeSt (option RouterBridge * option string) :=
  let toReturn := mkNodeSt (NewNode address fs) 0 [] in
  match ConnectToRouter net address toReturn with
  | Done (st, err) => Done (Some (mkRouterBridge st router), err)
  | Blocked st k => Blocked st k
  | Panic f => Panic f
  end.

(** ** Router (router.go) *)

Record Router := mkRouter {
  inChan : chan Message;
  outChan : chan Message;
  subscriptions : gset positive;                (* map[*Subscription]bool *)
  routingTable : gmap string (list string);
  routerConnections : gset positive;            (* map[*RouterBridge]bool *)
  showMessageLogs : bool
}.

Definition NewRouter : Router :=
  {| inChan := Chan.make 1024;
     outChan := Chan.make 1024;
     subscriptions := ∅;
     routingTable := ∅;
     routerConnections := ∅;
     showMessageLogs := false |}.

Definition SetMessageLogs (value : bool) (r : Router) : Router :=
  mkRouter (inChan r) (outChan r) (subscriptions r) (routingTable r)
           (routerConnections r) value.

Definition set_inChan (q : chan Message) (r : Router) : Router :=
  mkRouter q (outChan r) (subscriptions r) (routingTable r)
           (routerConnections r) (showMessageLogs r).

Definition set_subscriptions (s : gset positive) (r : Router) : Router :=
  mkRouter (inChan r) (outChan r) s (routingTable r)
           (routerConnections r) (showMessageLogs r).

Definition set_routingTable (t : gmap string (list string)) (r : Router) : Router :=
  mkRouter (inChan r) (outChan r) (subscriptions r) t
           (routerConnections r) (showMessageLogs r).

Definition set_routerConnections (s : gset positive) (r : Router) : Router :=
  mkRouter (inChan r) (outChan r) (subscriptions r) (routingTable r)
           s (showMessageLogs r).

(** What the dispatch loop does to its targets, in order. *)
Inductive effect :=
| Sent (sub : positive) (m : Message)           (* sub.send <- m went through *)
| Closed (sub : positive)                       (* close(sub.send) *)
| Deleted (sub : positive)                      (* delete(r.subscriptions, sub) *)
| Forwarded (bridge : positive) (m : Message).  (* the bridge's node queued m *)

Global Instance effect_eq_dec : EqDecision effect.
Proof. solve_decision. Defined.

(** The router, the objects its pointers lead to, and the record of its
    effects. *)
Record World := mkWorld {
  router : Router;
  subHeap : gmap positive Subscription;
  bridgeHeap : gmap positive Node;      (* the node of each bridge *)
  log : list effect
}.

Definition on_router (f : Router -> Router) (w : World) : World :=
  mkWorld (f (router w)) (subHeap w) (bridgeHeap w) (log w).

Definition store_sub (p : positive) (s : Subscription) (w : World) : World :=
  mkWorld (router w) (<[p := s]> (subHeap w)) (bridgeHeap w) (log w).

Definition store_bridge (p : positive) (n : Node) (w : World) : World :=
  mkWorld (router w) (subHeap w) (<[p := n]> (bridgeHeap w)) (log w).

Definition record (e : effect) (w : World) : World :=
  mkWorld (router w) (subHeap w) (bridgeHeap w) (log w ++ [e]).

(** Where [route] is parked when a peer queue is full: in the loop over the
    router connections of output header [kHeader], at the head of
    [kPeers], with the headers [kRest] still to do. *)
Record cont := mkCont {
  kBody : list Byte.byte;
  kHeader : string;
  kPeers : list positive;
  kRest : list string
}.

(** [routerConn.WritePassthrough(msg)], that is [routerConn.Node.Write(msg)] *)
Definition WritePassthrough (b : positive) (msg : Message) (w : World)
  : outcome unit World World :=
  match bridgeHeap w !! b with
  | None => Panic NilDeref
  | Some n =>
      match Node_Write n msg with
      | Done n' => Done (record (Forwarded b msg) (store_bridge b n' w))
      | Blocked _ _ => Blocked w tt
      | Panic f => Panic f
      end
  end.

(** The [select] with [default] in [route]. *)
Definition deliver (sub : positive) (msg : Message) (w : World)
  : outcome cont World World :=
  match subHeap w !! sub with
  | None => Panic NilDeref
  | Some s =>
      match Chan.send (send s) msg with
      | Chan.SendOk q => Done (record (Sent sub msg) (store_sub sub (mkSubscription q) w))
      | Chan.SendClosed => Panic SendOnClosed
      | Chan.SendFull =>
          match Chan.close (send s) with
          | None => Panic CloseOfClosed
          | Some q =>
              let w1 := record (Closed sub) (store_sub sub (mkSubscription q) w) in
              Done (record (Deleted sub)
                      (on_router (fun r => set_subscriptions (subscriptions r ∖ {[sub]}) r) w1))
          end
      end
  end.

(** [for sub := range r.subscriptions { select ... }] over the keys in the
    order the range visits them. *)
Fixpoint deliverAll (msg : Message) (subs : list positive) (w : World)
  : outcome cont World World :=
  match subs with
  | [] => Done w
  | sub :: subs' =>
      match deliver sub msg w with
      | Done w' => deliverAll msg subs' w'
      | other => other
      end
  end.

(** [for routerConn := range r.routerConnections { WritePassthrough }];
    parks at the first bridge whose queue is full, with the bridges left. *)
Fixpoint forwardAll (msg : Message) (peers : list positive) (w : World)
  : outcome (list positive) World World :=
  match peers with
  | [] => Done w
  | b :: peers' =>
      match WritePassthrough b msg w with
      | Done w' => forwardAll msg peers' w'
      | Blocked w' _ => Blocked w' (b :: peers')
      | Panic f => Panic f
      end
  end.

Section Dispatch.

(** The order in which a [range] over a Go map visits the keys is not
    specified; [range] is that order. *)
Variable range : gset positive -> list positive.

(** [for _, newHeader := range headers { ... }] *)
Fixpoint routeHeaders (body : list Byte.byte) (headers : list string) (w : World)
  : outcome cont World World :=
  match headers with
  | [] => Done w
  | newHeader :: rest =>
      let msg := {| Header := newHeader; Body := body |} in
      match deliverAll msg (range (subscriptions (router w))) w with
      | Done w1 =>
          match forwardAll msg (range (routerConnections (router w1))) w1 with
          | Done w2 => routeHeaders body rest w2
          | Blocked w2 peers => Blocked w2 (mkCont body newHeader peers rest)
          | Panic f => Panic f
          end
      | other => other
      end
  end.

Definition route (message : Message) (w : World) : outcome cont World World :=
  match routingTable (router w) !! Header message with
  | None =>
      (* it's not a message we care about *)
      Done w
  | Some headers => routeHeaders (Body message) headers w
  end.

(** A parked [route] goes on from where it stopped once the send can be
    tried again. *)
Definition resume (k : cont) (w : World) : outcome cont World World :=
  match forwardAll {| Header := kHeader k; Body := kBody k |} (kPeers k) w with
  | Done w2 => routeHeaders (kBody k) (kRest k) w2
  | Blocked w2 peers => Blocked w2 (mkCont (kBody k) (kHeader k) peers (kRest k))
  | Panic f => Panic f
  end.

End Dispatch.

(** ** The router loop and the goroutines around it *)

Inductive loopState :=
| Selecting                 (* the loop is at its [select] *)
| Parked (k : cont).        (* the loop is inside [route], parked on a peer queue *)

Record Sys := mkSys {
  world : World;
  loop : loopState
}.

(** The steps of the system, one per channel operation or goroutine. *)
Inductive event :=
| Listen                          (* ListenForNodes: new subscription; case sub := <-r.register *)
| Unregister (sub : positive)     (* sub's reader exits; case sub := <-r.unregister *)
| Publish (m : Message)           (* a reader or a bridge: r.inChan <- m *)
| Dispatch                        (* case message := <-r.inChan: r.route(message) *)
| Resume                          (* the parked send is tried again *)
| SubDrain (sub : positive)       (* sub's writer receives from sub.send *)
| PeerDrain (b : positive)        (* the writer of b's node receives from writeQueue *)
| ConnectPeer (net : Net) (addr : string).   (* one goroutine of ConnectToRouters *)

Inductive stepres :=
| Stepped (s : Sys)
| Disabled                  (* the operation cannot go ahead in this state *)
| Crashed (f : fault).

(** [StartRouter] up to the loop. *)
Definition StartRouter_init (RoutingTable : gmap string (list string)) (r : Router) : Router :=
  set_routingTable RoutingTable (SetMessageLogs false r).

Definition initial (RoutingTable : gmap string (list string)) : Sys :=
  mkSys (mkWorld (StartRouter_init RoutingTable NewRouter) ∅ ∅ []) Selecting.

(** [case sub := <-r.register]. [ListenForNodes] is the only sender on
    [r.register], and what it sends is the subscription it has just made:
    a new address, with a new empty queue of capacity 1024. *)
Definition register (w : World) : World :=
  let p := fresh (dom (subHeap w)) in
  on_router (fun r => set_subscriptions ({[p]} ∪ subscriptions r) r)
            (store_sub p newSubscription w).

(** [case sub := <-r.unregister] *)
Definition unregister (sub : positive) (w : World) : outcome unit World World :=
  if decide (sub ∈ subscriptions (router w)) then
    let w1 := record (Deleted sub)
                (on_router (fun r => set_subscriptions (subscriptions r ∖ {[sub]}) r) w) in
    match subHeap w1 !! sub with
    | None => Panic NilDeref
    | Some s =>
        match Chan.close (send s) with
        | None => Panic CloseOfClosed
        | Some q => Done (record (Closed sub) (store_sub sub (mkSubscription q) w1))
        end
    end
  else Done w.

(** The goroutine [ConnectToRouters] starts for one address: the bridge
    joins the router connections only when [StartBridge] gave no error. The
    source writes to the map from that goroutine, unsynchronised with the
    loop; here the write falls between two iterations of the loop. *)
Definition connectPeer (net : Net) (addr : string) (RoutingTable : gmap string (list string))
    (w : World) : World :=
  (* build our filters: the keys of the table *)
  let fs := elements (dom RoutingTable) in
  match StartBridge net addr fs 1%positive with
  | Done (Some bridge, None) =>
      let p := fresh (dom (bridgeHeap w)) in
      on_router (fun r => set_routerConnections ({[p]} ∪ routerConnections r) r)
                (store_bridge p (node (BNode bridge)) w)
  | _ => w
  end.

Section Loop.

Variable range : gset positive -> list positive.

Definition after_route (o : outcome cont World World) : stepres :=
  match o with
  | Done w => Stepped (mkSys w Selecting)
  | Blocked w k => Stepped (mkSys w (Parked k))
  | Panic f => Crashed f
  end.

Definition loop_step (ev : event) (s : Sys) : stepres :=
  let w := world s in
  match ev, loop s with
  | Listen, Selecting => Stepped (mkSys (register w) Selecting)
  | Unregister sub, Selecting =>
      match unregister sub w with
      | Done w' => Stepped (mkSys w' Selecting)
      | Blocked _ _ => Disabled
      | Panic f => Crashed f
      end
  | Publish m, _ =>
      match Chan.send (inChan (router w)) m with
      | Chan.SendOk q => Stepped (mkSys (on_router (set_inChan q) w) (loop s))
      | Chan.SendFull => Disabled
      | Chan.SendClosed => Crashed SendOnClosed
      end
  | Dispatch, Selecting =>
      match Chan.recv (inChan (router w)) with
      | Chan.RecvOk m q => after_route (route range m (on_router (set_inChan q) w))
      | Chan.RecvClosed => after_route (route range (mkMessage EmptyString []) w)
      | Chan.RecvEmpty => Disabled
      end
  | Resume, Parked k => after_route (resume range k w)
  | SubDrain sub, _ =>
      match subHeap w !! sub with
      | Some sb =>
          match Subscription_writePump_recv sb with
          | Some (_, sb') => Stepped (mkSys (store_sub sub sb' w) (loop s))
          | None => Disabled
          end
      | None => Disabled
      end
  | PeerDrain b, _ =>
      match bridgeHeap w !! b with
      | Some n =>
          match writePump_recv n with
          | Some n' => Stepped (mkSys (store_bridge b n' w) (loop s))
          | None => Disabled
          end
      | None => Disabled
      end
  | ConnectPeer net addr, Selecting =>
      Stepped (mkSys (connectPeer net addr (routingTable (router w)) w) Selecting)
  | _, _ => Disabled
  end.

(** The states the system can be in. *)
Inductive reachable (RoutingTable : gmap string (list string)) : Sys -> Prop :=
| reach_initial : reachable RoutingTable (initial RoutingTable)
| reach_step ev s s' :
    reachable RoutingTable s -> loop_step ev s = Stepped s' -> reachable RoutingTable s'.

(** [steps s s']: the system can go from [s] to [s']. *)
Inductive steps : Sys -> Sys -> Prop :=
| steps_refl s : steps s s
| steps_cons ev s s' s'' : steps s s' -> loop_step ev s' = Stepped s'' -> steps s s''.

(** [completes s s']: a [route] that is parked in [s] (or already over)
    is over in [s'], and not before. *)
Inductive completes : Sys -> Sys -> Prop :=
| completes_here s : loop s = Selecting -> completes s s
| completes_step ev k s s' s'' :
    loop s = Parked k -> loop_step ev s = Stepped s' -> completes s' s'' ->
    completes s s''.

End Loop.

(** ** Reading the record of effects, and the state dispatch relies on *)

(** The messages that went into the queue of subscription [p], in order. *)
Definition sentTo (p : positive) (l : list effect) : list Message :=
  omap (fun e => match e with
                 | Sent q m => if decide (q = p) then Some m else None
                 | _ => None
                 end) l.

(** The messages that went into the write queue of bridge [b], in order. *)
Definition forwardedTo (b : positive) (l : list effect) : list Message :=
  omap (fun e => match e with
                 | Forwarded c m => if decide (c = b) then Some m else None
                 | _ => None
                 end) l.

(** How often the queue of [p] was closed, and [p] deleted from the set. *)
Definition closes (p : positive) (l : list effect) : nat :=
  count_occ effect_eq_dec l (Closed p).

Definition deletes (p : positive) (l : list effect) : nat :=
  count_occ effect_eq_dec l (Deleted p).

(** Every subscription in the set has its object in the heap, with an open
    queue. *)
Definition liveOpen (w : World) : Prop :=
  forall p, p ∈ subscriptions (router w) ->
    exists s, subHeap w !! p = Some s /\ Chan.closed (send s) = false.

(** Every router connection has its node in the heap, with an open write
    queue. *)
Definition peersOpen (w : World) : Prop :=
  forall b, b ∈ routerConnections (router w) ->
    exists n, bridgeHeap w !! b = Some n /\ Chan.closed (writeQueue n) = false.

(** [{Body: message.Body, Header: newHeader}] *)
Definition rewrite (body : list Byte.byte) (newHeader : string) : Message :=
  {| Header := newHeader; Body := body |}.

(** What a parked [route] still owes bridge [b]. *)
Definition pending (k : cont) (b : positive) : list Message :=
  (if decide (b ∈ kPeers k) then [rewrite (kBody k) (kHeader k)] else [])
  ++ map (rewrite (kBody k)) (kRest k).

(** What the loop still owes bridge [b]. *)
Definition debt (s : Sys) (b : positive) : list Message :=
  match loop s with
  | Selecting => []
  | Parked k => pending k b
  end.

(** The two worlds [deliver] can leave behind for a subscription [p] whose
    object is [s]: the message queued, or the queue closed and [p] deleted. *)
Definition enqueued (p : positive) (msg : Message) (s : Subscription) (w : World) : World :=
  record (Sent p msg)
    (store_sub p (mkSubscription (Chan.mk (Chan.buf (send s) ++ [msg]) (Chan.cap (send s)) false)) w).

Definition dropped (p : positive) (s : Subscription) (w : World) : World :=
  record (Deleted p)
    (on_router (fun r => set_subscriptions (subscriptions r ∖ {[p]}) r)
       (record (Closed p)
          (store_sub p (mkSubscription (Chan.mk (Chan.buf (send s)) (Chan.cap (send s)) true)) w))).

(** The world [WritePassthrough] leaves behind for bridge [b] with node [n]. *)
Definition forwarded (b : positive) (msg : Message) (n : Node) (w : World) : World :=
  record (Forwarded b msg)
    (store_bridge b (set_writeQueue (Chan.mk (Chan.buf (writeQueue n) ++ [msg])
                                             (Chan.cap (writeQueue n)) false) n) w).

(** Two worlds that agree on all that concerns subscription [p]. *)
Definition subSame (p : positive) (w1 w2 : World) : Prop :=
  subHeap w1 !! p = subHeap w2 !! p /\
  (p ∈ subscriptions (router w1) <-> p ∈ subscriptions (router w2)) /\
  sentTo p (log w1) = sentTo p (log w2) /\
  closes p (log w1) = closes p (log w2) /\
  deletes p (log w1) = deletes p (log w2).

(** Two worlds that agree on all that concerns bridge [b]. *)
Definition peerSame (b : positive) (w1 w2 : World) : Prop :=
  bridgeHeap w1 !! b = bridgeHeap w2 !! b /\
  (b ∈ routerConnections (router w1) <-> b ∈ routerConnections (router w2)) /\
  forwardedTo b (log w1) = forwardedTo b (log w2).

(** What a whole output list does to one subscription [p] with object [s],
    seen alone: a message per header while there is room, then the drop. *)
Fixpoint feedWorld (body : list Byte.byte) (ts : list string) (p : positive)
    (s : Subscription) (w : World) : World :=
  match ts with
  | [] => w
  | t :: ts' =>
      if Chan.full (send s) then dropped p s w
      else feedWorld body ts' p
             (mkSubscription (Chan.mk (Chan.buf (send s) ++ [rewrite body t])
                                      (Chan.cap (send s)) false))
             (enqueued p (rewrite body t) s w)
  end.

(** What a whole output list does to one bridge [b] with node [n], seen
    alone, when the queue has room: a message per header. *)
Fixpoint pushWorld (body : list Byte.byte) (ts : list string) (b : positive)
    (n : Node) (w : World) : World :=
  match ts with
  | [] => w
  | t :: ts' =>
      pushWorld body ts' b
        (set_writeQueue (Chan.mk (Chan.buf (writeQueue n) ++ [rewrite body t])
                                 (Chan.cap (writeQueue n)) false) n)
        (forwarded b (rewrite body t) n w)
  end.

(** The world a [route] stops in, finished or parked, and what it then
    still owes bridge [b]. *)
Definition final (o : outcome cont World World) : option World :=
  match o with
  | Done w => Some w
  | Blocked w _ => Some w
  | Panic _ => None
  end.

Definition owed (o : outcome cont World World) (b : positive) : list Message :=
  match o with
  | Blocked _ k => pending k b
  | _ => []
  end.

(** A parked [route] waits at bridges that are router connections, each
    once. *)
Definition contOK (k : cont) (w : World) : Prop :=
  NoDup (kPeers k) /\
  forall b, b ∈ kPeers k -> b ∈ routerConnections (router w).

(** How a step of the loop can move a subscription [p]: not at all, or
    staying in the set, or leaving it with one close and one delete. *)
Definition subStep (p : positive) (w w' : World) : Prop :=
  subSame p w' w \/
  (p ∈ subscriptions (router w) /\ p ∈ subscriptions (router w') /\
   closes p (log w') = closes p (log w) /\ deletes p (log w') = deletes p (log w)) \/
  (p ∈ subscriptions (router w) /\ (p ∉ subscriptions (router w')) /\
   is_Some (subHeap w' !! p) /\
   closes p (log w') = closes p (log w) + 1 /\ deletes p (log w') = deletes p (log w) + 1).

(** What every stop of [route] guarantees, finished or parked, when each
    router connection [b] was due the messages [due b]: no panic, the
    invariants, the same table and router connections, a legal step for every
    subscription, and for every bridge the messages forwarded plus the ones
    still owed are the ones that were due. *)
Definition sound (w : World) (due : positive -> list Message)
    (o : outcome cont World World) : Prop :=
  exists w',
    final o = Some w' /\
    liveOpen w' /\ peersOpen w' /\
    routingTable (router w') = routingTable (router w) /\
    routerConnections (router w') = routerConnections (router w) /\
    inChan (router w') = inChan (router w) /\
    match o with Blocked _ k => contOK k w' | _ => True end /\
    (forall p, subStep p w w') /\
    (forall b, b ∈ routerConnections (router w) ->
       forwardedTo b (log w') ++ owed o b = forwardedTo b (log w) ++ due b) /\
    (forall b, b ∉ routerConnections (router w) ->
       forwardedTo b (log w') = forwardedTo b (log w)).

(** The record of effects is sound for [p]: never closed or deleted while in
    the set or before it exists, and at most once ever. *)
Definition logOK (w : World) : Prop :=
  forall p,
    closes p (log w) = deletes p (log w) /\
    closes p (log w) <= 1 /\
    (p ∈ subscriptions (router w) -> closes p (log w) = 0) /\
    (subHeap w !! p = None -> closes p (log w) = 0).

(** The invariant of the system. *)
Definition Inv (s : Sys) : Prop :=
  liveOpen (world s) /\ peersOpen (world s) /\ logOK (world s) /\
  Chan.closed (inChan (router (world s))) = false /\
  match loop s with
  | Selecting => True
  | Parked k => contOK k (world s)
  end.



(** ** The life-cycle states of a node, as its [state] string spells them *)

Definition active (s : string) : Prop := s = "good"%string.

Definition retrying (s : string) : Prop := exists p, s = (p +:+ " retrying")%string.

(** ** Sample networks and nodes *)

(** A peer that refuses every dial. *)
Definition downNet : Net := fun _ _ => Some "connection refused"%string.

(** A peer that refuses the first [k] dials and accepts the next. *)
Definition flakyNet (k : nat) : Net :=
  fun i _ => if (i <? k)%nat then Some "connection refused"%string else None.

Definition freshPeer : NodeSt := mkNodeSt (NewNode "peer:7100" ["ping"%string]) 0 [].

(** The scenario of a routing table with one entry, three subscriptions
    of which the third has its queue filled to capacity, and one peer. *)
Definition pingTable : gmap string (list string) :=
  {[ "ping"%string := ["pong"%string] ]}.

Definition pingMessage : Message := mkMessage "ping" [Byte.x78].

Definition backlog (n : nat) : list Message := replicate n (mkMessage "old" []).

Definition sampleWorld : World :=
  mkWorld
    (mkRouter (Chan.mk [pingMessage] 1024 false) (Chan.make 1024)
              {[1%positive; 2%positive; 3%positive]} pingTable {[7%positive]} false)
    {[ 1%positive := newSubscription;
       2%positive := newSubscription;
       3%positive := mkSubscription (Chan.mk (backlog 1024) 1024 false) ]}
    {[ 7%positive := NewNode "peer:7100" ["ping"%string] ]}
    [].

Definition sampleSys : Sys := mkSys sampleWorld Selecting.

(** The same with the write queue of the peer filled to capacity. *)
Definition stalledWorld : World :=
  store_bridge 7%positive
    (set_writeQueue (Chan.mk (backlog 4096) 4096 false) (NewNode "peer:7100" ["ping"%string]))
    sampleWorld.

Definition stalledSys : Sys := mkSys stalledWorld Selecting.




(** The state a step leads to ([s] itself when there is none). *)
Definition next (range : gset positive -> list positive) (ev : event) (s : Sys) : Sys :=
  match loop_step range ev s with
  | Stepped s' => s'
  | _ => s
  end.

(** A node whose first dial was refused, as [ConnectToRouter] leaves it. *)
Definition waitingPeer : NodeSt :=
  match ConnectToRouter downNet "peer:7100" freshPeer with
  | Done (st, _) => st
  | _ => freshPeer
  end.

(** A node whose first dial was accepted, as [ConnectToRouter] leaves it. *)
Definition connectedPeer : NodeSt :=
  match ConnectToRouter (flakyNet 0) "peer:7100" freshPeer with
  | Done (st, _) => st
  | _ => freshPeer
  end.

(** The connection [connectedPeer] holds. *)
Definition peerConn : Conn := mkConn (dialURL "peer:7100") false None [].

Definition pongMessage : Message := mkMessage "pong" [Byte.x79].

(** A connected node with three messages in its write queue. *)
Definition busyPeer : NodeSt :=
  on_node (set_writeQueue (Chan.mk [pingMessage; pongMessage; mkMessage "old" []] 4096 false))
          connectedPeer.

(** A subscription with three messages queued, its queue open or closed, and
    the connection of its client. *)
Definition busySub (closed : bool) : Subscription :=
  mkSubscription (Chan.mk [pingMessage; pongMessage; mkMessage "old" []] 1024 closed).

Definition clientConn : Conn := mkConn "client:1" false None [].

(** The scenario with the inbound queue empty and a message of the peer
    waiting on the read queue of its bridge. *)
Definition quietWorld : World :=
  store_bridge 7%positive
    (set_readQueue (Chan.mk [pingMessage] 4096 false) (NewNode "peer:7100" ["ping"%string]))
    (on_router (set_inChan (Chan.make 1024)) sampleWorld).

Definition quietSys : Sys := mkSys quietWorld Selecting.

(** A router that has seen one subscription come and go. *)
Definition cycledSys : Sys :=
  next elements (Unregister 1%positive) (next elements Listen (initial pingTable)).

(** ** The pumps and the bridge loop, whole *)

(** *** The writer pump of a node *)

(** What the [select] of [Node.writePump] takes: a receive from the write
    queue, with whether the [WriteJSON] that follows succeeds, or the
    reader's done token. *)
Inductive writeChoice :=
| FromQueue (sent : bool)
| FromReadDone.

Inductive writePark :=
| InSelect            (* no case of the select is ready, or the one taken is not *)
| Reposting.          (* n.readDone <- true with no room *)

(** The [for] loop of [Node.writePump]; [Done] is its [return]. A write
    that fails leaves no frame on the connection. *)
Fixpoint writePump_loop (sched : list writeChoice) (n : Node)
  : outcome writePark Node Node :=
  match sched with
  | [] => Blocked n InSelect
  | FromQueue sent :: sched' =>
      match Chan.recv (writeQueue n) with
      | Chan.RecvEmpty => Blocked n InSelect
      | Chan.RecvClosed =>
          match conn n with
          | None => Panic NilDeref
          | Some c => Done (set_conn (Some (Conn_Write WsClose c)) n)
          end
      | Chan.RecvOk message q =>
          match conn n with
          | None => Panic NilDeref
          | Some c =>
              if sent
              then writePump_loop sched'
                     (set_conn (Some (Conn_Write (WsJSON message) c)) (set_writeQueue q n))
              else Done (set_writeQueue q n)
          end
      end
  | FromReadDone :: _ =>
      match Chan.recv (readDone n) with
      | Chan.RecvEmpty => Blocked n InSelect
      | Chan.RecvOk _ q =>
          (* put it back in *)
          match Chan.send q true with
          | Chan.SendOk q' => Done (set_readDone q' n)
          | Chan.SendFull => Blocked (set_readDone q n) Reposting
          | Chan.SendClosed => Panic SendOnClosed
          end
      | Chan.RecvClosed => Panic SendOnClosed
      end
  end.

Inductive pumpPark :=
| InWritePump (k : writePark)
| InRetry (k : park).

(** [Node.writePump]: the loop, then the deferred function, which ends in
    the retry procedure. *)
Definition writePump (net : Net) (fuel : nat) (sched : list writeChoice) (st : NodeSt)
  : option (outcome pumpPark NodeSt NodeSt) :=
  match writePump_loop sched (node st) with
  | Done n' =>
      match writePump_exit net fuel (mkNodeSt n' (attempt st) (acts st)) with
      | Some (Done st') => Some (Done st')
      | Some (Blocked st' k) => Some (Blocked st' (InRetry k))
      | Some (Panic f) => Some (Panic f)
      | None => None
      end
  | Blocked n' k => Some (Blocked (mkNodeSt n' (attempt st) (acts st)) (InWritePump k))
  | Panic f => Some (Panic f)
  end.

(** *** The pumps of a subscription *)

(** What the [select] of [Subscription.writePump] takes, with whether the
    write that follows succeeds. *)
Inductive sendChoice :=
| FromSend (sent : bool)        (* case message, ok := <-s.send *)
| FromTicker (sent : bool).     (* case <-ticker.C *)

(** The [for] loop of [Subscription.writePump] on the connection [c]; the
    write deadline it sets before each write shows in [sent]. *)
Fixpoint Subscription_writePump_loop (sched : list sendChoice) (s : Subscription) (c : Conn)
  : outcome unit (Subscription * Conn) (Subscription * Conn) :=
  match sched with
  | [] => Blocked (s, c) tt
  | FromSend sent :: sched' =>
      match Chan.recv (send s) with
      | Chan.RecvEmpty => Blocked (s, c) tt
      | Chan.RecvClosed =>
          (* The hub closed the channel. *)
          Done (s, Conn_Write WsClose c)
      | Chan.RecvOk message q =>
          if sent
          then Subscription_writePump_loop sched' (mkSubscription q)
                 (Conn_Write (WsJSON message) c)
          else Done (mkSubscription q, c)
      end
  | FromTicker sent :: sched' =>
      if sent then Subscription_writePump_loop sched' s (Conn_Write WsPing c)
      else Done (s, c)
  end.

(** [Subscription.writePump]: the loop, then the deferred [s.conn.Close()]. *)
Definition Subscription_writePump (sched : list sendChoice) (s : Subscription) (c : Conn)
  : outcome unit (Subscription * Conn) (Subscription * Conn) :=
  match Subscription_writePump_loop sched s c with
  | Done (s', c') => Done (s', Conn_Close c')
  | other => other
  end.

(** What [conn.ReadJSON] meets on the connection of a subscription. *)
Inductive clientEvent :=
| ClMessage (m : Message)     (* a decoded message *)
| ClPong (now : Z)            (* a pong control frame, handled inside ReadJSON *)
| ClError.                    (* read error, close, or deadline *)

(** [Subscription.readPump] for the subscription at address [p], started at
    [now]: what it sends to the router, in order ([Publish] on [inChan],
    [Unregister] on [unregister]), the connection it leaves, and whether it
    has returned. *)
Fixpoint Subscription_readPump_loop (p : positive) (evs : list clientEvent) (c : Conn)
  : list event * Conn * bool :=
  match evs with
  | [] => ([], c, false)
  | ClError :: _ => ([Unregister p], Conn_Close c, true)
  | ClPong now :: evs' =>
      Subscription_readPump_loop p evs' (Conn_SetReadDeadline (readPump_deadline now) c)
  | ClMessage message :: evs' =>
      let '(out, c', over) := Subscription_readPump_loop p evs' c in
      (Publish message :: out, c', over)
  end.

Definition Subscription_readPump (now : Z) (p : positive) (evs : list clientEvent) (c : Conn)
  : list event * Conn * bool :=
  Subscription_readPump_loop p evs (Conn_SetReadDeadline (readPump_deadline now) c).

(** *** The read passthrough of a bridge *)

(** One turn of the loop of [ReadPassthrough] for the bridge at [b]:
    [msg := r.Node.Read()], then [r.Router.inChan <- msg]. It parks with
    nothing in hand when the read queue is empty, with the message in hand
    when [inChan] is full. *)
Definition ReadPassthrough_step (b : positive) (w : World)
  : outcome (option Message) World World :=
  match bridgeHeap w !! b with
  | None => Panic NilDeref
  | Some n =>
      match Node_Read n with
      | None => Blocked w None
      | Some (msg, n') =>
          let w1 := store_bridge b n' w in
          match Chan.send (inChan (router w1)) msg with
          | Chan.SendOk q => Done (on_router (set_inChan q) w1)
          | Chan.SendFull => Blocked w1 (Some msg)
          | Chan.SendClosed => Panic SendOnClosed
          end
      end
  end.

(** *** Reading what went over a connection and what a reader met *)

Definition jsonFrames (fs : list wsframe) : list Message :=
  omap (fun f => match f with WsJSON m => Some m | _ => None end) fs.

Definition pingFrames (fs : list wsframe) : nat :=
  length (omap (fun f => match f with WsPing => Some tt | _ => None end) fs).

Definition pongFrames (fs : list wsframe) : nat :=
  length (omap (fun f => match f with WsPong => Some tt | _ => None end) fs).

Definition closeFrames (fs : list wsframe) : nat :=
  length (omap (fun f => match f with WsClose => Some tt | _ => None end) fs).

Definition sendsTaken (sched : list sendChoice) : nat :=
  length (omap (fun ch => match ch with FromSend _ => Some tt | _ => None end) sched).

Definition ticksTaken (sched : list sendChoice) : nat :=
  length (omap (fun ch => match ch with FromTicker _ => Some tt | _ => None end) sched).

Definition allSent (sched : list sendChoice) : bool :=
  forallb (fun ch => match ch with FromSend b => b | FromTicker b => b end) sched.

Definition readMessages (evs : list readEvent) : list Message :=
  omap (fun e => match e with RdMessage m => Some m | _ => None end) evs.

Definition readPings (evs : list readEvent) : list Z :=
  omap (fun e => match e with RdPing now => Some now | _ => None end) evs.

Definition noReadError (evs : list readEvent) : bool :=
  forallb (fun e => match e with RdError => false | _ => true end) evs.

(** The messages among [ms] that the filters of [n] let through. *)
Definition accepted (n : Node) (ms : list Message) : list Message :=
  List.filter (fun m => bool_decide (Header m ∈ filters n)) ms.

Definition clientMessages (evs : list clientEvent) : list Message :=
  omap (fun e => match e with ClMessage m => Some m | _ => None end) evs.

Definition noClientError (evs : list clientEvent) : bool :=
  forallb (fun e => match e with ClError => false | _ => true end) evs.

(** *** Queues within bounds, queues closed with their owner gone *)

(** A subscription object is tidy: its queue is the one [ListenForNodes]
    made, within its capacity, and closed exactly when the subscription is no
    longer in the set. *)
Definition subTidy (live : bool) (s : Subscription) : Prop :=
  Chan.cap (send s) = 1024 /\
  length (Chan.buf (send s)) <= 1024 /\
  Chan.closed (send s) = negb live.

Definition Tidy (w : World) : Prop :=
  (forall p s, subHeap w !! p = Some s ->
     subTidy (bool_decide (p ∈ subscriptions (router w))) s) /\
  (forall b n, bridgeHeap w !! b = Some n ->
     Chan.cap (writeQueue n) = 4096 /\
     length (Chan.buf (writeQueue n)) <= 4096 /\
     Chan.closed (writeQueue n) = false) /\
  Chan.cap (inChan (router w)) = 1024 /\
  length (Chan.buf (inChan (router w))) <= 1024.

(** * Properties *)

(** ** Timing constants *)

Lemma pingPeriod_value : pingPeriod = (30 * Time.Second)%Z.
Proof. reflexivity. Qed.

Lemma pingWait_value : pingWait = (90 * Time.Second)%Z.
Proof. reflexivity. Qed.

(** C9: the ticker of the subscription writer has period half of the pong
    timeout (30 s for 60 s) and strictly below it; the read deadline the node
    reader sets, at start and on every ping, is 90 s ahead, strictly more
    than the 30 s period at which the remote side sends its pings. *)
Theorem keepalive_periods :
  (2 * Time.period writePump_ticker = pongWait)%Z /\
  pongWait = (60 * Time.Second)%Z /\
  Time.period writePump_ticker = (30 * Time.Second)%Z /\
  (Time.period writePump_ticker < pongWait)%Z /\
  (forall now c n,
     conn (readPump_start now (set_conn (Some c) n))
     = Some (Conn_SetReadDeadline (now + 90 * Time.Second) c)) /\
  (forall now c n,
     option_map readDeadline (conn (pingHandler now (set_conn (Some c) n)))
     = Some (Some (now + 90 * Time.Second)%Z)) /\
  (Time.period writePump_ticker < pingWait)%Z.
Proof.
  repeat split; try reflexivity.
Qed.

(** ** Unknown topics *)

(** C5: a message whose header has no entry in the routing table is dropped
    by [route]: it completes at once and the world (subscriptions, router
    connections, every queue, the record of effects) is the one it started
    from. *)
Theorem route_unknown_topic range (m : Message) (w : World) :
  routingTable (router w) !! Header m = None ->
  route range m w = Done w.
Proof.
  intros Habsent. unfold route. now rewrite Habsent.
Qed.

(** ** Nodes: construction, connection and retry *)

Lemma addFilters_spec fs acc : addFilters fs acc = list_to_set fs ∪ acc.
Proof.
  revert acc. induction fs as [|f fs IH]; intros acc; simpl.
  - set_solver.
  - rewrite IH. set_solver.
Qed.

Lemma NewNode_filters name fs f : f ∈ filters (NewNode name fs) <-> f ∈ fs.
Proof.
  unfold NewNode; simpl. rewrite addFilters_spec. set_solver.
Qed.

Lemma string_length_app (a b : string) :
  String.length (a +:+ b) = String.length a + String.length b.
Proof.
  induction a as [|c a IH]; [reflexivity|].
  change (S (String.length (a +:+ b)) = S (String.length a + String.length b)).
  now rewrite IH.
Qed.

Lemma standby_not_retrying : ~ retrying "standby".
Proof.
  intros [p Hp]. apply (f_equal String.length) in Hp.
  rewrite string_length_app in Hp. simpl in Hp. lia.
Qed.

Lemma markRetrying_retrying n : retrying (state (markRetrying n)).
Proof. now exists (state n). Qed.

Lemma openConnection_ok net st :
  net (attempt st) (dialURL (routerAddress (node st))) = None ->
  openConnection net st =
    (mkNodeSt (set_conn (Some (mkConn (dialURL (routerAddress (node st))) false None []))
                        (node st))
              (S (attempt st))
              (acts st ++ [ADial (dialURL (routerAddress (node st))) true]),
     None).
Proof. intros H. unfold openConnection. now rewrite H. Qed.

Lemma openConnection_fail net st e :
  net (attempt st) (dialURL (routerAddress (node st))) = Some e ->
  openConnection net st =
    (mkNodeSt (node st) (S (attempt st))
              (acts st ++ [ADial (dialURL (routerAddress (node st))) false]),
     Some (openError (routerAddress (node st)) e)).
Proof. intros H. unfold openConnection. now rewrite H. Qed.

Lemma retryLoop_done net fuel st : retryLoop net fuel st None = Some st.
Proof. now destruct fuel. Qed.

(** The retry loop, entered after a failed dial, when the network refuses
    [k] more dials and accepts the next: [k] rounds of sleep and dial. *)
Lemma retryLoop_succeeds net url k : forall fuel st e,
  url = dialURL (routerAddress (node st)) ->
  (forall i, i < k -> net (attempt st + i) url <> None) ->
  net (attempt st + k) url = None ->
  k < fuel ->
  retryLoop net fuel st (Some e) =
    Some (mkNodeSt (set_conn (Some (mkConn url false None [])) (node st))
                   (attempt st + S k)
                   (acts st
                    ++ concat (replicate k [ASleep retryInterval; ADial url false])
                    ++ [ASleep retryInterval; ADial url true])).
Proof.
  induction k as [|k IH]; intros fuel st e Hurl Hfail Hok Hfuel.
  - destruct fuel as [|fuel]; [lia|]. simpl.
    rewrite Nat.add_0_r in Hok.
    unfold openConnection; simpl. rewrite <- Hurl, Hok. simpl.
    rewrite retryLoop_done.
    unfold emit, on_node; simpl. rewrite Nat.add_1_r, <- app_assoc. reflexivity.
  - destruct fuel as [|fuel]; [lia|]. simpl.
    unfold openConnection; simpl. rewrite <- Hurl.
    destruct (net (attempt st) url) as [e'|] eqn:Hnow.
    2:{ exfalso. apply (Hfail 0); [lia|]. now rewrite Nat.add_0_r. }
    unfold emit; simpl.
    rewrite (IH fuel _ (openError (routerAddress (node st)) e')); simpl; try lia; try assumption.
    + f_equal. f_equal; [lia|]. rewrite <- !app_assoc. reflexivity.
    + intros i Hi. specialize (Hfail (S i)). rewrite Nat.add_succ_r in Hfail.
      apply Hfail. lia.
    + rewrite Nat.add_succ_r in Hok. exact Hok.
Qed.

(** While the network refuses every dial the loop never ends. *)
Lemma retryLoop_forever net url : forall fuel st e,
  url = dialURL (routerAddress (node st)) ->
  (forall i, net i url <> None) ->
  retryLoop net fuel st (Some e) = None.
Proof.
  induction fuel as [|fuel IH]; intros st e Hurl Hfail; [reflexivity|].
  simpl. unfold openConnection; simpl. rewrite <- Hurl.
  destruct (net (attempt st) url) as [e'|] eqn:Hnow; [|now apply Hfail in Hnow].
  now apply IH.
Qed.

Lemma backoff_rounds {A} (a b c : A) k :
  [a] ++ concat (replicate k [b; a]) ++ [b; c]
  = concat (replicate (S k) [a; b]) ++ [c].
Proof.
  induction k as [|k IH]; [reflexivity|].
  change ([a] ++ ([b; a] ++ concat (replicate k [b; a])) ++ [b; c]
          = [a; b] ++ concat (replicate (S k) [a; b]) ++ [c]).
  rewrite <- IH. reflexivity.
Qed.

Lemma retryConnection_waits_read net fuel st :
  takeDone (readDone (node st)) = None ->
  retryConnection net fuel st = Some (Blocked (on_node markRetrying st) RecvReadDone).
Proof.
  intros H. unfold retryConnection. simpl. now rewrite H.
Qed.

Lemma retryConnection_waits_write net fuel st rd :
  takeDone (readDone (node st)) = Some rd ->
  takeDone (writeDone (node st)) = None ->
  retryConnection net fuel st
  = Some (Blocked (on_node (set_readDone rd) (on_node markRetrying st)) RecvWriteDone).
Proof.
  intros Hr Hw. unfold retryConnection. simpl. rewrite Hr. simpl. now rewrite Hw.
Qed.

Lemma retryConnection_never_gives_up net fuel st rd wd :
  takeDone (readDone (node st)) = Some rd ->
  takeDone (writeDone (node st)) = Some wd ->
  (forall i, net i (dialURL (routerAddress (node st))) <> None) ->
  retryConnection net fuel st = None.
Proof.
  intros Hr Hw Hfail. unfold retryConnection. simpl. rewrite Hr. simpl. rewrite Hw.
  unfold openConnection; simpl.
  destruct (net (attempt st) (dialURL (routerAddress (node st)))) as [e|] eqn:Hnow;
    [|now apply Hfail in Hnow].
  now rewrite (retryLoop_forever net (dialURL (routerAddress (node st)))).
Qed.

Lemma takeDone_token (c : chan bool) t r :
  Chan.buf c = t :: r -> takeDone c = Some (Chan.mk r (Chan.cap c) (Chan.closed c)).
Proof. intros H. unfold takeDone, Chan.recv. now rewrite H. Qed.

Lemma takeDone_empty (c : chan bool) :
  Chan.buf c = [] -> Chan.closed c = false -> takeDone c = None.
Proof. intros Hb Hc. unfold takeDone, Chan.recv. now rewrite Hb, Hc. Qed.

(** C3: the retry procedure. It goes ahead only when it has taken the done
    token of the reader and then that of the writer out of their channels:
    while the reader's channel is empty it is parked there, having dialled
    nothing, and with the reader's token taken and the writer's channel empty
    it is parked there, having dialled nothing. With a token in each channel
    it takes both and dials; when the network refuses [k] dials and accepts
    the next one, it makes exactly these [k+1] dials with one sleep of
    [retryInterval] = 3 s after each refusal, then sets the state to "good"
    (active) and starts the reader and the writer pump; while every dial is
    refused it never returns. *)
Theorem retryConnection_until_success net st k rt rrest wt wrest fuel :
  Chan.buf (readDone (node st)) = rt :: rrest ->
  Chan.buf (writeDone (node st)) = wt :: wrest ->
  (forall i, i < k -> net (attempt st + i) (dialURL (routerAddress (node st))) <> None) ->
  net (attempt st + k) (dialURL (routerAddress (node st))) = None ->
  k <= fuel ->
  let url := dialURL (routerAddress (node st)) in
  (exists st',
     retryConnection net fuel st = Some (Done st') /\
     active (state (node st')) /\
     conn (node st') = Some (mkConn url false None []) /\
     readDone (node st')
       = Chan.mk rrest (Chan.cap (readDone (node st))) (Chan.closed (readDone (node st))) /\
     writeDone (node st')
       = Chan.mk wrest (Chan.cap (writeDone (node st))) (Chan.closed (writeDone (node st))) /\
     attempt st' = attempt st + S k /\
     acts st' = acts st
                ++ concat (replicate k [ADial url false; ASleep retryInterval])
                ++ [ADial url true; AGo ReadPump; AGo WritePump]) /\
  retryInterval = (3 * Time.Second)%Z /\
  (forall st0,
     Chan.buf (readDone (node st0)) = [] -> Chan.closed (readDone (node st0)) = false ->
     exists st1,
       retryConnection net fuel st0 = Some (Blocked st1 RecvReadDone) /\
       st1 = on_node markRetrying st0 /\
       acts st1 = acts st0 /\ attempt st1 = attempt st0 /\
       conn (node st1) = conn (node st0) /\
       Chan.buf (readDone (node st1)) = [] /\
       writeDone (node st1) = writeDone (node st0)) /\
  (forall st0 t r,
     Chan.buf (readDone (node st0)) = t :: r ->
     Chan.buf (writeDone (node st0)) = [] -> Chan.closed (writeDone (node st0)) = false ->
     exists st1,
       retryConnection net fuel st0 = Some (Blocked st1 RecvWriteDone) /\
       st1 = on_node (set_readDone (Chan.mk r (Chan.cap (readDone (node st0)))
                                            (Chan.closed (readDone (node st0)))))
                     (on_node markRetrying st0) /\
       acts st1 = acts st0 /\ attempt st1 = attempt st0 /\
       conn (node st1) = conn (node st0) /\
       Chan.buf (readDone (node st1)) = r /\
       Chan.buf (writeDone (node st1)) = []) /\
  (forall net', (forall i, net' i url <> None) -> retryConnection net' fuel st = None).
Proof.
  intros Hrb Hwb Hfail Hok Hfuel url.
  pose proof (takeDone_token _ _ _ Hrb) as Hr.
  pose proof (takeDone_token _ _ _ Hwb) as Hw.
  split; [|split; [reflexivity|split; [|split]]].
  - unfold retryConnection. simpl. rewrite Hr. simpl. rewrite Hw.
    unfold openConnection; simpl. fold url in Hfail, Hok |- *.
    destruct k as [|k].
    + rewrite Nat.add_0_r in Hok. rewrite Hok. simpl. rewrite retryLoop_done.
      eexists; split; [reflexivity|]. simpl.
      repeat split; try reflexivity; try lia.
      rewrite <- !app_assoc. reflexivity.
    + destruct (net (attempt st) url) as [e|] eqn:Hnow.
      2:{ exfalso. apply (Hfail 0); [lia|]. now rewrite Nat.add_0_r. }
      rewrite (retryLoop_succeeds net url k); simpl; try lia; try reflexivity.
      * eexists; split; [reflexivity|]. simpl.
        repeat split; try reflexivity; try lia.
        rewrite <- !app_assoc. f_equal.
        pose proof (backoff_rounds (ADial url false) (ASleep retryInterval)
                      (ADial url true) k) as Hb.
        apply (f_equal (fun l => l ++ [AGo ReadPump; AGo WritePump])) in Hb.
        rewrite <- !app_assoc in Hb. exact Hb.
      * intros i Hi. specialize (Hfail (S i)). rewrite Nat.add_succ_r in Hfail.
        apply Hfail. lia.
      * rewrite Nat.add_succ_r in Hok. exact Hok.
  - intros st0 Hb0 Hc0. eexists. split.
    + apply retryConnection_waits_read. now apply takeDone_empty.
    + simpl. now repeat split.
  - intros st0 t r Hb0 Hwb0 Hwc0. eexists. split.
    + apply (retryConnection_waits_write net fuel st0 _ (takeDone_token _ _ _ Hb0)).
      now apply takeDone_empty.
    + simpl. now repeat split.
  - intros net' Hdown. now apply (retryConnection_never_gives_up net' fuel st _ _ Hr Hw).
Qed.

Lemma send_room {A} (c : chan A) v :
  Chan.closed c = false -> Chan.full c = false ->
  Chan.send c v = Chan.SendOk (Chan.mk (Chan.buf c ++ [v]) (Chan.cap c) false).
Proof. intros Hc Hf. unfold Chan.send. now rewrite Hc, Hf. Qed.

Lemma send_full {A} (c : chan A) v :
  Chan.closed c = false -> Chan.full c = true -> Chan.send c v = Chan.SendFull.
Proof. intros Hc Hf. unfold Chan.send. now rewrite Hc, Hf. Qed.

(** C7, as the code has it: [ConnectToRouter] returns an error exactly when
    the dial fails. On success the state is "good" (active) and the reader
    and the writer pump are started. On failure it posts both done tokens
    and starts the retry procedure before it returns the error, and leaves
    the state as it was: the retrying mark is set by the retry procedure,
    as its first statement. *)
Theorem ConnectToRouter_result net address st :
  Chan.closed (readDone (node st)) = false ->
  Chan.full (readDone (node st)) = false ->
  Chan.closed (writeDone (node st)) = false ->
  Chan.full (writeDone (node st)) = false ->
  let url := dialURL address in
  exists st' err,
    ConnectToRouter net address st = Done (st', err) /\
    routerAddress (node st') = address /\
    (err <> None <-> net (attempt st) url <> None) /\
    (net (attempt st) url = None ->
       active (state (node st')) /\
       conn (node st') = Some (mkConn url false None []) /\
       acts st' = acts st ++ [ADial url true; AGo ReadPump; AGo WritePump]) /\
    (net (attempt st) url <> None ->
       err = Some (connectError address) /\
       state (node st') = state (node st) /\
       retrying (state (markRetrying (node st'))) /\
       conn (node st') = conn (node st) /\
       Chan.buf (readDone (node st')) = Chan.buf (readDone (node st)) ++ [true] /\
       Chan.buf (writeDone (node st')) = Chan.buf (writeDone (node st)) ++ [true] /\
       acts st' = acts st ++ [ADial url false; AGo RetryConnection]).
Proof.
  intros Hrc Hrf Hwc Hwf url. unfold ConnectToRouter, openConnection. simpl.
  fold url. destruct (net (attempt st) url) as [e|] eqn:Hnet; simpl.
  - rewrite (send_room _ _ Hrc Hrf). simpl. rewrite (send_room _ _ Hwc Hwf). simpl.
    eexists _, _. split; [reflexivity|]. simpl.
    split; [reflexivity|]. split; [split; congruence|].
    split; [congruence|]. intros _.
    repeat split; try reflexivity.
    + now exists (state (node st)).
    + now rewrite <- app_assoc.
  - eexists _, _. split; [reflexivity|]. simpl.
    split; [reflexivity|]. split; [tauto|].
    split; [|tauto]. intros _. unfold active.
    repeat split; try reflexivity. rewrite <- !app_assoc. reflexivity.
Qed.

Lemma ConnectToRouter_keeps net address st st' err :
  ConnectToRouter net address st = Done (st', err) ->
  Name (node st') = Name (node st) /\ filters (node st') = filters (node st) /\
  writeQueue (node st') = writeQueue (node st) /\
  readQueue (node st') = readQueue (node st).
Proof.
  unfold ConnectToRouter, openConnection. simpl.
  destruct (net (attempt st) (dialURL address)); simpl.
  - destruct (Chan.send (readDone (node st)) true); simpl; try discriminate.
    destruct (Chan.send (writeDone (node st)) true); simpl; try discriminate.
    intros [= <- _]. now repeat split.
  - intros [= <- _]. now repeat split.
Qed.

(** C8: [StartBridge] always returns a bridge, built on a node that carries
    the given address (as name and as router address) and exactly the given
    filters, together with the result of [ConnectToRouter] on that new node:
    no error when the dial succeeds, the connect error when it fails. *)
Theorem StartBridge_result net address fs rtr :
  exists bridge err,
    StartBridge net address fs rtr = Done (Some bridge, err) /\
    ConnectToRouter net address (mkNodeSt (NewNode address fs) 0 [])
      = Done (BNode bridge, err) /\
    BRouter bridge = rtr /\
    Name (node (BNode bridge)) = address /\
    routerAddress (node (BNode bridge)) = address /\
    (forall f, f ∈ filters (node (BNode bridge)) <-> f ∈ fs) /\
    err = match net 0 (dialURL address) with
          | None => None
          | Some _ => Some (connectError address)
          end.
Proof.
  destruct (ConnectToRouter net address (mkNodeSt (NewNode address fs) 0 []))
    as [[st' err]| |] eqn:Hrun.
  2,3: revert Hrun; unfold ConnectToRouter, openConnection; simpl;
       destruct (net 0 (dialURL address)); discriminate.
  destruct (ConnectToRouter_keeps _ _ _ _ _ Hrun) as (Hname & Hfilters & _).
  exists (mkRouterBridge st' rtr), err.
  unfold StartBridge. rewrite Hrun.
  split; [reflexivity|]. split; [reflexivity|]. split; [reflexivity|].
  split; [exact Hname|].
  revert Hrun. unfold ConnectToRouter, openConnection. simpl.
  destruct (net 0 (dialURL address)) as [e|]; simpl; intros [= <- <-]; simpl.
  - split; [reflexivity|]. split; [|reflexivity].
    intros f. exact (NewNode_filters address fs f).
  - split; [reflexivity|]. split; [|reflexivity].
    intros f. exact (NewNode_filters address fs f).
Qed.

(** ** The reader pump of a node *)

Lemma buf_grows {A} (l : list A) x : l <> l ++ [x].
Proof.
  intros H. apply (f_equal length) in H. rewrite length_app in H. simpl in H. lia.
Qed.

(** The reader over decoded messages alone, with room in the read queue for
    the ones its filters let through. *)
Lemma readPump_loop_messages : forall ms n,
  Chan.closed (readQueue n) = false ->
  length (accepted n ms) <= Chan.free (readQueue n) ->
  readPump_loop (map RdMessage ms) n
  = Blocked (set_readQueue (Chan.mk (Chan.buf (readQueue n) ++ accepted n ms)
                                    (Chan.cap (readQueue n)) false) n) WaitFrame.
Proof.
  induction ms as [|m ms IH]; intros n Hopen Hroom.
  - simpl. rewrite app_nil_r. f_equal.
    destruct n as [? ? ? ? [rb rc rcl] ? ? ? ? ?]; simpl in *. now subst rcl.
  - cbn [map readPump_loop]. unfold accepted in Hroom |- *. cbn [List.filter] in Hroom |- *.
    destruct (decide (Header m ∈ filters n)) as [Hin|Hout].
    + rewrite bool_decide_eq_true_2 in Hroom |- * by assumption.
      cbn [length] in Hroom.
      assert (Hnf : Chan.full (readQueue n) = false).
      { unfold Chan.full, Chan.free in *. apply Nat.leb_gt. lia. }
      unfold Chan.send. rewrite Hopen, Hnf.
      rewrite (IH (set_readQueue _ n)).
      * unfold accepted. simpl. now rewrite <- app_assoc.
      * reflexivity.
      * unfold accepted, Chan.free in *. simpl. rewrite length_app. simpl. lia.
    + rewrite bool_decide_eq_false_2 in Hroom |- * by assumption.
      now apply IH.
Qed.

(** C6: the reader pump hands a decoded message to the read queue exactly
    when its header is one of the node's filters -- the filters are the ones
    [NewNode] was given. A message with another header leaves the node as it
    is and the reader waits for the next frame; a message that matches is
    appended to the queue, the loop waiting (with the message in hand) while
    the queue is full. Over any messages, with room for the ones that match,
    the read queue ends up holding, behind what it held, exactly the messages
    whose header is among the filters, in the order read, and nothing else of
    the node has changed. *)
Theorem readPump_filters (message : Message) (evs : list readEvent) (n : Node) :
  Chan.closed (readQueue n) = false ->
  let queued := set_readQueue (Chan.mk (Chan.buf (readQueue n) ++ [message])
                                       (Chan.cap (readQueue n)) false) n in
  (Header message ∉ filters n ->
     readPump_loop (RdMessage message :: evs) n = readPump_loop evs n /\
     readPump_loop [RdMessage message] n = Blocked n WaitFrame) /\
  (Header message ∈ filters n -> Chan.full (readQueue n) = false ->
     readPump_loop (RdMessage message :: evs) n = readPump_loop evs queued /\
     readPump_loop [RdMessage message] n = Blocked queued WaitFrame) /\
  (Header message ∈ filters n -> Chan.full (readQueue n) = true ->
     readPump_loop (RdMessage message :: evs) n = Blocked n (WaitReadQueue message evs)) /\
  (Chan.full (readQueue n) = false ->
     exists n', readPump_loop (RdMessage message :: evs) n = readPump_loop evs n' /\
       readPump_loop [RdMessage message] n = Blocked n' WaitFrame /\
       (Chan.buf (readQueue n') = Chan.buf (readQueue n) ++ [message]
        <-> Header message ∈ filters n) /\
       (Header message ∉ filters n -> n' = n)) /\
  (forall ms,
     length (accepted n ms) <= Chan.free (readQueue n) ->
     exists n',
       readPump_loop (map RdMessage ms) n = Blocked n' WaitFrame /\
       n' = set_readQueue (Chan.mk (Chan.buf (readQueue n) ++ accepted n ms)
                                   (Chan.cap (readQueue n)) false) n /\
       Chan.buf (readQueue n') = Chan.buf (readQueue n) ++ accepted n ms /\
       forall m, m ∈ accepted n ms <-> m ∈ ms /\ Header m ∈ filters n) /\
  (forall name fs f, f ∈ filters (NewNode name fs) <-> f ∈ fs).
Proof.
  intros Hopen queued.
  assert (Hskip : Header message ∉ filters n ->
            readPump_loop (RdMessage message :: evs) n = readPump_loop evs n).
  { intros Hout. simpl. now rewrite decide_False. }
  assert (Hskip1 : Header message ∉ filters n ->
            readPump_loop [RdMessage message] n = Blocked n WaitFrame).
  { intros Hout. simpl. now rewrite decide_False. }
  assert (Hin : Header message ∈ filters n -> Chan.full (readQueue n) = false ->
            readPump_loop (RdMessage message :: evs) n = readPump_loop evs queued).
  { intros Hmem Hroom. simpl. rewrite decide_True by assumption.
    now rewrite (send_room _ _ Hopen Hroom). }
  assert (Hin1 : Header message ∈ filters n -> Chan.full (readQueue n) = false ->
            readPump_loop [RdMessage message] n = Blocked queued WaitFrame).
  { intros Hmem Hroom. simpl. rewrite decide_True by assumption.
    now rewrite (send_room _ _ Hopen Hroom). }
  split; [now split; auto|]. split; [now split; auto|]. split; [|split; [|split]].
  - intros Hmem Hfull. simpl. rewrite decide_True by assumption.
    now rewrite (send_full _ _ Hopen Hfull).
  - intros Hroom. destruct (decide (Header message ∈ filters n)) as [Hmem|Hout].
    + exists queued. split; [now apply Hin|]. split; [now apply Hin1|].
      split; [now split|]. intros Hout. now elim Hout.
    + exists n. split; [now apply Hskip|]. split; [now apply Hskip1|].
      split; [|reflexivity].
      split; [intros Hbuf|intros Hmem; now elim Hout].
      now apply buf_grows in Hbuf.
  - intros ms Hroom. eexists. split; [now apply readPump_loop_messages|].
    split; [reflexivity|]. split; [reflexivity|].
    intros m. unfold accepted. rewrite list_elem_of_In, filter_In, <- list_elem_of_In.
    now rewrite bool_decide_eq_true.
  - intros name fs f. apply NewNode_filters.
Qed.

(** ** Dispatch: one target at a time *)

Lemma subSame_refl p w : subSame p w w.
Proof. now repeat split. Qed.

Lemma subSame_trans p w1 w2 w3 : subSame p w1 w2 -> subSame p w2 w3 -> subSame p w1 w3.
Proof.
  intros (H1 & H2 & H3 & H4 & H5) (K1 & K2 & K3 & K4 & K5).
  repeat split; try congruence; tauto.
Qed.


Lemma peerSame_refl b w : peerSame b w w.
Proof. now repeat split. Qed.

Lemma peerSame_trans b w1 w2 w3 : peerSame b w1 w2 -> peerSame b w2 w3 -> peerSame b w1 w3.
Proof.
  intros (H1 & H2 & H3) (K1 & K2 & K3). repeat split; try congruence; tauto.
Qed.

Lemma sentTo_app p l1 l2 : sentTo p (l1 ++ l2) = sentTo p l1 ++ sentTo p l2.
Proof. apply omap_app. Qed.

Lemma forwardedTo_app b l1 l2 :
  forwardedTo b (l1 ++ l2) = forwardedTo b l1 ++ forwardedTo b l2.
Proof. apply omap_app. Qed.

Lemma closes_app p l1 l2 : closes p (l1 ++ l2) = closes p l1 + closes p l2.
Proof. apply count_occ_app. Qed.

Lemma deletes_app p l1 l2 : deletes p (l1 ++ l2) = deletes p l1 + deletes p l2.
Proof. apply count_occ_app. Qed.

Lemma closes_one p e :
  closes p [e] = if decide (e = Closed p) then 1 else 0.
Proof.
  unfold closes; simpl. destruct (effect_eq_dec e (Closed p)), (decide (e = Closed p));
    congruence.
Qed.

Lemma deletes_one p e :
  deletes p [e] = if decide (e = Deleted p) then 1 else 0.
Proof.
  unfold deletes; simpl. destruct (effect_eq_dec e (Deleted p)), (decide (e = Deleted p));
    congruence.
Qed.

Lemma deliver_room p msg w s :
  subHeap w !! p = Some s -> Chan.closed (send s) = false -> Chan.full (send s) = false ->
  deliver p msg w = Done (enqueued p msg s w).
Proof.
  intros Hs Hc Hf. unfold deliver. rewrite Hs, (send_room _ _ Hc Hf). reflexivity.
Qed.

Lemma deliver_full p msg w s :
  subHeap w !! p = Some s -> Chan.closed (send s) = false -> Chan.full (send s) = true ->
  deliver p msg w = Done (dropped p s w).
Proof.
  intros Hs Hc Hf. unfold deliver. rewrite Hs, (send_full _ _ Hc Hf).
  unfold Chan.close. rewrite Hc. reflexivity.
Qed.

Lemma deliver_cases p msg w s :
  subHeap w !! p = Some s -> Chan.closed (send s) = false ->
  deliver p msg w = Done (if Chan.full (send s) then dropped p s w else enqueued p msg s w).
Proof.
  intros Hs Hc. destruct (Chan.full (send s)) eqn:Hf.
  - now apply deliver_full.
  - now apply deliver_room.
Qed.

(** Normalise what a record of effects says once a few effects are added. *)
Ltac effects :=
  rewrite ?sentTo_app, ?forwardedTo_app, ?closes_app, ?deletes_app,
          ?closes_one, ?deletes_one;
  simpl;
  repeat match goal with
         | |- context [decide (?x = ?y)] =>
             first [ rewrite (decide_False (P := x = y)) by congruence
                   | rewrite (decide_True (P := x = y)) by congruence ]
         end;
  rewrite ?app_nil_r, ?Nat.add_0_r.

(** What [enqueued] and [dropped] change for another subscription, and for
    the bridges: nothing. *)
Lemma enqueued_other p q msg s w : p <> q -> subSame p (enqueued q msg s w) w.
Proof.
  intros Hne. unfold subSame, enqueued; simpl.
  rewrite lookup_insert_ne by congruence. effects. now repeat split.
Qed.

Lemma dropped_other p q s w : p <> q -> subSame p (dropped q s w) w.
Proof.
  intros Hne. unfold subSame, dropped; simpl.
  rewrite lookup_insert_ne by congruence. effects.
  repeat split; try reflexivity; set_solver.
Qed.

Lemma enqueued_peer b q msg s w : peerSame b (enqueued q msg s w) w.
Proof. unfold peerSame, enqueued; simpl. effects. now repeat split. Qed.

Lemma dropped_peer b q s w : peerSame b (dropped q s w) w.
Proof. unfold peerSame, dropped; simpl. effects. now repeat split. Qed.

Lemma forwarded_sub p b msg n w : subSame p (forwarded b msg n w) w.
Proof. unfold subSame, forwarded; simpl. effects. now repeat split. Qed.

Lemma forwarded_other b c msg n w : b <> c -> peerSame b (forwarded c msg n w) w.
Proof.
  intros Hne. unfold peerSame, forwarded; simpl.
  rewrite lookup_insert_ne by congruence. effects. now repeat split.
Qed.

(** The same step taken from two worlds that agree on [p] leaves worlds that
    agree on [p]. *)
Lemma enqueued_same p msg s w1 w2 :
  subSame p w1 w2 -> subSame p (enqueued p msg s w1) (enqueued p msg s w2).
Proof.
  intros (H1 & H2 & H3 & H4 & H5). unfold subSame, enqueued; simpl.
  rewrite !lookup_insert_eq, !sentTo_app, !closes_app, !deletes_app, H3, H4, H5.
  repeat split; solve [reflexivity | tauto].
Qed.

Lemma dropped_same p s w1 w2 :
  subSame p w1 w2 -> subSame p (dropped p s w1) (dropped p s w2).
Proof.
  intros (H1 & H2 & H3 & H4 & H5). unfold subSame, dropped; simpl.
  rewrite !lookup_insert_eq, !sentTo_app, !closes_app, !deletes_app, H3, H4, H5.
  repeat split; try reflexivity; set_solver.
Qed.

Lemma enqueued_liveOpen q msg s w : liveOpen w -> liveOpen (enqueued q msg s w).
Proof.
  intros Hlive p Hp. unfold enqueued in *; simpl in *.
  destruct (decide (p = q)) as [->|Hne].
  - rewrite lookup_insert_eq. eauto.
  - rewrite lookup_insert_ne by congruence. now apply Hlive.
Qed.

Lemma dropped_liveOpen q s w : liveOpen w -> liveOpen (dropped q s w).
Proof.
  intros Hlive p Hp. unfold dropped in *; simpl in *.
  apply elem_of_difference in Hp as [Hp Hne].
  rewrite lookup_insert_ne by set_solver. now apply Hlive.
Qed.

Lemma subSame_liveOpen w w' :
  (forall p, subSame p w' w) -> liveOpen w -> liveOpen w'.
Proof.
  intros Hsame Hlive p Hp. destruct (Hsame p) as (Hheap & Hmem & _).
  rewrite Hheap. apply Hlive. tauto.
Qed.

(** The loop over the subscriptions: it never parks and never panics; every
    subscription it visits gets the message, or is closed and deleted when
    its queue is full; nothing else changes. *)
Lemma deliverAll_spec msg : forall l w,
  NoDup l ->
  (forall p, p ∈ l -> p ∈ subscriptions (router w)) ->
  liveOpen w ->
  exists w',
    deliverAll msg l w = Done w' /\
    liveOpen w' /\
    routingTable (router w') = routingTable (router w) /\
    routerConnections (router w') = routerConnections (router w) /\
    inChan (router w') = inChan (router w) /\
    bridgeHeap w' = bridgeHeap w /\
    (forall b, peerSame b w' w) /\
    (forall p, p ∉ l -> subSame p w' w) /\
    (forall p s, p ∈ l -> subHeap w !! p = Some s ->
       subSame p w' (if Chan.full (send s) then dropped p s w else enqueued p msg s w)).
Proof.
  induction l as [|q l IH]; intros w Hnd Hin Hlive.
  - exists w. simpl. split; [reflexivity|]. split; [assumption|].
    split; [reflexivity|]. split; [reflexivity|]. split; [reflexivity|].
    split; [reflexivity|].
    split; [intros b; apply peerSame_refl|].
    split; [intros p _; apply subSame_refl|].
    intros p s Hp. now apply elem_of_nil in Hp.
  - apply NoDup_cons in Hnd as [Hq Hnd].
    destruct (Hlive q) as (sq & Hsq & Hopen); [apply Hin; left|].
    simpl. rewrite (deliver_cases q msg w sq Hsq Hopen).
    set (w1 := if Chan.full (send sq) then dropped q sq w else enqueued q msg sq w).
    assert (Hother : forall p, p <> q -> subSame p w1 w).
    { intros p Hne. unfold w1. destruct (Chan.full (send sq));
        [now apply dropped_other | now apply enqueued_other]. }
    assert (Hpeer1 : forall b, peerSame b w1 w).
    { intros b. unfold w1. destruct (Chan.full (send sq));
        [apply dropped_peer | apply enqueued_peer]. }
    assert (Hlive1 : liveOpen w1).
    { unfold w1. destruct (Chan.full (send sq));
        [now apply dropped_liveOpen | now apply enqueued_liveOpen]. }
    assert (Hstatic : routingTable (router w1) = routingTable (router w) /\
                      routerConnections (router w1) = routerConnections (router w) /\
                      inChan (router w1) = inChan (router w) /\
                      bridgeHeap w1 = bridgeHeap w).
    { unfold w1. destruct (Chan.full (send sq)); now repeat split. }
    destruct Hstatic as (Htab1 & Hconn1 & Hinch1 & Hbh1).
    destruct (IH w1) as (w' & Hrun & Hlive' & Htab & Hconn & Hinch & Hbh & Hpeer & Hout & Hvis).
    { exact Hnd. }
    { intros p Hp. assert (p <> q) by (intros ->; contradiction).
      apply (Hother p); [assumption|]. apply Hin. now right. }
    { exact Hlive1. }
    exists w'. split; [exact Hrun|]. split; [exact Hlive'|].
    split; [congruence|]. split; [congruence|]. split; [congruence|].
    split; [congruence|]. split; [|split].
    + intros b. eapply peerSame_trans; [apply Hpeer|apply Hpeer1].
    + intros p Hp. apply not_elem_of_cons in Hp as [Hne Hp].
      eapply subSame_trans; [now apply Hout|now apply Hother].
    + intros p s Hp Hs. apply elem_of_cons in Hp as [->|Hp].
      * rewrite Hsq in Hs. injection Hs as <-. now apply Hout.
      * assert (Hne : p <> q) by (intros ->; contradiction).
        destruct (Hother p Hne) as (Hheap & _).
        eapply subSame_trans; [apply (Hvis p s Hp); congruence|].
        destruct (Chan.full (send s));
          [apply dropped_same | apply enqueued_same]; now apply Hother.
Qed.

Lemma WritePassthrough_cases b msg w n :
  bridgeHeap w !! b = Some n -> Chan.closed (writeQueue n) = false ->
  WritePassthrough b msg w
  = if Chan.full (writeQueue n) then Blocked w tt else Done (forwarded b msg n w).
Proof.
  intros Hn Hc. unfold WritePassthrough, Node_Write. rewrite Hn.
  destruct (Chan.full (writeQueue n)) eqn:Hf.
  - now rewrite (send_full _ _ Hc Hf).
  - now rewrite (send_room _ _ Hc Hf).
Qed.

Lemma forwarded_peersOpen c msg n w : peersOpen w -> peersOpen (forwarded c msg n w).
Proof.
  intros Hopen b Hb. unfold forwarded in *; simpl in *.
  destruct (decide (b = c)) as [->|Hne].
  - rewrite lookup_insert_eq. eauto.
  - rewrite lookup_insert_ne by congruence. now apply Hopen.
Qed.

Lemma forwarded_same b msg n w1 w2 :
  peerSame b w1 w2 -> peerSame b (forwarded b msg n w1) (forwarded b msg n w2).
Proof.
  intros (H1 & H2 & H3). unfold peerSame, forwarded; simpl.
  rewrite !lookup_insert_eq, !forwardedTo_app, H3.
  repeat split; solve [reflexivity | tauto].
Qed.

(** The loop over the router connections: it never panics; it queues the
    message at the bridges of a prefix [done] of the keys, and either that is
    all of them, or it is parked at the next one, whose queue is full. No
    bridge is removed, no subscription is touched. *)
Lemma forwardAll_spec msg : forall l w,
  NoDup l ->
  (forall b, b ∈ l -> b ∈ routerConnections (router w)) ->
  peersOpen w ->
  exists done rest w',
    l = done ++ rest /\
    ((rest = [] /\ forwardAll msg l w = Done w') \/
     (exists b n, head rest = Some b /\ bridgeHeap w' !! b = Some n /\
                  Chan.full (writeQueue n) = true /\
                  forwardAll msg l w = Blocked w' rest)) /\
    peersOpen w' /\
    router w' = router w /\
    subHeap w' = subHeap w /\
    (forall p, subSame p w' w) /\
    (forall b, b ∉ done -> peerSame b w' w) /\
    (forall b n, b ∈ done -> bridgeHeap w !! b = Some n ->
       peerSame b w' (forwarded b msg n w)).
Proof.
  induction l as [|c l IH]; intros w Hnd Hin Hopen.
  - exists [], [], w. split; [reflexivity|]. split; [left; now split|].
    split; [assumption|]. split; [reflexivity|]. split; [reflexivity|].
    split; [intros p; apply subSame_refl|].
    split; [intros b _; apply peerSame_refl|].
    intros b n Hb. now apply elem_of_nil in Hb.
  - apply NoDup_cons in Hnd as [Hc Hnd].
    destruct (Hopen c) as (nc & Hnc & Hcopen); [apply Hin; left|].
    simpl. rewrite (WritePassthrough_cases c msg w nc Hnc Hcopen).
    destruct (Chan.full (writeQueue nc)) eqn:Hfull.
    + exists [], (c :: l), w. split; [reflexivity|].
      split; [right; exists c, nc; now repeat split|].
      split; [assumption|]. split; [reflexivity|]. split; [reflexivity|].
      split; [intros p; apply subSame_refl|].
      split; [intros b _; apply peerSame_refl|].
      intros b n Hb. now apply elem_of_nil in Hb.
    + set (w1 := forwarded c msg nc w).
      destruct (IH w1) as (done & rest & w' & Hsplit & Hend & Hopen' & Hr & Hsh
                           & Hsub & Hout & Hvis).
      { exact Hnd. }
      { intros b Hb. unfold w1, forwarded; simpl. apply Hin. now right. }
      { now apply forwarded_peersOpen. }
      exists (c :: done), rest, w'.
      assert (Hcdone : c ∉ done).
      { intros Hcd. apply Hc. rewrite Hsplit. apply elem_of_app. now left. }
      split; [simpl; congruence|]. split; [exact Hend|].
      split; [exact Hopen'|]. split; [exact Hr|]. split; [exact Hsh|].
      split; [|split].
      * intros p. eapply subSame_trans; [apply Hsub|apply forwarded_sub].
      * intros b Hb. apply not_elem_of_cons in Hb as [Hne Hb].
        eapply peerSame_trans; [now apply Hout|now apply forwarded_other].
      * intros b n Hb Hn. apply elem_of_cons in Hb as [->|Hb].
        -- rewrite Hnc in Hn. injection Hn as <-. now apply Hout.
        -- assert (Hne : b <> c) by (intros ->; contradiction).
           eapply peerSame_trans.
           ++ apply (Hvis b n Hb). unfold w1, forwarded; simpl.
              now rewrite lookup_insert_ne by congruence.
           ++ apply forwarded_same. now apply forwarded_other.
Qed.

(** ** Dispatch of a whole output list, seen from one target *)

Lemma full_free {A} (c : chan A) : Chan.full c = true <-> Chan.free c = 0.
Proof.
  unfold Chan.full, Chan.free. rewrite Nat.leb_le. lia.
Qed.

Lemma not_full_free {A} (c : chan A) : Chan.full c = false <-> 0 < Chan.free c.
Proof.
  unfold Chan.full, Chan.free. rewrite Nat.leb_gt. lia.
Qed.

Lemma free_enqueue {A} (c : chan A) v b :
  Chan.free (Chan.mk (Chan.buf c ++ [v]) (Chan.cap c) b) = Chan.free c - 1.
Proof. unfold Chan.free; simpl. rewrite length_app; simpl. lia. Qed.

Lemma feedWorld_same body ts p : forall s w1 w2,
  subSame p w1 w2 -> subSame p (feedWorld body ts p s w1) (feedWorld body ts p s w2).
Proof.
  induction ts as [|t ts IH]; intros s w1 w2 Hsame; simpl; [assumption|].
  destruct (Chan.full (send s)).
  - now apply dropped_same.
  - apply IH. now apply enqueued_same.
Qed.

Lemma pushWorld_same body ts b : forall n w1 w2,
  peerSame b w1 w2 -> peerSame b (pushWorld body ts b n w1) (pushWorld body ts b n w2).
Proof.
  induction ts as [|t ts IH]; intros n w1 w2 Hsame; simpl; [assumption|].
  apply IH. now apply forwarded_same.
Qed.

(** The subscription [p] after the whole list: it holds the first
    [free] rewritten messages, in order, behind what it held; it is closed
    and deleted, once, exactly when the list is longer than the room. *)
Lemma feedWorld_closed_form body ts p : forall s w,
  Chan.closed (send s) = false ->
  let room := Chan.free (send s) in
  let got := map (rewrite body) (take room ts) in
  let w' := feedWorld body ts p s (store_sub p s w) in
  subHeap w' !! p
    = Some (mkSubscription (Chan.mk (Chan.buf (send s) ++ got) (Chan.cap (send s))
                                    (room <? length ts))) /\
  (p ∈ subscriptions (router w') <-> p ∈ subscriptions (router w) /\ length ts <= room) /\
  sentTo p (log w') = sentTo p (log w) ++ got /\
  closes p (log w') = closes p (log w) + (if room <? length ts then 1 else 0) /\
  deletes p (log w') = deletes p (log w) + (if room <? length ts then 1 else 0).
Proof.
  induction ts as [|t ts IH]; intros s w Hopen; simpl.
  - rewrite lookup_insert_eq, take_nil, !app_nil_r, !Nat.add_0_r.
    destruct s as [[buf cap cl]]; simpl in *; subst cl.
    unfold Nat.ltb; simpl.
    repeat split; try reflexivity; try tauto. lia.
  - destruct (Chan.full (send s)) eqn:Hfull.
    + apply full_free in Hfull. rewrite Hfull. simpl.
      unfold dropped; simpl. rewrite insert_insert_eq, lookup_insert_eq. effects.
      repeat split; try reflexivity; try lia; set_solver.
    + apply not_full_free in Hfull.
      destruct (Chan.free (send s)) as [|room] eqn:Hroom; [lia|].
      set (s1 := mkSubscription (Chan.mk (Chan.buf (send s) ++ [rewrite body t])
                                          (Chan.cap (send s)) false)).
      assert (Hw : subSame p (enqueued p (rewrite body t) s (store_sub p s w))
                     (store_sub p s1 (record (Sent p (rewrite body t)) w))).
      { unfold subSame, enqueued, store_sub, record; simpl.
        rewrite insert_insert_eq. now repeat split. }
      pose proof (feedWorld_same body ts p s1 _ _ Hw) as (K1 & K2 & K3 & K4 & K5).
      destruct (IH s1 (record (Sent p (rewrite body t)) w) eq_refl)
        as (I1 & I2 & I3 & I4 & I5).
      assert (Hfree1 : Chan.free (send s1) = room).
      { unfold s1; simpl. rewrite free_enqueue. lia. }
      rewrite Hfree1 in I1, I2, I3, I4, I5. simpl in I1, I2, I3, I4, I5.
      rewrite K1, K2, K3, K4, K5, I1, I3, I4, I5.
      revert I3 I4 I5. effects. intros _ _ _.
      change (S room <? S (length ts)) with (room <? length ts).
      rewrite <- !app_assoc. simpl.
      split; [reflexivity|]. split; [|now repeat split].
      rewrite I2. split; intros [Hp Hlen]; (split; [assumption|lia]).
Qed.

Lemma store_sub_id p s w : subHeap w !! p = Some s -> store_sub p s w = w.
Proof.
  intros H. destruct w as [r sh bh lg]. unfold store_sub; simpl in *.
  now rewrite insert_id.
Qed.

Lemma store_bridge_id b n w : bridgeHeap w !! b = Some n -> store_bridge b n w = w.
Proof.
  intros H. destruct w as [r sh bh lg]. unfold store_bridge; simpl in *.
  now rewrite insert_id.
Qed.

(** The bridge [b] after the whole list: its write queue holds every
    rewritten message, in order, behind what it held. *)
Lemma pushWorld_closed_form body ts b : forall n w,
  let got := map (rewrite body) ts in
  let w' := pushWorld body ts b n (store_bridge b n w) in
  bridgeHeap w' !! b
    = Some (set_writeQueue (Chan.mk (Chan.buf (writeQueue n) ++ got)
                                    (Chan.cap (writeQueue n))
                                    (match ts with [] => Chan.closed (writeQueue n)
                                                 | _ => false end)) n) /\
  (b ∈ routerConnections (router w') <-> b ∈ routerConnections (router w)) /\
  forwardedTo b (log w') = forwardedTo b (log w) ++ got.
Proof.
  induction ts as [|t ts IH]; intros n w; simpl.
  - rewrite lookup_insert_eq, !app_nil_r.
    destruct n as [? ? ? [? ? ?] ? ? ? ? ? ?]; simpl. now repeat split.
  - set (n1 := set_writeQueue (Chan.mk (Chan.buf (writeQueue n) ++ [rewrite body t])
                                       (Chan.cap (writeQueue n)) false) n).
    assert (Hw : peerSame b (forwarded b (rewrite body t) n (store_bridge b n w))
                   (store_bridge b n1 (record (Forwarded b (rewrite body t)) w))).
    { unfold peerSame, forwarded, store_bridge, record; simpl.
      rewrite insert_insert_eq. now repeat split. }
    pose proof (pushWorld_same body ts b n1 _ _ Hw) as (K1 & K2 & K3).
    destruct (IH n1 (record (Forwarded b (rewrite body t)) w)) as (I1 & I2 & I3).
    rewrite K1, K2, K3, I1, I2, I3. simpl. effects.
    rewrite <- !app_assoc. simpl.
    split; [|now split]. f_equal. unfold set_writeQueue; simpl.
    destruct ts; reflexivity.
Qed.

Section DispatchProperties.

Variable range : gset positive -> list positive.

(** Whatever the order, a [range] over a map visits every key once. *)
Hypothesis range_perm : forall s, range s ≡ₚ elements s.

Lemma range_NoDup s : NoDup (range s).
Proof. rewrite range_perm. apply NoDup_elements. Qed.

Lemma range_elem p s : p ∈ range s <-> p ∈ s.
Proof. rewrite range_perm. apply elem_of_elements. Qed.

(** [route] on an output list, when every peer queue has room for the whole
    list: it completes, and each target ends as if it had been served alone. *)
Lemma routeHeaders_room body : forall ts w,
  liveOpen w -> peersOpen w ->
  (forall b n, b ∈ routerConnections (router w) -> bridgeHeap w !! b = Some n ->
     length ts <= Chan.free (writeQueue n)) ->
  exists w',
    routeHeaders range body ts w = Done w' /\
    liveOpen w' /\ peersOpen w' /\
    routingTable (router w') = routingTable (router w) /\
    routerConnections (router w') = routerConnections (router w) /\
    (forall p, p ∉ subscriptions (router w) -> subSame p w' w) /\
    (forall p s, p ∈ subscriptions (router w) -> subHeap w !! p = Some s ->
       subSame p w' (feedWorld body ts p s w)) /\
    (forall b, b ∉ routerConnections (router w) -> peerSame b w' w) /\
    (forall b n, b ∈ routerConnections (router w) -> bridgeHeap w !! b = Some n ->
       peerSame b w' (pushWorld body ts b n w)).
Proof.
  induction ts as [|t ts IH]; intros w Hlive Hopen Hroom.
  - exists w. simpl. split; [reflexivity|]. split; [assumption|]. split; [assumption|].
    split; [reflexivity|]. split; [reflexivity|].
    split; [intros; apply subSame_refl|]. split; [intros; apply subSame_refl|].
    split; intros; apply peerSame_refl.
  - simpl.
    (* the subscriptions *)
    destruct (deliverAll_spec (rewrite body t) (range (subscriptions (router w))) w)
      as (w1 & Hrun1 & Hlive1 & Htab1 & Hconn1 & Hin1 & Hbh1 & Hpeer1 & Hout1 & Hvis1).
    { apply range_NoDup. } { intros p. apply range_elem. } { exact Hlive. }
    unfold rewrite in Hrun1. rewrite Hrun1.
    (* the router connections *)
    assert (Hopen1 : peersOpen w1).
    { intros b Hb. rewrite Hbh1. apply Hopen. now rewrite <- Hconn1. }
    destruct (forwardAll_spec (rewrite body t) (range (routerConnections (router w1))) w1)
      as (done & rest & w2 & Hsplit & Hend & Hopen2 & Hr2 & Hsh2 & Hsub2 & Hout2 & Hvis2).
    { apply range_NoDup. } { intros b. apply range_elem. } { exact Hopen1. }
    destruct Hend as [[-> Hrun2]|(b & n & Hhead & Hbn & Hfull & _)].
    2:{ exfalso. destruct rest as [|b' rest]; [discriminate|]. injection Hhead as ->.
        assert (Hb : b ∈ routerConnections (router w1)).
        { apply range_elem. rewrite Hsplit. apply elem_of_app. right. left. }
        assert (Hnd : b ∉ done).
        { pose proof (range_NoDup (routerConnections (router w1))) as Hnd.
          rewrite Hsplit in Hnd. apply NoDup_app in Hnd as (_ & Hdis & _).
          intros Hd. apply (Hdis b Hd). left. }
        destruct (Hout2 b Hnd) as (Hsame & _).
        rewrite Hbn, Hbh1 in Hsame. symmetry in Hsame.
        apply full_free in Hfull.
        specialize (Hroom b n). rewrite Hconn1 in Hb. specialize (Hroom Hb Hsame).
        simpl in Hroom. lia. }
    rewrite app_nil_r in Hsplit. subst done.
    unfold rewrite in Hrun2. rewrite Hrun2.
    (* the rest of the list *)
    assert (Hlive2 : liveOpen w2) by (now apply (subSame_liveOpen w1)).
    assert (Hconn2 : routerConnections (router w2) = routerConnections (router w))
      by congruence.
    assert (Hsubs2 : subscriptions (router w2) = subscriptions (router w1))
      by congruence.
    assert (Hpush : forall b n, b ∈ routerConnections (router w) ->
              bridgeHeap w !! b = Some n ->
              peerSame b w2 (forwarded b (rewrite body t) n w)).
    { intros b n Hb Hn. eapply peerSame_trans.
      - apply (Hvis2 b n); [apply range_elem; congruence|congruence].
      - apply forwarded_same. apply Hpeer1. }
    destruct (IH w2 Hlive2 Hopen2) as (w' & Hrun & Hlive' & Hopen' & Htab & Hconn
                                        & Hsout & Hsin & Hpout & Hpin).
    { intros b n2 Hb Hn2. rewrite Hconn2 in Hb.
      destruct (Hopen b Hb) as (n & Hn & _).
      destruct (Hpush b n Hb Hn) as (Hheap & _).
      unfold forwarded in Hheap; simpl in Hheap. rewrite lookup_insert_eq, Hn2 in Hheap.
      injection Hheap as ->. simpl. rewrite free_enqueue.
      specialize (Hroom b n Hb Hn). simpl in Hroom. lia. }
    exists w'. split; [exact Hrun|]. split; [exact Hlive'|]. split; [exact Hopen'|].
    split; [congruence|]. split; [congruence|].
    split; [|split; [|split]].
    + intros p Hp. assert (Hp1 : subSame p w1 w).
      { apply Hout1. now rewrite range_elem. }
      eapply subSame_trans; [|exact Hp1].
      eapply subSame_trans; [|apply Hsub2].
      apply Hsout. rewrite Hsubs2. destruct Hp1 as (_ & Hmem & _). tauto.
    + intros p s Hp Hs.
      pose proof (Hvis1 p s (proj2 (range_elem _ _) Hp) Hs) as Hstep.
      assert (Hstep2 : subSame p w2
                (if Chan.full (send s) then dropped p s w
                 else enqueued p (rewrite body t) s w)).
      { eapply subSame_trans; [apply Hsub2|exact Hstep]. }
      destruct (Chan.full (send s)) eqn:Hfull.
      * eapply subSame_trans; [|exact Hstep2].
        apply Hsout. destruct Hstep2 as (_ & Hmem & _). rewrite Hmem.
        unfold dropped; simpl. set_solver.
      * set (s1 := mkSubscription (Chan.mk (Chan.buf (send s) ++ [rewrite body t])
                                            (Chan.cap (send s)) false)).
        eapply subSame_trans; [|apply feedWorld_same; exact Hstep2].
        apply Hsin.
        -- destruct Hstep2 as (_ & Hmem & _). rewrite Hmem.
           unfold enqueued; simpl. exact Hp.
        -- destruct Hstep2 as (Hheap & _). rewrite Hheap.
           unfold enqueued; simpl. now rewrite lookup_insert_eq.
    + intros b Hb. eapply peerSame_trans; [apply Hpout; congruence|].
      eapply peerSame_trans; [|apply Hpeer1].
      apply Hout2. rewrite range_elem. congruence.
    + intros b n Hb Hn.
      eapply peerSame_trans; [|apply pushWorld_same; exact (Hpush b n Hb Hn)].
      apply Hpin; [congruence|].
      destruct (Hpush b n Hb Hn) as (Hheap & _). rewrite Hheap.
      unfold forwarded; simpl. now rewrite lookup_insert_eq.
Qed.


(** *** Any outcome: finished or parked *)

Lemma subStep_refl p w : subStep p w w.
Proof. left. apply subSame_refl. Qed.

Lemma subStep_same_l p w w1 w2 : subStep p w w1 -> subSame p w2 w1 -> subStep p w w2.
Proof.
  intros [Hs|[(H1 & H2 & H3 & H4)|(H1 & H2 & H0 & H3 & H4)]] (K1 & K2 & K3 & K4 & K5).
  - left. eapply subSame_trans; [|exact Hs]. unfold subSame; tauto.
  - right; left. repeat split; try tauto; congruence.
  - right; right. repeat split; try tauto; congruence.
Qed.

Lemma subStep_same_r p w w1 w2 : subSame p w1 w -> subStep p w1 w2 -> subStep p w w2.
Proof.
  intros (K1 & K2 & K3 & K4 & K5) [Hs|[(H1 & H2 & H3 & H4)|(H1 & H2 & H0 & H3 & H4)]].
  - left. eapply subSame_trans; [exact Hs|]. unfold subSame; tauto.
  - right; left. repeat split; try tauto; congruence.
  - right; right. repeat split; try tauto; congruence.
Qed.

Lemma subStep_trans p w w1 w2 : subStep p w w1 -> subStep p w1 w2 -> subStep p w w2.
Proof.
  intros [Hs|[(H1 & H2 & H3 & H4)|(H1 & H2 & H0 & H3 & H4)]] H12.
  - eapply subStep_same_r; [exact Hs|exact H12].
  - destruct H12 as [(K1 & K2 & K3 & K4 & K5)|[(K1 & K2 & K3 & K4)|(K1 & K2 & K0 & K3 & K4)]].
    + right; left. repeat split; try tauto; congruence.
    + right; left. repeat split; try tauto; congruence.
    + right; right. repeat split; try tauto; congruence.
  - destruct H12 as [(K1 & K2 & K3 & K4 & K5)|[(K1 & K2 & K3 & K4)|(K1 & K2 & K0 & K3 & K4)]].
    + right; right. repeat split; try tauto; congruence.
    + contradiction.
    + contradiction.
Qed.

Lemma enqueued_subStep p msg s w :
  p ∈ subscriptions (router w) -> subStep p w (enqueued p msg s w).
Proof.
  intros Hp. right; left. unfold enqueued; simpl. effects. now repeat split.
Qed.

Lemma dropped_subStep p s w :
  p ∈ subscriptions (router w) -> subStep p w (dropped p s w).
Proof.
  intros Hp. right; right. unfold dropped; simpl. effects.
  rewrite lookup_insert_eq.
  repeat split; try assumption; try lia; [set_solver|eauto].
Qed.

(** The loop over the subscriptions, for the invariant: a step for each. *)
Lemma deliverAll_subStep msg l w w' :
  NoDup l ->
  (forall p, p ∈ l -> p ∈ subscriptions (router w)) ->
  liveOpen w ->
  deliverAll msg l w = Done w' ->
  forall p, subStep p w w'.
Proof.
  intros Hnd Hin Hlive Hrun p.
  destruct (deliverAll_spec msg l w Hnd Hin Hlive)
    as (w1 & Hrun1 & _ & _ & _ & _ & _ & _ & Hout & Hvis).
  rewrite Hrun in Hrun1. injection Hrun1 as <-.
  destruct (decide (p ∈ l)) as [Hp|Hp].
  - destruct (Hlive p (Hin p Hp)) as (s & Hs & _).
    eapply subStep_same_l; [|apply (Hvis p s Hp Hs)].
    destruct (Chan.full (send s));
      [apply dropped_subStep | apply enqueued_subStep]; now apply Hin.
  - left. now apply Hout.
Qed.

Lemma routeHeaders_cons body t ts w :
  routeHeaders range body (t :: ts) w
  = match deliverAll (rewrite body t) (range (subscriptions (router w))) w with
    | Done w1 => resume range (mkCont body t (range (routerConnections (router w1))) ts) w1
    | other => other
    end.
Proof. reflexivity. Qed.

Lemma pending_split b msg (done rest : list positive) (l : list Message) :
  NoDup (done ++ rest) ->
  (if decide (b ∈ done) then [msg] else []) ++ (if decide (b ∈ rest) then [msg] else []) ++ l
  = (if decide (b ∈ done ++ rest) then [msg] else []) ++ l.
Proof.
  intros Hnd. apply NoDup_app in Hnd as (_ & Hdis & _).
  destruct (decide (b ∈ done)) as [Hd|Hd], (decide (b ∈ rest)) as [Hr|Hr].
  - now elim (Hdis b Hd).
  - rewrite decide_True by (apply elem_of_app; now left). reflexivity.
  - rewrite decide_True by (apply elem_of_app; now right). reflexivity.
  - rewrite decide_False; [reflexivity|]. rewrite elem_of_app. tauto.
Qed.

(** A parked [route] that goes on is sound as soon as [route] is on the
    headers left. *)
Lemma resume_sound body ts :
  (forall w, liveOpen w -> peersOpen w ->
     sound w (fun _ => map (rewrite body) ts) (routeHeaders range body ts w)) ->
  forall k w,
    kBody k = body -> kRest k = ts -> contOK k w -> liveOpen w -> peersOpen w ->
    sound w (pending k) (resume range k w).
Proof.
  intros Hrest [body' t peers ts'] w Hbody Hts [Hnd Hin] Hlive Hopen.
  simpl in Hbody, Hts, Hnd, Hin. subst body' ts'.
  destruct (forwardAll_spec (rewrite body t) peers w Hnd Hin Hopen)
    as (done & rest & w2 & Hsplit & Hend & Hopen2 & Hr2 & Hsh2 & Hsub2 & Hout2 & Hvis2).
  assert (Hfw : forall b, b ∈ routerConnections (router w) ->
            forwardedTo b (log w2)
            = forwardedTo b (log w) ++ (if decide (b ∈ done) then [rewrite body t] else [])).
  { intros b Hb. destruct (decide (b ∈ done)) as [Hd|Hd].
    - destruct (Hopen b Hb) as (n & Hn & _).
      destruct (Hvis2 b n Hd Hn) as (_ & _ & ->). unfold forwarded; simpl.
      effects. reflexivity.
    - destruct (Hout2 b Hd) as (_ & _ & ->). now rewrite app_nil_r. }
  assert (Hlive2 : liveOpen w2) by (now apply (subSame_liveOpen w)).
  unfold resume; simpl. unfold rewrite in *.
  destruct Hend as [[-> Hrun2]|(b0 & n0 & Hhead & Hbn & Hfull & Hrun2)].
  - rewrite app_nil_r in Hsplit. subst done. rewrite Hrun2.
    destruct (Hrest w2 Hlive2 Hopen2)
      as (w' & Hfin & Hlive' & Hopen' & Htab & Hconn & Hin' & Hk & Hstep & Hdue & Hnot).
    exists w'. split; [exact Hfin|]. split; [exact Hlive'|]. split; [exact Hopen'|].
    split; [congruence|]. split; [congruence|]. split; [congruence|].
    split; [exact Hk|]. split; [|split].
    + intros p. eapply subStep_same_r; [apply Hsub2|apply Hstep].
    + intros b Hb. rewrite Hdue by congruence. rewrite (Hfw b Hb).
      unfold pending; simpl. unfold rewrite. now rewrite <- app_assoc.
    + intros b Hb. rewrite Hnot by congruence.
      destruct (Hout2 b) as (_ & _ & ->); [|reflexivity].
      intros Hd. apply Hb, Hin. exact Hd.
  - rewrite Hrun2. exists w2. split; [reflexivity|]. split; [exact Hlive2|].
    split; [exact Hopen2|]. split; [congruence|]. split; [congruence|].
    split; [congruence|]. split; [|split; [|split]].
    + split; simpl.
      * rewrite Hsplit in Hnd. now apply NoDup_app in Hnd as (_ & _ & Hnd).
      * intros b Hb. rewrite Hr2. apply Hin. rewrite Hsplit. apply elem_of_app. now right.
    + intros p. left. apply Hsub2.
    + intros b Hb. rewrite (Hfw b Hb). unfold owed, pending; simpl.
      rewrite <- app_assoc. f_equal. unfold rewrite.
      rewrite Hsplit. apply pending_split. now rewrite <- Hsplit.
    + intros b Hb. destruct (Hout2 b) as (_ & _ & ->); [|reflexivity].
      intros Hd. apply Hb, Hin. rewrite Hsplit. apply elem_of_app. now left.
Qed.

(** [route] on an output list is sound, whatever the queues hold. *)
Lemma routeHeaders_sound body : forall ts w,
  liveOpen w -> peersOpen w ->
  sound w (fun _ => map (rewrite body) ts) (routeHeaders range body ts w).
Proof.
  induction ts as [|t ts IH]; intros w Hlive Hopen.
  - exists w. simpl. split; [reflexivity|]. split; [assumption|]. split; [assumption|].
    split; [reflexivity|]. split; [reflexivity|]. split; [reflexivity|].
    split; [exact I|]. split; [intros p; apply subStep_refl|].
    split; intros b _; [now rewrite !app_nil_r|reflexivity].
  - rewrite routeHeaders_cons.
    destruct (deliverAll_spec (rewrite body t) (range (subscriptions (router w))) w)
      as (w1 & Hrun1 & Hlive1 & Htab1 & Hconn1 & Hin1 & Hbh1 & Hpeer1 & Hout1 & Hvis1).
    { apply range_NoDup. } { intros p. apply range_elem. } { exact Hlive. }
    rewrite Hrun1.
    assert (Hopen1 : peersOpen w1).
    { intros b Hb. rewrite Hbh1. apply Hopen. now rewrite <- Hconn1. }
    destruct (resume_sound body ts IH
                (mkCont body t (range (routerConnections (router w1))) ts) w1)
      as (w' & Hfin & Hlive' & Hopen' & Htab & Hconn & Hin' & Hk & Hstep & Hdue & Hnot);
      try reflexivity; try assumption.
    { split; simpl; [apply range_NoDup|intros b; apply range_elem]. }
    exists w'. split; [exact Hfin|]. split; [exact Hlive'|]. split; [exact Hopen'|].
    split; [congruence|]. split; [congruence|]. split; [congruence|].
    split; [exact Hk|]. split; [|split].
    + intros p. eapply subStep_trans; [|apply Hstep].
      apply (deliverAll_subStep _ _ _ _ (range_NoDup _)
               (fun p => proj1 (range_elem p _)) Hlive Hrun1).
    + intros b Hb. rewrite Hdue by congruence.
      destruct (Hpeer1 b) as (_ & _ & ->). f_equal.
      unfold pending; simpl. rewrite decide_True; [reflexivity|].
      apply range_elem. congruence.
    + intros b Hb. rewrite Hnot by congruence. now destruct (Hpeer1 b) as (_ & _ & ->).
Qed.

(** ** The invariant of the loop *)

Lemma logOK_step w w' : logOK w -> (forall p, subStep p w w') -> logOK w'.
Proof.
  intros Hlog Hstep p. destruct (Hlog p) as (Heq & Hle & Hin & Hnone).
  destruct (Hstep p) as [(H1 & H2 & H3 & H4 & H5)
                        |[(H1 & H2 & H3 & H4)|(H1 & H2 & H0 & H3 & H4)]].
  - rewrite H1, H2, H4, H5. tauto.
  - rewrite H3, H4. specialize (Hin H1). repeat split; try lia; intros; lia.
  - rewrite H3, H4. specialize (Hin H1). repeat split; try lia.
    + intros Hp. contradiction.
    + intros Hp. rewrite Hp in H0. now destruct H0.
Qed.

Lemma unregister_spec q w :
  liveOpen w ->
  exists w', unregister q w = Done w' /\
    liveOpen w' /\
    bridgeHeap w' = bridgeHeap w /\
    routingTable (router w') = routingTable (router w) /\
    routerConnections (router w') = routerConnections (router w) /\
    inChan (router w') = inChan (router w) /\
    (forall p, subStep p w w') /\
    (q ∉ subscriptions (router w) -> w' = w).
Proof.
  intros Hlive. unfold unregister.
  destruct (decide (q ∈ subscriptions (router w))) as [Hq|Hq].
  2:{ exists w. split; [reflexivity|]. split; [assumption|].
      repeat split; try reflexivity. intros p. apply subStep_refl. }
  destruct (Hlive q Hq) as (s & Hs & Hopen). simpl. rewrite Hs.
  unfold Chan.close. rewrite Hopen.
  eexists. split; [reflexivity|]. split; [|split; [reflexivity|]].
  - intros p Hp. simpl in *. apply elem_of_difference in Hp as [Hp Hne].
    rewrite lookup_insert_ne by set_solver. now apply Hlive.
  - split; [reflexivity|]. split; [reflexivity|]. split; [reflexivity|].
    split; [|intros Hnq; contradiction].
    intros p. destruct (decide (p = q)) as [->|Hne].
    + right; right. simpl. effects. rewrite lookup_insert_eq.
      repeat split; try assumption; try lia; [set_solver|eauto].
    + left. unfold subSame; simpl. rewrite lookup_insert_ne by congruence. effects.
      repeat split; try reflexivity; set_solver.
Qed.

Lemma register_spec w :
  liveOpen w -> logOK w ->
  liveOpen (register w) /\ logOK (register w) /\
  bridgeHeap (register w) = bridgeHeap w /\
  routerConnections (router (register w)) = routerConnections (router w) /\
  inChan (router (register w)) = inChan (router w).
Proof.
  intros Hlive Hlog. unfold register.
  set (p0 := fresh (dom (subHeap w))).
  assert (Hfresh : subHeap w !! p0 = None).
  { apply not_elem_of_dom. apply is_fresh. }
  split; [|split; [|now repeat split]].
  - intros p Hp. simpl in *. destruct (decide (p = p0)) as [->|Hne].
    + rewrite lookup_insert_eq. eauto.
    + rewrite lookup_insert_ne by congruence. apply Hlive. set_solver.
  - intros p. destruct (Hlog p) as (Heq & Hle & Hin & Hnone). simpl.
    repeat split; try assumption.
    + intros Hp. apply elem_of_union in Hp as [Hp|Hp]; [|now apply Hin].
      apply elem_of_singleton in Hp as ->. now apply Hnone.
    + intros Hp. apply Hnone. destruct (decide (p = p0)) as [->|Hne]; [assumption|].
      now rewrite lookup_insert_ne in Hp by congruence.
Qed.

Lemma StartBridge_queue net addr fs r bridge err :
  StartBridge net addr fs r = Done (Some bridge, err) ->
  writeQueue (node (BNode bridge)) = Chan.make 4096.
Proof.
  unfold StartBridge.
  destruct (ConnectToRouter net addr (mkNodeSt (NewNode addr fs) 0 []))
    as [[st e]| |] eqn:Hrun; try discriminate.
  intros [= <- _]. simpl.
  now destruct (ConnectToRouter_keeps _ _ _ _ _ Hrun) as (_ & _ & -> & _).
Qed.

Lemma connectPeer_spec net addr tbl w :
  peersOpen w ->
  peersOpen (connectPeer net addr tbl w) /\
  subHeap (connectPeer net addr tbl w) = subHeap w /\
  subscriptions (router (connectPeer net addr tbl w)) = subscriptions (router w) /\
  inChan (router (connectPeer net addr tbl w)) = inChan (router w) /\
  log (connectPeer net addr tbl w) = log w.
Proof.
  intros Hopen. unfold connectPeer.
  destruct (StartBridge net addr (elements (dom tbl)) 1) as [[[bridge|] [e|]]| |] eqn:Hrun;
    try (now repeat split).
  split; [|now repeat split].
  set (b0 := fresh (dom (bridgeHeap w))).
  assert (Hfresh : bridgeHeap w !! b0 = None).
  { apply not_elem_of_dom. apply is_fresh. }
  intros b Hb. simpl in *. destruct (decide (b = b0)) as [->|Hne].
  - rewrite lookup_insert_eq. eexists; split; [reflexivity|].
    now rewrite (StartBridge_queue _ _ _ _ _ _ Hrun).
  - rewrite lookup_insert_ne by congruence. apply Hopen. set_solver.
Qed.

Lemma subStep_closes p w w' : subStep p w w' -> closes p (log w) <= closes p (log w').
Proof.
  intros [(_ & _ & _ & H & _)|[(_ & _ & H & _)|(_ & _ & _ & H & _)]]; lia.
Qed.

(** What a finished or parked [route] leaves is a state of the system that
    satisfies the invariant. *)
Lemma after_route_Inv w due o :
  logOK w -> Chan.closed (inChan (router w)) = false -> sound w due o ->
  exists s', after_route o = Stepped s' /\ Inv s' /\
    final o = Some (world s') /\
    (forall p, subStep p w (world s')).
Proof.
  intros Hlog Hin (w' & Hfin & Hlive' & Hopen' & Htab & Hconn & Hin' & Hk & Hstep & _).
  assert (Hlog' : logOK w') by (now apply (logOK_step w)).
  destruct o as [w1|w1 k|f]; simpl in *; try discriminate; injection Hfin as ->.
  - eexists; split; [reflexivity|]. unfold Inv; simpl.
    split; [|split; [reflexivity|assumption]].
    split; [assumption|]. split; [assumption|]. split; [assumption|].
    split; [congruence|exact I].
  - eexists; split; [reflexivity|]. unfold Inv; simpl.
    split; [|split; [reflexivity|assumption]].
    split; [assumption|]. split; [assumption|]. split; [assumption|].
    split; [congruence|exact Hk].
Qed.

Lemma route_sound (m : Message) (w : World) :
  liveOpen w -> peersOpen w ->
  sound w (fun _ => match routingTable (router w) !! Header m with
                    | Some ts => map (rewrite (Body m)) ts
                    | None => []
                    end)
        (route range m w).
Proof.
  intros Hlive Hopen. unfold route.
  destruct (routingTable (router w) !! Header m) as [ts|].
  - now apply routeHeaders_sound.
  - exists w. simpl. split; [reflexivity|]. split; [assumption|]. split; [assumption|].
    split; [reflexivity|]. split; [reflexivity|]. split; [reflexivity|].
    split; [exact I|]. split; [intros p; apply subStep_refl|].
    split; intros b _; [now rewrite !app_nil_r|reflexivity].
Qed.

Ltac inv_parts :=
  unfold Inv; simpl; split; [|split; [|split; [|split]]].

(** Every step keeps the invariant, none panics, and no close is ever
    taken back. *)
Lemma loop_step_Inv ev s :
  Inv s ->
  match loop_step range ev s with
  | Stepped s' => Inv s' /\ forall p, closes p (log (world s)) <= closes p (log (world s'))
  | Disabled => True
  | Crashed _ => False
  end.
Proof.
  intros (Hlive & Hopen & Hlog & Hin & Hk).
  destruct s as [w lp]; simpl in *. unfold loop_step; simpl.
  destruct ev as [|q|m| | |q|b|net addr].
  - (* Listen *)
    destruct lp; [|exact I].
    destruct (register_spec w Hlive Hlog) as (Hl & Hg & Hbh & Hconn & Hinc).
    split; [|intros p; unfold register; simpl; lia].
    inv_parts; assumption.
  - (* Unregister *)
    destruct lp; [|exact I].
    destruct (unregister_spec q w Hlive)
      as (w' & -> & Hl & Hbh & Htab & Hconn & Hinc & Hstep & _).
    split; [|intros p; now apply subStep_closes].
    inv_parts; try assumption; [|now apply (logOK_step w)|congruence].
    intros b Hb. rewrite Hbh. apply Hopen. congruence.
  - (* Publish *)
    unfold Chan.send. rewrite Hin.
    destruct (Chan.full (inChan (router w))); [exact I|].
    split; [|intros p; simpl; lia].
    inv_parts; try assumption; reflexivity.
  - (* Dispatch *)
    destruct lp; [|exact I].
    unfold Chan.recv.
    destruct (Chan.buf (inChan (router w))) as [|m rest] eqn:Hbuf.
    { rewrite Hin. exact I. }
    set (w0 := on_router _ w).
    pose proof (route_sound m w0 Hlive Hopen) as Hsound.
    destruct (after_route_Inv w0 _ _ Hlog Hin Hsound) as (s' & -> & HInv & _ & Hstep).
    split; [exact HInv|]. intros p. apply (subStep_closes p w0). apply Hstep.
  - (* Resume *)
    destruct lp as [|k]; [exact I|].
    assert (Hsound : sound w (pending k) (resume range k w)).
    { apply (resume_sound (kBody k) (kRest k)); try reflexivity; try assumption.
      intros v Hv1 Hv2. now apply routeHeaders_sound. }
    destruct (after_route_Inv w _ _ Hlog Hin Hsound) as (s' & -> & HInv & _ & Hstep).
    split; [exact HInv|]. intros p. now apply subStep_closes.
  - (* SubDrain *)
    destruct (subHeap w !! q) as [sb|] eqn:Hsb; [|exact I].
    unfold Subscription_writePump_recv, Chan.recv.
    destruct (Chan.buf (send sb)) as [|m rest] eqn:Hbuf.
    { destruct (Chan.closed (send sb)); exact I. }
    split; [|intros p; simpl; lia].
    inv_parts; try assumption.
    + intros p Hp. simpl in *. destruct (decide (p = q)) as [->|Hne].
      * rewrite lookup_insert_eq. eexists; split; [reflexivity|]. simpl.
        destruct (Hlive q Hp) as (s0 & Hs0 & Hc0). congruence.
      * rewrite lookup_insert_ne by congruence. now apply Hlive.
    + intros p. destruct (Hlog p) as (H1 & H2 & H3 & H4). simpl.
      split; [assumption|]. split; [assumption|]. split; [assumption|].
      intros Hnone. apply H4. destruct (decide (p = q)) as [->|Hne].
      * now rewrite lookup_insert_eq in Hnone.
      * now rewrite lookup_insert_ne in Hnone by congruence.
  - (* PeerDrain *)
    destruct (bridgeHeap w !! b) as [n|] eqn:Hn; [|exact I].
    unfold writePump_recv, Chan.recv.
    destruct (Chan.buf (writeQueue n)) as [|m rest] eqn:Hbuf.
    { destruct (Chan.closed (writeQueue n)); exact I. }
    split; [|intros p; simpl; lia].
    inv_parts; try assumption.
    + intros c Hc. simpl in *. destruct (decide (c = b)) as [->|Hne].
      * rewrite lookup_insert_eq. eexists; split; [reflexivity|]. simpl.
        destruct (Hopen b Hc) as (n0 & Hn0 & Hc0). congruence.
      * rewrite lookup_insert_ne by congruence. now apply Hopen.
  - (* ConnectPeer *)
    destruct lp; [|exact I].
    destruct (connectPeer_spec net addr (routingTable (router w)) w Hopen)
      as (Ho & Hsh & Hsubs & Hinc & Hlg).
    split; [|intros p; simpl; rewrite Hlg; lia].
    inv_parts; try assumption; [| |congruence].
    + intros p Hp. rewrite Hsh. apply Hlive. congruence.
    + intros p. rewrite Hlg, Hsubs, Hsh. apply Hlog.
Qed.

Lemma initial_Inv tbl : Inv (initial tbl).
Proof.
  unfold Inv, initial; simpl. split; [|split; [|split; [|split]]]; try reflexivity.
  - intros p Hp. simpl in Hp. set_solver.
  - intros b Hb. simpl in Hb. set_solver.
  - intros p. simpl. unfold closes, deletes; simpl.
    split; [reflexivity|]. split; [lia|]. split; intros _; reflexivity.
Qed.

Lemma reachable_Inv tbl s : reachable range tbl s -> Inv s.
Proof.
  induction 1 as [|ev s s' _ IH Hstep]; [apply initial_Inv|].
  pose proof (loop_step_Inv ev s IH) as Hs. rewrite Hstep in Hs. apply Hs.
Qed.

Lemma steps_Inv s s' :
  Inv s -> steps range s s' ->
  Inv s' /\ forall p, closes p (log (world s)) <= closes p (log (world s')).
Proof.
  intros HInv Hsteps. induction Hsteps as [s|ev s s' s'' _ IH Hstep].
  - split; [assumption|]. intros p. lia.
  - destruct (IH HInv) as [HInv' Hmono].
    pose proof (loop_step_Inv ev s' HInv') as Hs. rewrite Hstep in Hs.
    destruct Hs as [HInv'' Hmono']. split; [assumption|].
    intros p. specialize (Hmono p). specialize (Hmono' p). lia.
Qed.

(** No step of a state that satisfies the invariant panics. *)
Lemma Inv_no_fault s ev f : Inv s -> loop_step range ev s <> Crashed f.
Proof.
  intros HInv Hcrash. pose proof (loop_step_Inv ev s HInv) as Hs.
  now rewrite Hcrash in Hs.
Qed.

(** A subscription whose queue is full when [route] has an output to send is
    dropped, in whatever way [route] then stops. *)
Lemma route_drops_full m ts w p s :
  routingTable (router w) !! Header m = Some ts -> ts <> [] ->
  liveOpen w -> peersOpen w ->
  p ∈ subscriptions (router w) -> subHeap w !! p = Some s ->
  Chan.full (send s) = true ->
  exists w', final (route range m w) = Some w' /\ subSame p w' (dropped p s w).
Proof.
  intros Htab Hne Hlive Hopen Hp Hs Hfull.
  unfold route. rewrite Htab. destruct ts as [|t ts]; [congruence|].
  rewrite routeHeaders_cons.
  destruct (deliverAll_spec (rewrite (Body m) t) (range (subscriptions (router w))) w)
    as (w1 & Hrun1 & Hlive1 & Htab1 & Hconn1 & Hin1 & Hbh1 & Hpeer1 & Hout1 & Hvis1).
  { apply range_NoDup. } { intros x. apply range_elem. } { exact Hlive. }
  rewrite Hrun1.
  assert (Hopen1 : peersOpen w1).
  { intros b Hb. rewrite Hbh1. apply Hopen. now rewrite <- Hconn1. }
  pose proof (Hvis1 p s (proj2 (range_elem _ _) Hp) Hs) as Hdrop.
  rewrite Hfull in Hdrop.
  destruct (resume_sound (Body m) ts (routeHeaders_sound (Body m) ts)
              (mkCont (Body m) t (range (routerConnections (router w1))) ts) w1)
    as (w' & Hfin & _ & _ & _ & _ & _ & _ & Hstep & _);
    try reflexivity; try assumption.
  { split; simpl; [apply range_NoDup|intros b; apply range_elem]. }
  exists w'. split; [exact Hfin|].
  assert (Hgone : p ∉ subscriptions (router w1)).
  { destruct Hdrop as (_ & Hmem & _). rewrite Hmem. unfold dropped; simpl. set_solver. }
  destruct (Hstep p) as [Hsame|[(Hin & _)|(Hin & _)]]; try contradiction.
  eapply subSame_trans; [exact Hsame|exact Hdrop].
Qed.

(** ** Slow subscribers *)

(** C2: when the loop dispatches a message that has an output and finds the
    queue of a subscription full, that subscription leaves the set and its
    queue is closed, once each, inside that dispatch step and without a
    message for it. From then on, whatever happens, the counts stay at one,
    the subscription stays out, an unregister request for it changes nothing,
    and no step panics. The states the system reaches from its start all
    satisfy the invariant assumed here, so none of their steps panics: the
    close of a closed queue cannot happen. *)
Theorem full_queue_closed_once sys p s m q ts :
  Inv sys ->
  loop sys = Selecting ->
  Chan.recv (inChan (router (world sys))) = Chan.RecvOk m q ->
  routingTable (router (world sys)) !! Header m = Some ts -> ts <> [] ->
  p ∈ subscriptions (router (world sys)) ->
  subHeap (world sys) !! p = Some s ->
  Chan.full (send s) = true ->
  (exists sys',
     loop_step range Dispatch sys = Stepped sys' /\
     (p ∉ subscriptions (router (world sys'))) /\
     subHeap (world sys') !! p
       = Some (mkSubscription (Chan.mk (Chan.buf (send s)) (Chan.cap (send s)) true)) /\
     sentTo p (log (world sys')) = sentTo p (log (world sys)) /\
     closes p (log (world sys)) = 0 /\ deletes p (log (world sys)) = 0 /\
     closes p (log (world sys')) = 1 /\ deletes p (log (world sys')) = 1 /\
     forall sys'', steps range sys' sys'' ->
       closes p (log (world sys'')) = 1 /\ deletes p (log (world sys'')) = 1 /\
       (p ∉ subscriptions (router (world sys''))) /\
       (forall ev f, loop_step range ev sys'' <> Crashed f) /\
       (loop sys'' = Selecting -> loop_step range (Unregister p) sys'' = Stepped sys'')) /\
  (forall tbl s0, reachable range tbl s0 ->
     Inv s0 /\ forall ev f, loop_step range ev s0 <> Crashed f).
Proof.
  intros HInv Hloop Hrecv Htab Hne Hp Hs Hfull.
  split.
  2:{ intros tbl s0 Hreach. pose proof (reachable_Inv tbl s0 Hreach) as H0.
      split; [exact H0|]. intros ev f. now apply Inv_no_fault. }
  destruct HInv as (Hlive & Hopen & Hlog & Hin & _).
  destruct sys as [w lp]; simpl in *. subst lp.
  set (w0 := on_router (set_inChan q) w).
  destruct (route_drops_full m ts w0 p s) as (w' & Hfin & Hdrop); try assumption.
  pose proof (route_sound m w0 Hlive Hopen) as Hsound.
  assert (Hin0 : Chan.closed (inChan (router w0)) = false).
  { unfold Chan.recv in Hrecv. destruct (Chan.buf (inChan (router w))).
    - destruct (Chan.closed (inChan (router w))); discriminate.
    - injection Hrecv as _ <-. exact Hin. }
  destruct (after_route_Inv w0 _ _ Hlog Hin0 Hsound) as (sys' & Hstep & HInv' & Hfin' & _).
  rewrite Hfin in Hfin'. injection Hfin' as Hw'.
  destruct (Hlog p) as (Heq & Hle & Hzero & _). specialize (Hzero Hp).
  destruct Hdrop as (Hheap & Hmem & Hsent & Hcl & Hdel).
  unfold dropped in Hheap, Hmem, Hsent, Hcl, Hdel; simpl in Hheap, Hmem, Hsent, Hcl, Hdel.
  rewrite lookup_insert_eq in Hheap.
  revert Hsent Hcl Hdel. effects. intros Hsent Hcl Hdel.
  exists sys'. unfold loop_step; simpl. rewrite Hrecv. fold w0.
  split; [exact Hstep|]. rewrite <- Hw'.
  split; [rewrite Hmem; set_solver|]. split; [exact Hheap|]. split; [exact Hsent|].
  split; [exact Hzero|]. split; [lia|]. split; [lia|]. split; [lia|].
  intros sys'' Hsteps.
  destruct (steps_Inv sys' sys'' HInv' Hsteps) as [HInv'' Hmono].
  specialize (Hmono p). rewrite <- Hw' in Hmono.
  destruct HInv'' as (Hlive'' & Hopen'' & Hlog'' & Hin'' & Hk'').
  destruct (Hlog'' p) as (Heq'' & Hle'' & Hzero'' & _).
  assert (Hone : closes p (log (world sys'')) = 1) by lia.
  assert (Hout : p ∉ subscriptions (router (world sys''))).
  { intros Hp''. apply Hzero'' in Hp''. lia. }
  split; [exact Hone|]. split; [lia|]. split; [exact Hout|]. split.
  - intros ev f. apply Inv_no_fault. unfold Inv. tauto.
  - intros Hsel. destruct sys'' as [w'' lp'']; simpl in *. subst lp''.
    unfold loop_step, unregister; simpl. now rewrite decide_False.
Qed.

(** ** Peers: backpressure instead of eviction *)

Lemma after_route_debt w due o s' :
  sound w due o -> after_route o = Stepped s' ->
  routerConnections (router (world s')) = routerConnections (router w) /\
  forall b, b ∈ routerConnections (router w) ->
    forwardedTo b (log (world s')) ++ debt s' b = forwardedTo b (log w) ++ due b.
Proof.
  intros (w' & Hfin & _ & _ & _ & Hconn & _ & _ & _ & Hdue & _) Hafter.
  destruct o as [w1|w1 k|f]; simpl in *; try discriminate;
    injection Hfin as ->; injection Hafter as <-; simpl; split; assumption.
Qed.

(** While [route] is parked, every step keeps the router connections and
    what each was due: forwarded so far plus still owed. *)
Lemma parked_step_debt ev k s s' :
  Inv s -> loop s = Parked k -> loop_step range ev s = Stepped s' ->
  routerConnections (router (world s')) = routerConnections (router (world s)) /\
  forall b, b ∈ routerConnections (router (world s)) ->
    forwardedTo b (log (world s')) ++ debt s' b
    = forwardedTo b (log (world s)) ++ debt s b.
Proof.
  intros (Hlive & Hopen & Hlog & Hin & Hk) Hloop.
  destruct s as [w lp]; simpl in *. subst lp. unfold loop_step, debt; simpl.
  destruct ev as [|q|m| | |q|b0|net addr]; try discriminate.
  - destruct (Chan.send (inChan (router w)) m); try discriminate.
    intros [= <-]. simpl. now split.
  - intros Hafter.
    apply (after_route_debt w (pending k) (resume range k w) s'); [|exact Hafter].
    apply (resume_sound (kBody k) (kRest k)); try reflexivity; try assumption.
    intros v Hv1 Hv2. now apply routeHeaders_sound.
  - destruct (subHeap w !! q) as [sb|]; [|discriminate].
    destruct (Subscription_writePump_recv sb) as [[x sb']|]; [|discriminate].
    intros [= <-]. simpl. now split.
  - destruct (bridgeHeap w !! b0) as [n|]; [|discriminate].
    destruct (writePump_recv n) as [n'|]; [|discriminate].
    intros [= <-]. simpl. now split.
Qed.

Lemma completes_debt s s' :
  Inv s -> completes range s s' ->
  loop s' = Selecting /\
  routerConnections (router (world s')) = routerConnections (router (world s)) /\
  forall b, b ∈ routerConnections (router (world s)) ->
    forwardedTo b (log (world s')) = forwardedTo b (log (world s)) ++ debt s b.
Proof.
  intros HInv Hrun. induction Hrun as [s Hsel|ev k s s' s'' Hpark Hstep _ IH].
  - split; [exact Hsel|]. split; [reflexivity|].
    intros b _. unfold debt. rewrite Hsel. now rewrite app_nil_r.
  - pose proof (loop_step_Inv ev s HInv) as HInv'. rewrite Hstep in HInv'.
    destruct HInv' as [HInv' _].
    destruct (parked_step_debt ev k s s' HInv Hpark Hstep) as [Hconn Hdebt].
    destruct (IH HInv') as (Hsel & Hconn' & Hfw).
    split; [exact Hsel|]. split; [congruence|].
    intros b Hb. rewrite Hfw by congruence. now apply Hdebt.
Qed.

(** A parked [route] whose bridge has room again: the message it held is
    queued there, and [route] goes on with the bridges left. *)
Lemma resume_head_room body header b rest hs w n :
  bridgeHeap w !! b = Some n -> Chan.closed (writeQueue n) = false ->
  Chan.full (writeQueue n) = false ->
  WritePassthrough b (rewrite body header) w = Done (forwarded b (rewrite body header) n w) /\
  forwardedTo b (log (forwarded b (rewrite body header) n w))
    = forwardedTo b (log w) ++ [rewrite body header] /\
  resume range (mkCont body header (b :: rest) hs) w
    = resume range (mkCont body header rest hs) (forwarded b (rewrite body header) n w).
Proof.
  intros Hn Hopen Hroom.
  assert (Hpass : WritePassthrough b (rewrite body header) w
                  = Done (forwarded b (rewrite body header) n w)).
  { rewrite (WritePassthrough_cases b _ w n Hn Hopen). now rewrite Hroom. }
  split; [exact Hpass|]. split.
  - unfold forwarded; simpl. effects. reflexivity.
  - unfold resume; simpl. unfold rewrite in Hpass. now rewrite Hpass.
Qed.

(** C4: a full write queue of a peer never costs a message or a bridge.
    [WritePassthrough] on a full queue parks with the world as it is, and
    [route] parks there, the message in hand; a parked loop takes no
    registration, unregistration or message. However long it is parked and
    whatever the pumps do meanwhile, when the dispatch is over every router
    connection has been forwarded every output of the message, in order, and
    the router connections are the ones it started with. Once the queue it
    waits at has room, the parked [route] queues the message it held there
    and goes on. A full subscription queue, in contrast, never parks the
    loop: the subscription is dropped. *)
Theorem peer_backpressure s m q ts s1 s2 :
  Inv s ->
  loop s = Selecting ->
  Chan.recv (inChan (router (world s))) = Chan.RecvOk m q ->
  routingTable (router (world s)) !! Header m = Some ts ->
  loop_step range Dispatch s = Stepped s1 ->
  completes range s1 s2 ->
  (routerConnections (router (world s1)) = routerConnections (router (world s)) /\
   routerConnections (router (world s2)) = routerConnections (router (world s)) /\
   forall b, b ∈ routerConnections (router (world s)) ->
     forwardedTo b (log (world s1)) ++ debt s1 b
       = forwardedTo b (log (world s)) ++ map (rewrite (Body m)) ts /\
     forwardedTo b (log (world s2))
       = forwardedTo b (log (world s)) ++ map (rewrite (Body m)) ts) /\
  (forall b msg w n,
     bridgeHeap w !! b = Some n -> Chan.closed (writeQueue n) = false ->
     Chan.full (writeQueue n) = true ->
     WritePassthrough b msg w = Blocked w tt /\
     forall rest, forwardAll msg (b :: rest) w = Blocked w (b :: rest)) /\
  (forall k, loop s1 = Parked k ->
     loop_step range Dispatch s1 = Disabled /\
     loop_step range Listen s1 = Disabled /\
     forall p, loop_step range (Unregister p) s1 = Disabled) /\
  (forall body header b rest hs w n,
     bridgeHeap w !! b = Some n -> Chan.closed (writeQueue n) = false ->
     Chan.full (writeQueue n) = false ->
     forwardedTo b (log (forwarded b (rewrite body header) n w))
       = forwardedTo b (log w) ++ [rewrite body header] /\
     resume range (mkCont body header (b :: rest) hs) w
       = resume range (mkCont body header rest hs)
                (forwarded b (rewrite body header) n w)) /\
  (forall p msg w sb,
     subHeap w !! p = Some sb -> Chan.closed (send sb) = false ->
     Chan.full (send sb) = true ->
     deliver p msg w = Done (dropped p sb w)).
Proof.
  intros HInv Hsel Hrecv Htab Hstep Hrun.
  pose proof (loop_step_Inv Dispatch s HInv) as HInv1. rewrite Hstep in HInv1.
  destruct HInv1 as [HInv1 _].
  destruct (completes_debt s1 s2 HInv1 Hrun) as (_ & Hconn2 & Hfw2).
  assert (Hdisp : routerConnections (router (world s1))
                  = routerConnections (router (world s)) /\
                  forall b, b ∈ routerConnections (router (world s)) ->
                    forwardedTo b (log (world s1)) ++ debt s1 b
                    = forwardedTo b (log (world s)) ++ map (rewrite (Body m)) ts).
  { destruct HInv as (Hlive & Hopen & _). destruct s as [w lp]; simpl in *. subst lp.
    revert Hstep. unfold loop_step; simpl. rewrite Hrecv. intros Hafter.
    pose proof (route_sound m (on_router (set_inChan q) w) Hlive Hopen) as Hsound.
    simpl in Hsound. rewrite Htab in Hsound.
    apply (after_route_debt _ _ _ s1 Hsound Hafter). }
  destruct Hdisp as [Hconn1 Hfw1].
  split; [|split; [|split; [|split]]].
  - split; [exact Hconn1|]. split; [congruence|].
    intros b Hb. split; [now apply Hfw1|].
    rewrite Hfw2 by congruence. now apply Hfw1.
  - intros b msg w n Hn Hopen Hfull.
    assert (Hpass : WritePassthrough b msg w = Blocked w tt).
    { rewrite (WritePassthrough_cases b msg w n Hn Hopen). now rewrite Hfull. }
    split; [exact Hpass|]. intros rest. simpl. now rewrite Hpass.
  - intros k Hk. destruct s1 as [w1 lp1]; simpl in *. subst lp1.
    repeat split.
  - intros body header b rest hs w n Hn Hopen Hroom.
    now destruct (resume_head_room body header b rest hs w n Hn Hopen Hroom) as (_ & ? & ?).
  - intros p msg w sb. apply deliver_full.
Qed.

(** ** A dispatch, seen from one subscription, parked or not *)










(** ** Fan-out *)

(** With room in every peer queue, [route] completes and every router
    connection has every output queued, in order. *)
Lemma route_peers (m : Message) (ts : list string) (w : World) :
  routingTable (router w) !! Header m = Some ts ->
  liveOpen w -> peersOpen w ->
  (forall b n, b ∈ routerConnections (router w) -> bridgeHeap w !! b = Some n ->
     length ts <= Chan.free (writeQueue n)) ->
  exists w',
    route range m w = Done w' /\
    routeHeaders range (Body m) ts w = Done w' /\
    (forall b n, b ∈ routerConnections (router w) -> bridgeHeap w !! b = Some n ->
       bridgeHeap w' !! b
         = Some (set_writeQueue (Chan.mk (Chan.buf (writeQueue n) ++ map (rewrite (Body m)) ts)
                                         (Chan.cap (writeQueue n)) false) n) /\
       forwardedTo b (log w') = forwardedTo b (log w) ++ map (rewrite (Body m)) ts) /\
    (forall b, b ∉ routerConnections (router w) ->
       forwardedTo b (log w') = forwardedTo b (log w)) /\
    routerConnections (router w') = routerConnections (router w).
Proof.
  intros Htab Hlive Hopen Hroom.
  destruct (routeHeaders_room (Body m) ts w Hlive Hopen Hroom)
    as (w' & Hrun & _ & _ & _ & Hconn & _ & _ & Hpout & Hpin).
  exists w'. unfold route. rewrite Htab.
  split; [exact Hrun|]. split; [exact Hrun|]. split; [|split].
  - intros b n Hb Hn.
    destruct (Hopen b Hb) as (n0 & Hn0 & Hbopen).
    rewrite Hn in Hn0. injection Hn0 as <-.
    destruct (Hpin b n Hb Hn) as (H1 & _ & H3).
    pose proof (pushWorld_closed_form (Body m) ts b n w) as Hform.
    rewrite (store_bridge_id b n w Hn) in Hform. simpl in Hform.
    destruct Hform as (F1 & _ & F3).
    split; [|now rewrite H3].
    rewrite H1, F1. do 2 f_equal. f_equal. destruct ts; [exact Hbopen|reflexivity].
  - intros b Hb. now destruct (Hpout b Hb) as (_ & _ & H3).
  - exact Hconn.
Qed.



(** ** Filters *)

Lemma Node_Write_filters n msg f :
  Node_Write (set_filters f n) msg
  = match Node_Write n msg with
    | Done n' => Done (set_filters f n')
    | Blocked n' k => Blocked (set_filters f n') k
    | Panic e => Panic e
    end.
Proof.
  unfold Node_Write; simpl. now destruct (Chan.send (writeQueue n) msg).
Qed.

(** C10: what [route] forwards to a bridge does not depend on the filters
    of its node. Every output of the message is queued at every router
    connection, also the outputs that are not among the filters of the node,
    and the filters stay as they are; [Node.Write] does the same whatever the
    filters are. The filters are consulted by the reader pump only, which
    skips a message read from the peer whose header is not among them. *)
Theorem peers_unfiltered (m : Message) (ts : list string) (w : World) :
  routingTable (router w) !! Header m = Some ts ->
  liveOpen w -> peersOpen w ->
  (forall b n, b ∈ routerConnections (router w) -> bridgeHeap w !! b = Some n ->
     length ts <= Chan.free (writeQueue n)) ->
  (exists w',
     route range m w = Done w' /\
     forall b n, b ∈ routerConnections (router w) -> bridgeHeap w !! b = Some n ->
       exists n',
         bridgeHeap w' !! b = Some n' /\
         filters n' = filters n /\
         Chan.buf (writeQueue n')
           = Chan.buf (writeQueue n) ++ map (rewrite (Body m)) ts /\
         forwardedTo b (log w') = forwardedTo b (log w) ++ map (rewrite (Body m)) ts /\
         forall t, t ∈ ts -> t ∉ filters n ->
           rewrite (Body m) t ∈ Chan.buf (writeQueue n')) /\
  (forall n msg f,
     Node_Write (set_filters f n) msg
     = match Node_Write n msg with
       | Done n' => Done (set_filters f n')
       | Blocked n' k => Blocked (set_filters f n') k
       | Panic e => Panic e
       end) /\
  (forall n msg evs, Header msg ∉ filters n ->
     readPump_loop (RdMessage msg :: evs) n = readPump_loop evs n).
Proof.
  intros Htab Hlive Hopen Hroom.
  split; [|split].
  - destruct (route_peers m ts w Htab Hlive Hopen Hroom)
      as (w' & Hrun & _ & Hpeers & _).
    exists w'. split; [exact Hrun|].
    intros b n Hb Hn. destruct (Hpeers b n Hb Hn) as [Hheap Hfw].
    eexists. split; [exact Hheap|]. simpl.
    split; [reflexivity|]. split; [reflexivity|]. split; [exact Hfw|].
    intros t Ht _. apply elem_of_app. right.
    apply list_elem_of_fmap. now exists t.
  - apply Node_Write_filters.
  - intros n msg evs Hout. simpl. now rewrite decide_False.
Qed.

End DispatchProperties.

(** * The scenarios, worked *)

Lemma elements_range : forall s : gset positive, elements s ≡ₚ elements s.
Proof. reflexivity. Qed.

Lemma sampleWorld_liveOpen : liveOpen sampleWorld.
Proof.
  intros p Hp. cbn [sampleWorld subscriptions router] in Hp. set_unfold in Hp.
  destruct Hp as [[->| ->]| ->]; (eexists; split; [reflexivity|reflexivity]).
Qed.

Lemma sampleWorld_peersOpen : peersOpen sampleWorld.
Proof.
  intros p Hp. cbn [sampleWorld routerConnections router] in Hp.
  set_unfold in Hp. subst p. eexists; split; reflexivity.
Qed.

Lemma stalledWorld_peersOpen : peersOpen stalledWorld.
Proof.
  intros p Hp. cbn [stalledWorld store_bridge sampleWorld routerConnections router] in Hp.
  set_unfold in Hp. subst p. eexists; split; reflexivity.
Qed.

Lemma emptyLog_OK w : log w = [] -> logOK w.
Proof.
  intros Hlog p. rewrite Hlog. unfold closes, deletes; simpl.
  split; [reflexivity|]. split; [lia|]. split; intros _; reflexivity.
Qed.

Lemma sampleSys_Inv : Inv sampleSys.
Proof.
  split; [apply sampleWorld_liveOpen|]. split; [apply sampleWorld_peersOpen|].
  split; [apply emptyLog_OK; reflexivity|]. split; reflexivity.
Qed.

Lemma stalledSys_Inv : Inv stalledSys.
Proof.
  split; [apply sampleWorld_liveOpen|]. split; [apply stalledWorld_peersOpen|].
  split; [apply emptyLog_OK; reflexivity|]. split; reflexivity.
Qed.

Lemma pong_not_ping : "pong"%string ∉ ["ping"%string].
Proof. intros H. apply list_elem_of_singleton in H. discriminate. Qed.

Lemma next_Stepped range ev s :
  (if loop_step range ev s is Stepped _ then true else false) = true ->
  loop_step range ev s = Stepped (next range ev s).
Proof. unfold next. now destruct (loop_step range ev s). Qed.

Lemma sample_first_live : 1%positive ∈ subscriptions (router sampleWorld).
Proof. cbn [sampleWorld subscriptions router]. set_solver. Qed.

Lemma sample_third_live : 3%positive ∈ subscriptions (router sampleWorld).
Proof. cbn [sampleWorld subscriptions router]. set_solver. Qed.

Lemma sample_peer_live : 7%positive ∈ routerConnections (router sampleWorld).
Proof. cbn [sampleWorld routerConnections router]. set_solver. Qed.

Lemma sample_peer_room b n :
  b ∈ routerConnections (router sampleWorld) -> bridgeHeap sampleWorld !! b = Some n ->
  length ["pong"%string] <= Chan.free (writeQueue n).
Proof.
  intros Hb Hn. cbn [sampleWorld routerConnections router] in Hb.
  set_unfold in Hb. subst b. vm_compute in Hn. injection Hn as <-. vm_compute. lia.
Qed.








Lemma full_queue_closed_once_witness :
  Inv sampleSys /\
  Chan.full (Chan.mk (backlog 1024) 1024 false) = true /\
  exists sys',
    loop_step elements Dispatch sampleSys = Stepped sys' /\
    (3%positive ∉ subscriptions (router (world sys'))) /\
    closes 3 (log (world sys')) = 1 /\ deletes 3 (log (world sys')) = 1 /\
    loop_step elements (Unregister 3) sys' = Stepped sys'.
Proof.
  split; [apply sampleSys_Inv|]. split; [reflexivity|].
  destruct (full_queue_closed_once elements elements_range sampleSys 3%positive
              (mkSubscription (Chan.mk (backlog 1024) 1024 false))
              pingMessage (Chan.mk [] 1024 false) ["pong"%string]
              sampleSys_Inv eq_refl eq_refl eq_refl ltac:(discriminate)
              sample_third_live eq_refl eq_refl)
    as [(sys' & Hstep & Hout & _ & _ & _ & _ & Hcl & Hdel & Hlater) _].
  exists sys'. split; [exact Hstep|]. split; [exact Hout|].
  split; [exact Hcl|]. split; [exact Hdel|].
  destruct (Hlater sys' (steps_refl elements sys')) as (_ & _ & _ & _ & Hunreg).
  apply Hunreg. vm_compute in Hstep. injection Hstep as <-. reflexivity.
Defined.

Lemma retryConnection_until_success_witness :
  Chan.buf (readDone (node waitingPeer)) = [true] /\
  Chan.buf (writeDone (node waitingPeer)) = [true] /\
  flakyNet 3 (attempt waitingPeer + 2) (dialURL "peer:7100") = None /\
  (exists st',
    retryConnection (flakyNet 3) 5 waitingPeer = Some (Done st') /\
    state (node st') = "good"%string /\
    attempt st' = 4 /\
    Chan.buf (readDone (node st')) = [] /\ Chan.buf (writeDone (node st')) = [] /\
    acts st' = acts waitingPeer
               ++ [ADial (dialURL "peer:7100") false; ASleep (3 * Time.Second)%Z;
                   ADial (dialURL "peer:7100") false; ASleep (3 * Time.Second)%Z;
                   ADial (dialURL "peer:7100") true; AGo ReadPump; AGo WritePump]) /\
  (exists st1,
    retryConnection (flakyNet 3) 5 freshPeer = Some (Blocked st1 RecvReadDone) /\
    acts st1 = []).
Proof.
  split; [reflexivity|]. split; [reflexivity|]. split; [reflexivity|].
  destruct (retryConnection_until_success (flakyNet 3) waitingPeer 2
              true [] true [] 5 eq_refl eq_refl)
    as ((st' & Hrun & Hact & _ & Hrd & Hwd & Hatt & Hacts) & _ & Hwait & _).
  - intros i Hi. destruct i as [|[|i]]; [discriminate|discriminate|lia].
  - reflexivity.
  - lia.
  - split.
    + exists st'. split; [exact Hrun|]. split; [exact Hact|].
      split; [exact Hatt|]. split; [now rewrite Hrd|]. split; [now rewrite Hwd|exact Hacts].
    + destruct (Hwait freshPeer eq_refl eq_refl) as (st1 & Hblock & _ & Hacts1 & _).
      exists st1. split; [exact Hblock|exact Hacts1].
Defined.

Lemma peer_backpressure_witness :
  Inv stalledSys /\
  (exists k, loop (next elements Dispatch stalledSys) = Parked k /\ kPeers k = [7%positive]) /\
  forwardedTo 7 (log (world (next elements Dispatch stalledSys))) = [] /\
  forwardedTo 7
    (log (world (next elements Resume
                   (next elements (PeerDrain 7) (next elements Dispatch stalledSys)))))
  = [mkMessage "pong" [Byte.x78]].
Proof.
  split; [apply stalledSys_Inv|]. split; [eexists; split; vm_compute; reflexivity|].
  split; [vm_compute; reflexivity|].
  set (s1 := next elements Dispatch stalledSys).
  set (s2 := next elements Resume (next elements (PeerDrain 7) s1)).
  assert (Hrun : completes elements s1 s2).
  { eapply (completes_step elements (PeerDrain 7)); [vm_compute; reflexivity| |].
    - apply next_Stepped. vm_compute. reflexivity.
    - eapply (completes_step elements Resume); [vm_compute; reflexivity| |].
      + apply next_Stepped. vm_compute. reflexivity.
      + apply completes_here. vm_compute. reflexivity. }
  destruct (peer_backpressure elements elements_range stalledSys pingMessage
              (Chan.mk [] 1024 false) ["pong"%string] s1 s2
              stalledSys_Inv eq_refl eq_refl eq_refl)
    as ((_ & _ & Hfw) & _);
    [apply next_Stepped; vm_compute; reflexivity|exact Hrun|].
  destruct (Hfw 7%positive) as [_ Hall].
  - cbn [stalledSys world stalledWorld store_bridge sampleWorld routerConnections router].
    set_solver.
  - exact Hall.
Defined.

Lemma route_unknown_topic_witness :
  routingTable (router sampleWorld) !! "nope"%string = None /\
  route elements (mkMessage "nope" [Byte.x78]) sampleWorld = Done sampleWorld.
Proof.
  split; [reflexivity|].
  apply (route_unknown_topic elements (mkMessage "nope" [Byte.x78]) sampleWorld).
  reflexivity.
Defined.

Lemma readPump_filters_witness :
  Chan.closed (readQueue (node freshPeer)) = false /\
  readPump_loop [RdMessage (mkMessage "pong" [Byte.x78])] (node freshPeer)
    = Blocked (node freshPeer) WaitFrame /\
  readPump_loop [RdMessage pingMessage] (node freshPeer)
    = Blocked (set_readQueue (Chan.mk [pingMessage] 4096 false) (node freshPeer)) WaitFrame /\
  exists n',
    readPump_loop (map RdMessage [pingMessage; mkMessage "pong" [Byte.x78]; pingMessage])
      (node freshPeer) = Blocked n' WaitFrame /\
    Chan.buf (readQueue n') = [pingMessage; pingMessage].
Proof.
  split; [reflexivity|]. split; [|split].
  - destruct (readPump_filters (mkMessage "pong" [Byte.x78]) [] (node freshPeer) eq_refl)
      as (Hskip & _).
    apply Hskip. cbn [freshPeer node Header]. rewrite NewNode_filters.
    exact pong_not_ping.
  - destruct (readPump_filters pingMessage [] (node freshPeer) eq_refl)
      as (_ & Hin & _).
    apply Hin; [|reflexivity].
    cbn [freshPeer node Header pingMessage]. rewrite NewNode_filters. constructor.
  - destruct (readPump_filters pingMessage [] (node freshPeer) eq_refl)
      as (_ & _ & _ & _ & Hall & _).
    destruct (Hall [pingMessage; mkMessage "pong" [Byte.x78]; pingMessage])
      as (n' & Hrun & _ & Hq & _).
    + apply Nat.leb_le. vm_compute. reflexivity.
    + exists n'. split; [exact Hrun|]. rewrite Hq. vm_compute. reflexivity.
Defined.

(** C7 as stated fails: after a refused dial [ConnectToRouter] returns its
    error with the state still "standby", which is not a retrying state. *)
Lemma ConnectToRouter_failed_not_retrying :
  match ConnectToRouter downNet "peer:7100" freshPeer with
  | Done (st, err) =>
      err = Some (connectError "peer:7100") /\
      acts st = [ADial (dialURL "peer:7100") false; AGo RetryConnection] /\
      state (node st) = "standby"%string /\
      ~ retrying (state (node st))
  | _ => False
  end.
Proof.
  vm_compute. split; [reflexivity|]. split; [reflexivity|]. split; [reflexivity|].
  exact standby_not_retrying.
Qed.

Lemma ConnectToRouter_result_witness :
  Chan.closed (readDone (node freshPeer)) = false /\
  Chan.full (readDone (node freshPeer)) = false /\
  Chan.closed (writeDone (node freshPeer)) = false /\
  Chan.full (writeDone (node freshPeer)) = false /\
  exists st',
    ConnectToRouter downNet "peer:7100" freshPeer
      = Done (st', Some (connectError "peer:7100")) /\
    state (node st') = "standby"%string /\
    acts st' = [ADial (dialURL "peer:7100") false; AGo RetryConnection].
Proof.
  repeat (split; [reflexivity|]).
  destruct (ConnectToRouter_result downNet "peer:7100" freshPeer eq_refl eq_refl eq_refl eq_refl)
    as (st' & err & Hrun & _ & _ & _ & Hko).
  destruct Hko as (Herr & Hstate & _ & _ & _ & _ & Hacts); [discriminate|].
  exists st'. subst err. split; [exact Hrun|]. split; [exact Hstate|exact Hacts].
Defined.

Lemma peers_unfiltered_witness :
  ("pong"%string ∉ filters (NewNode "peer:7100" ["ping"%string])) /\
  exists w' n',
    route elements pingMessage sampleWorld = Done w' /\
    bridgeHeap w' !! 7%positive = Some n' /\
    mkMessage "pong" [Byte.x78] ∈ Chan.buf (writeQueue n').
Proof.
  assert (Hout : "pong"%string ∉ filters (NewNode "peer:7100" ["ping"%string])).
  { rewrite NewNode_filters. exact pong_not_ping. }
  split; [exact Hout|].
  destruct (peers_unfiltered elements elements_range pingMessage ["pong"%string] sampleWorld
              eq_refl sampleWorld_liveOpen sampleWorld_peersOpen sample_peer_room)
    as ((w' & Hrun & Hpeers) & _).
  destruct (Hpeers 7%positive (NewNode "peer:7100" ["ping"%string]) sample_peer_live eq_refl)
    as (n' & Hn' & _ & _ & _ & Hany).
  exists w', n'. split; [exact Hrun|]. split; [exact Hn'|].
  apply (Hany "pong"%string); [constructor|exact Hout].
Defined.

(** * More of the code *)

(** ** The reader pump of a node, over a whole run *)

Lemma accepted_app n ms1 ms2 : accepted n (ms1 ++ ms2) = accepted n ms1 ++ accepted n ms2.
Proof. unfold accepted. apply List.filter_app. Qed.

(** The reader over events without a read error, with room in the read
    queue for what the filters let through: what it leaves when it turns to
    the events that follow. *)
Lemma readPump_loop_run : forall pre n c rest,
  noReadError pre = true ->
  conn n = Some c ->
  Chan.closed (readQueue n) = false ->
  length (accepted n (readMessages pre)) <= Chan.free (readQueue n) ->
  exists n' c',
    readPump_loop (pre ++ rest) n = readPump_loop rest n' /\
    readQueue n' = Chan.mk (Chan.buf (readQueue n) ++ accepted n (readMessages pre))
                           (Chan.cap (readQueue n)) false /\
    conn n' = Some c' /\
    connClosed c' = connClosed c /\ remote c' = remote c /\
    written c' = written c ++ replicate (length (readPings pre)) WsPong /\
    readDeadline c' = match last (readPings pre) with
                      | Some t => Some (t + pingWait)%Z
                      | None => readDeadline c
                      end /\
    lastPingTime n' = match last (readPings pre) with
                      | Some t => t
                      | None => lastPingTime n
                      end /\
    filters n' = filters n /\ writeQueue n' = writeQueue n /\
    readDone n' = readDone n /\ writeDone n' = writeDone n /\
    state n' = state n /\ Name n' = Name n /\ routerAddress n' = routerAddress n.
Proof.
  induction pre as [|e pre IH]; intros n c rest Hok Hc Hopen Hroom.
  - exists n, c. simpl. rewrite !app_nil_r.
    destruct n as [? ? ? ? [rb rc rcl] ? ? ? ? ?]; simpl in *. subst rcl.
    repeat split; try reflexivity; assumption.
  - destruct e as [m|now|]; simpl in Hok; [| |discriminate].
    + (* a message *)
      destruct (decide (Header m ∈ filters n)) as [Hin|Hout].
      * assert (Hacc : accepted n (readMessages (RdMessage m :: pre))
                       = m :: accepted n (readMessages pre)).
        { unfold accepted, readMessages; simpl. now rewrite bool_decide_eq_true_2. }
        rewrite Hacc in Hroom |- *. simpl in Hroom.
        assert (Hnf : Chan.full (readQueue n) = false) by (apply not_full_free; lia).
        cbn [app readPump_loop]. rewrite decide_True by assumption.
        rewrite (send_room _ _ Hopen Hnf).
        set (n1 := set_readQueue _ n).
        destruct (IH n1 c rest Hok Hc eq_refl) as (n' & c' & Hrun & Hq & Hrest).
        { unfold n1; simpl. rewrite free_enqueue. unfold accepted in *. simpl. lia. }
        exists n', c'. split; [exact Hrun|]. split; [|exact Hrest].
        rewrite Hq. unfold n1; simpl. now rewrite <- app_assoc.
      * assert (Hacc : accepted n (readMessages (RdMessage m :: pre))
                       = accepted n (readMessages pre)).
        { unfold accepted, readMessages; simpl. now rewrite bool_decide_eq_false_2. }
        rewrite Hacc in Hroom |- *.
        cbn [app readPump_loop]. rewrite decide_False by assumption. now apply IH.
    + (* a ping *)
      cbn [app readPump_loop].
      set (c1 := Conn_Write WsPong (Conn_SetReadDeadline (now + pingWait) c)).
      assert (Hc1 : conn (pingHandler now n) = Some c1).
      { unfold pingHandler; simpl. now rewrite Hc. }
      destruct (IH (pingHandler now n) c1 rest Hok Hc1 Hopen Hroom)
        as (n' & c' & Hrun & Hq & Hcn & Hcl & Hrem & Hwr & Hdl & Hlp & Hrest).
      exists n', c'. split; [exact Hrun|]. split; [exact Hq|]. split; [exact Hcn|].
      split; [exact Hcl|]. split; [exact Hrem|].
      change (readPings (RdPing now :: pre)) with (now :: readPings pre).
      split; [|split; [|split; [|exact Hrest]]].
      * rewrite Hwr. unfold c1; simpl. now rewrite <- app_assoc.
      * rewrite Hdl, last_cons. unfold c1; simpl. now destruct (last (readPings pre)).
      * rewrite Hlp, last_cons. simpl. now destruct (last (readPings pre)).
Qed.

(** X1: the reader pump of a node, run on events that end in a read error,
    with room in the read queue: it has queued, in the order read, exactly
    the messages before the error whose header is among the filters; then it
    has closed the connection, set the state to "down" and posted its done
    token. What follows the error is never read, the write queue and the
    filters are untouched. *)
Theorem readPump_until_error now pre post n c :
  noReadError pre = true ->
  conn n = Some c ->
  Chan.closed (readQueue n) = false ->
  length (accepted n (readMessages pre)) <= Chan.free (readQueue n) ->
  Chan.closed (readDone n) = false ->
  Chan.full (readDone n) = false ->
  exists n' c',
    readPump now (pre ++ RdError :: post) n = Done n' /\
    Chan.buf (readQueue n') = Chan.buf (readQueue n) ++ accepted n (readMessages pre) /\
    state n' = "down"%string /\
    conn n' = Some c' /\ connClosed c' = true /\
    Chan.buf (readDone n') = Chan.buf (readDone n) ++ [true] /\
    writeQueue n' = writeQueue n /\ filters n' = filters n.
Proof.
  intros Hok Hc Hopen Hroom Hdc Hdf. unfold readPump.
  destruct (readPump_loop_run pre (readPump_start now n)
              (Conn_SetReadDeadline (now + pingWait) c) (RdError :: post) Hok)
    as (n1 & c1 & Hrun & Hq & Hc1 & Hcl & _ & _ & _ & _ & Hf & Hwq & Hrd & _);
    try assumption.
  { unfold readPump_start; simpl. now rewrite Hc. }
  rewrite Hrun. simpl. unfold readPump_exit. rewrite Hc1.
  simpl. rewrite Hrd. simpl. rewrite (send_room _ _ Hdc Hdf).
  eexists _, _. split; [reflexivity|]. simpl.
  rewrite Hq. simpl. repeat split; try reflexivity; assumption.
Qed.

Lemma pongFrames_app fs1 fs2 : pongFrames (fs1 ++ fs2) = pongFrames fs1 + pongFrames fs2.
Proof. unfold pongFrames. now rewrite omap_app, length_app. Qed.

Lemma pongFrames_replicate k : pongFrames (replicate k WsPong) = k.
Proof.
  induction k as [|k IH]; [reflexivity|].
  change (S (pongFrames (replicate k WsPong)) = S k). now rewrite IH.
Qed.

(** X2: the reader pump of a node answers every ping: over events without
    a read error it has written one pong per ping and nothing else, the read
    deadline is 90 s after the last ping (after the start when there was
    none), and it waits for the next frame with the connection open as it
    was. *)
Theorem readPump_answers_pings now evs n c :
  noReadError evs = true ->
  conn n = Some c ->
  Chan.closed (readQueue n) = false ->
  length (accepted n (readMessages evs)) <= Chan.free (readQueue n) ->
  exists n' c',
    readPump now evs n = Blocked n' WaitFrame /\
    conn n' = Some c' /\
    written c' = written c ++ replicate (length (readPings evs)) WsPong /\
    pongFrames (written c') = pongFrames (written c) + length (readPings evs) /\
    readDeadline c' = Some (match last (readPings evs) with
                            | Some t => t
                            | None => now
                            end + 90 * Time.Second)%Z /\
    connClosed c' = connClosed c /\
    state n' = state n.
Proof.
  intros Hok Hc Hopen Hroom. unfold readPump.
  destruct (readPump_loop_run evs (readPump_start now n)
              (Conn_SetReadDeadline (now + pingWait) c) [] Hok)
    as (n1 & c1 & Hrun & _ & Hc1 & Hcl & _ & Hwr & Hdl & _ & _ & _ & _ & _ & Hst & _);
    try assumption.
  { unfold readPump_start; simpl. now rewrite Hc. }
  rewrite app_nil_r in Hrun. rewrite Hrun. simpl.
  exists n1, c1. split; [reflexivity|]. split; [exact Hc1|]. split; [exact Hwr|].
  split; [|split; [|split; [exact Hcl|exact Hst]]].
  - now rewrite Hwr, pongFrames_app, pongFrames_replicate.
  - rewrite Hdl. simpl. now destruct (last (readPings evs)).
Qed.

(** ** The writer pump of a node *)

(** The writer taking [k] messages from the write queue, every write
    succeeding. *)
Lemma writePump_loop_fifo : forall k n c rest,
  conn n = Some c ->
  k <= length (Chan.buf (writeQueue n)) ->
  writePump_loop (replicate k (FromQueue true) ++ rest) n
  = writePump_loop rest
      (set_conn (Some (mkConn (remote c) (connClosed c) (readDeadline c)
                              (written c ++ map WsJSON (take k (Chan.buf (writeQueue n))))))
         (set_writeQueue (Chan.mk (drop k (Chan.buf (writeQueue n)))
                                  (Chan.cap (writeQueue n)) (Chan.closed (writeQueue n))) n)).
Proof.
  induction k as [|k IH]; intros n c rest Hc Hk.
  - simpl. rewrite drop_0, app_nil_r. f_equal.
    destruct n as [? ? cn [wb wc wcl] ? ? ? ? ? ?]; simpl in *. subst cn.
    now destruct c.
  - destruct n as [nm ra cn [wb wc wcl] rq fl rd wd lp stt]; simpl in *. subst cn.
    destruct wb as [|m wb]; [simpl in Hk; lia|].
    cbn [replicate app writePump_loop]. unfold Chan.recv; simpl.
    erewrite IH; [|reflexivity|simpl in *; lia].
    simpl. unfold set_conn, set_writeQueue; simpl. do 3 f_equal.
    now rewrite <- app_assoc.
Qed.

(** X3: what [Node.Write] queues goes out on the connection after
    everything queued before it: with the writes succeeding, the writer pump
    taking all the queue holds writes the old messages and then the new one,
    in order, each once, and is left waiting with the queue empty. *)
Theorem Write_then_writePump (n : Node) (c : Conn) (message : Message) :
  conn n = Some c ->
  Chan.closed (writeQueue n) = false ->
  Chan.full (writeQueue n) = false ->
  exists n1 n' c',
    Node_Write n message = Done n1 /\
    writePump_loop (replicate (S (length (Chan.buf (writeQueue n)))) (FromQueue true)) n1
      = Blocked n' InSelect /\
    conn n' = Some c' /\
    written c' = written c ++ map WsJSON (Chan.buf (writeQueue n) ++ [message]) /\
    Chan.buf (writeQueue n') = [] /\
    connClosed c' = connClosed c.
Proof.
  intros Hc Hopen Hroom. unfold Node_Write. rewrite (send_room _ _ Hopen Hroom).
  eexists _, _, _. split; [reflexivity|].
  pose proof (writePump_loop_fifo (S (length (Chan.buf (writeQueue n))))
                (set_writeQueue (Chan.mk (Chan.buf (writeQueue n) ++ [message])
                                         (Chan.cap (writeQueue n)) false) n) c []) as Hrun.
  rewrite app_nil_r in Hrun. rewrite Hrun; clear Hrun.
  - simpl. split; [reflexivity|]. split; [reflexivity|]. simpl.
    rewrite take_ge, drop_ge by (rewrite length_app; simpl; lia).
    now repeat split.
  - exact Hc.
  - simpl. rewrite length_app. simpl. lia.
Qed.

(** X4: a write that fails costs exactly its message. When the first [k]
    writes succeed and the next fails, the writer pump returns; the [k]
    messages are on the connection, the one whose write failed has left the
    queue and is not on the connection, and the messages behind it are still
    queued, in order. *)
Theorem writePump_failed_write (k : nat) (n : Node) (c : Conn) (m : Message)
    (rest : list writeChoice) :
  conn n = Some c ->
  Chan.buf (writeQueue n) !! k = Some m ->
  exists n' c',
    writePump_loop (replicate k (FromQueue true) ++ FromQueue false :: rest) n = Done n' /\
    conn n' = Some c' /\
    written c' = written c ++ map WsJSON (take k (Chan.buf (writeQueue n))) /\
    Chan.buf (writeQueue n') = drop (S k) (Chan.buf (writeQueue n)) /\
    Chan.buf (writeQueue n)
      = take k (Chan.buf (writeQueue n)) ++ m :: Chan.buf (writeQueue n') /\
    state n' = state n /\ connClosed c' = connClosed c.
Proof.
  intros Hc Hm.
  assert (Hk : k < length (Chan.buf (writeQueue n))) by (now apply lookup_lt_Some in Hm).
  rewrite (writePump_loop_fifo k n c _ Hc) by lia.
  cbn [writePump_loop]. unfold Chan.recv. simpl.
  rewrite (drop_S _ m k Hm). simpl.
  eexists _, _. split; [reflexivity|]. simpl.
  split; [reflexivity|]. split; [reflexivity|]. split; [reflexivity|].
  split; [|now split].
  now rewrite take_drop_middle.
Qed.

(** ** Reconnecting *)

(** The retry procedure with both tokens there, on a network that refuses
    [k] dials and accepts the next: the state it returns. *)
Lemma retryConnection_run net st k rd wd fuel :
  takeDone (readDone (node st)) = Some rd ->
  takeDone (writeDone (node st)) = Some wd ->
  (forall i, i < k -> net (attempt st + i) (dialURL (routerAddress (node st))) <> None) ->
  net (attempt st + k) (dialURL (routerAddress (node st))) = None ->
  k <= fuel ->
  retryConnection net fuel st
  = Some (Done
      (mkNodeSt
         (set_state "good"
            (set_conn (Some (mkConn (dialURL (routerAddress (node st))) false None []))
               (set_writeDone wd (set_readDone rd (markRetrying (node st))))))
         (attempt st + S k)
         (acts st
          ++ concat (replicate k [ADial (dialURL (routerAddress (node st))) false;
                                  ASleep retryInterval])
          ++ [ADial (dialURL (routerAddress (node st))) true; AGo ReadPump; AGo WritePump]))).
Proof.
  intros Hr Hw Hfail Hok Hfuel.
  set (url := dialURL (routerAddress (node st))) in *.
  unfold retryConnection. simpl. rewrite Hr. simpl. rewrite Hw.
  unfold openConnection; simpl. fold url.
  destruct k as [|k].
  - rewrite Nat.add_0_r in Hok. rewrite Hok. simpl. rewrite retryLoop_done.
    unfold emit, on_node; simpl. do 2 f_equal. f_equal; [lia|].
    now rewrite <- !app_assoc.
  - destruct (net (attempt st) url) as [e|] eqn:Hnow.
    2:{ exfalso. apply (Hfail 0); [lia|]. now rewrite Nat.add_0_r. }
    rewrite (retryLoop_succeeds net url k); simpl; try lia; try reflexivity.
    + unfold emit, on_node; simpl. do 2 f_equal. f_equal; [lia|].
      rewrite <- !app_assoc. f_equal.
      pose proof (backoff_rounds (ADial url false) (ASleep retryInterval)
                    (ADial url true) k) as Hb.
      apply (f_equal (fun l => l ++ [AGo ReadPump; AGo WritePump])) in Hb.
      rewrite <- !app_assoc in Hb. exact Hb.
    + intros i Hi. specialize (Hfail (S i)). rewrite Nat.add_succ_r in Hfail.
      apply Hfail. lia.
    + rewrite Nat.add_succ_r in Hok. exact Hok.
Qed.

(** X5: one whole reconnection. The reader meets a read error and returns;
    the writer takes the reader's token in its select, puts it back and
    returns into the retry procedure, which takes both tokens and dials until
    the peer accepts. At the end the node is "good" on a new open connection,
    the pumps are started again, both done channels are empty as [NewNode]
    made them, and the write queue is what it was: what was queued while the
    connection was down is still to be written. *)
Theorem reconnect_after_read_error net fuel k now pre post sched st c :
  conn (node st) = Some c ->
  readDone (node st) = Chan.make 1 ->
  writeDone (node st) = Chan.make 1 ->
  noReadError pre = true ->
  Chan.closed (readQueue (node st)) = false ->
  length (accepted (node st) (readMessages pre)) <= Chan.free (readQueue (node st)) ->
  (forall i, i < k -> net (attempt st + i) (dialURL (routerAddress (node st))) <> None) ->
  net (attempt st + k) (dialURL (routerAddress (node st))) = None ->
  k <= fuel ->
  exists n1 st',
    readPump now (pre ++ RdError :: post) (node st) = Done n1 /\
    writePump net fuel (FromReadDone :: sched) (mkNodeSt n1 (attempt st) (acts st))
      = Some (Done st') /\
    state (node st') = "good"%string /\
    conn (node st') = Some (mkConn (dialURL (routerAddress (node st))) false None []) /\
    readDone (node st') = Chan.make 1 /\
    writeDone (node st') = Chan.make 1 /\
    writeQueue (node st') = writeQueue (node st) /\
    Chan.buf (readQueue (node st'))
      = Chan.buf (readQueue (node st)) ++ accepted (node st) (readMessages pre) /\
    filters (node st') = filters (node st) /\
    acts st' = acts st
               ++ concat (replicate k [ADial (dialURL (routerAddress (node st))) false;
                                       ASleep retryInterval])
               ++ [ADial (dialURL (routerAddress (node st))) true;
                   AGo ReadPump; AGo WritePump].
Proof.
  intros Hc Hrd Hwd Hok Hopen Hroom Hfail Hacc Hfuel. unfold readPump.
  destruct (readPump_loop_run pre (readPump_start now (node st))
              (Conn_SetReadDeadline (now + pingWait) c) (RdError :: post) Hok)
    as (n1 & c1 & Hrun & Hq & Hc1 & _ & _ & _ & _ & _ & Hf & Hwq & Hrd1 & Hwd1 & _ & _ & Hra);
    try assumption.
  { unfold readPump_start; simpl. now rewrite Hc. }
  simpl in Hf, Hwq, Hrd1, Hwd1, Hra.
  rewrite Hrun. cbn [readPump_loop]. unfold readPump_exit. rewrite Hc1.
  cbn [readDone set_state set_conn]. rewrite Hrd1, Hrd.
  change (Chan.send (Chan.make 1) true) with (Chan.SendOk (Chan.mk [true] 1 false)).
  eexists _, _. split; [reflexivity|].
  unfold writePump. cbn [node writePump_loop set_readDone readDone].
  change (Chan.recv (Chan.mk [true] 1 false))
    with (Chan.RecvOk true (@Chan.mk bool [] 1 false)).
  cbn iota beta.
  change (Chan.send (@Chan.mk bool [] 1 false) true)
    with (Chan.SendOk (Chan.mk [true] 1 false)).
  cbn iota beta. unfold writePump_exit.
  cbn [node conn set_readDone set_state set_conn on_node writeDone].
  rewrite Hwd1, Hwd.
  change (Chan.send (Chan.make 1) true) with (Chan.SendOk (Chan.mk [true] 1 false)).
  cbn iota beta.
  erewrite (retryConnection_run net _ k (Chan.make 1) (Chan.make 1) fuel).
  - split; [reflexivity|]. simpl.
    rewrite Hra, Hwq, Hf, Hq. simpl.
    repeat split; reflexivity.
  - reflexivity.
  - reflexivity.
  - simpl. rewrite Hra. exact Hfail.
  - simpl. rewrite Hra. exact Hacc.
  - exact Hfuel.
Qed.

(** X6: a bridge whose first dial is refused still comes up. [StartBridge]
    gives the caller the error, and the retry procedure it has started ends,
    once the peer accepts, with the node "good" on an open connection and the
    pumps started. The first retry dial follows the refused one with no sleep
    between them; every later dial comes after one sleep of 3 s. The
    filters are the ones given and both done channels are empty again. *)
Theorem StartBridge_refused_recovers net address fs router k fuel :
  (forall i, i <= k -> net i (dialURL address) <> None) ->
  net (S k) (dialURL address) = None ->
  k <= fuel ->
  exists bridge st',
    StartBridge net address fs router = Done (Some bridge, Some (connectError address)) /\
    state (node (BNode bridge)) = "standby"%string /\
    retryConnection net fuel (BNode bridge) = Some (Done st') /\
    state (node st') = "good"%string /\
    conn (node st') = Some (mkConn (dialURL address) false None []) /\
    acts st' = [ADial (dialURL address) false; AGo RetryConnection]
               ++ concat (replicate k [ADial (dialURL address) false; ASleep retryInterval])
               ++ [ADial (dialURL address) true; AGo ReadPump; AGo WritePump] /\
    filters (node st') = list_to_set fs /\
    readDone (node st') = Chan.make 1 /\
    writeDone (node st') = Chan.make 1 /\
    writeQueue (node st') = Chan.make 4096.
Proof.
  intros Hfail Hok Hfuel.
  destruct (net 0 (dialURL address)) as [e|] eqn:H0.
  2:{ exfalso. now apply (Hfail 0); [lia|]. }
  unfold StartBridge, ConnectToRouter.
  rewrite (openConnection_fail net _ e) by exact H0.
  cbn -[dialURL connectError retryConnection].
  eexists _, _. split; [reflexivity|]. split; [reflexivity|].
  cbn [BNode].
  erewrite (retryConnection_run net _ k (Chan.make 1) (Chan.make 1) fuel).
  - split; [reflexivity|]. cbn -[dialURL retryInterval].
    repeat split; try reflexivity.
    rewrite addFilters_spec. set_solver.
  - reflexivity.
  - reflexivity.
  - simpl. intros i Hi. apply Hfail. lia.
  - simpl. exact Hok.
  - exact Hfuel.
Qed.

(** ** Connecting to the peers *)

(** X7: a peer whose first dial is refused never becomes a router
    connection: the goroutine of [ConnectToRouters] returns on the error of
    [StartBridge] and leaves the router, the heaps and the record as they
    were, whatever the network does afterwards (and although the node of the
    bridge goes on retrying). *)
Theorem connectPeer_refused net addr tbl w :
  net 0 (dialURL addr) <> None ->
  connectPeer net addr tbl w = w.
Proof.
  intros Hno. unfold connectPeer, StartBridge, ConnectToRouter.
  destruct (net 0 (dialURL addr)) as [e|] eqn:H0; [|congruence].
  rewrite (openConnection_fail net _ e) by exact H0.
  reflexivity.
Qed.

(** X8: a peer whose first dial is accepted joins the router connections
    as a bridge at a new address; its node is "good" on an open connection,
    with empty queues of capacity 4096, and its filters are exactly the keys
    of the routing table given to [ConnectToRouters]. The bridges and router
    connections there were stay, and so do the subscriptions, the inbound
    queue and the record. *)
Theorem connectPeer_accepted net addr tbl w :
  net 0 (dialURL addr) = None ->
  exists b n,
    b = fresh (dom (bridgeHeap w)) /\
    bridgeHeap w !! b = None /\
    bridgeHeap (connectPeer net addr tbl w) = <[b := n]> (bridgeHeap w) /\
    routerConnections (router (connectPeer net addr tbl w))
      = {[b]} ∪ routerConnections (router w) /\
    state n = "good"%string /\
    conn n = Some (mkConn (dialURL addr) false None []) /\
    filters n = dom tbl /\
    (forall m : Message, Header m ∈ filters n <-> is_Some (tbl !! Header m)) /\
    writeQueue n = Chan.make 4096 /\ readQueue n = Chan.make 4096 /\
    subHeap (connectPeer net addr tbl w) = subHeap w /\
    subscriptions (router (connectPeer net addr tbl w)) = subscriptions (router w) /\
    routingTable (router (connectPeer net addr tbl w)) = routingTable (router w) /\
    inChan (router (connectPeer net addr tbl w)) = inChan (router w) /\
    log (connectPeer net addr tbl w) = log w.
Proof.
  intros Hok. unfold connectPeer, StartBridge, ConnectToRouter.
  rewrite openConnection_ok by exact Hok.
  cbn -[dialURL].
  assert (Hf : addFilters (elements (dom tbl)) ∅ = dom tbl).
  { rewrite addFilters_spec, list_to_set_elements_L. set_solver. }
  eexists _, _. split; [reflexivity|]. split.
  { apply not_elem_of_dom, is_fresh. }
  split; [reflexivity|]. split; [reflexivity|]. split; [reflexivity|].
  split; [reflexivity|]. split; [exact Hf|]. split.
  { intros m. change (Header m ∈ addFilters (elements (dom tbl)) ∅ <-> is_Some (tbl !! Header m)).
    rewrite Hf. apply elem_of_dom. }
  repeat split; reflexivity.
Qed.

(** ** The pumps of a subscription *)

Lemma jsonFrames_app fs1 fs2 : jsonFrames (fs1 ++ fs2) = jsonFrames fs1 ++ jsonFrames fs2.
Proof. unfold jsonFrames. apply omap_app. Qed.

Lemma pingFrames_app fs1 fs2 : pingFrames (fs1 ++ fs2) = pingFrames fs1 + pingFrames fs2.
Proof. unfold pingFrames. now rewrite omap_app, length_app. Qed.

Lemma closeFrames_app fs1 fs2 : closeFrames (fs1 ++ fs2) = closeFrames fs1 + closeFrames fs2.
Proof. unfold closeFrames. now rewrite omap_app, length_app. Qed.

(** The writer of a subscription over a schedule on which every write
    succeeds and which takes no more from the queue than it holds. *)
Lemma Subscription_writePump_loop_run : forall sched s c rest,
  allSent sched = true ->
  sendsTaken sched <= length (Chan.buf (send s)) ->
  exists c',
    Subscription_writePump_loop (sched ++ rest) s c
    = Subscription_writePump_loop rest
        (mkSubscription (Chan.mk (drop (sendsTaken sched) (Chan.buf (send s)))
                                 (Chan.cap (send s)) (Chan.closed (send s)))) c' /\
    jsonFrames (written c')
      = jsonFrames (written c) ++ take (sendsTaken sched) (Chan.buf (send s)) /\
    pingFrames (written c') = pingFrames (written c) + ticksTaken sched /\
    closeFrames (written c') = closeFrames (written c) /\
    length (written c') = length (written c) + length sched /\
    connClosed c' = connClosed c /\ remote c' = remote c /\
    readDeadline c' = readDeadline c.
Proof.
  induction sched as [|ch sched IH]; intros s c rest Hall Hk.
  - exists c. simpl. rewrite drop_0, !app_nil_r, !Nat.add_0_r.
    destruct s as [[b cp cl]]. simpl. now repeat split.
  - destruct ch as [[|]|[|]]; simpl in Hall; try discriminate.
    + (* a message *)
      change (sendsTaken (FromSend true :: sched)) with (S (sendsTaken sched)) in *.
      destruct s as [[b cp cl]]. simpl in *.
      destruct b as [|m b]; [simpl in Hk; lia|].
      cbn [app Subscription_writePump_loop]. unfold Chan.recv. simpl.
      destruct (IH (mkSubscription (Chan.mk b cp cl)) (Conn_Write (WsJSON m) c) rest Hall)
        as (c' & Hrun & Hj & Hp & Hcl & Hlen & Hrest).
      { simpl in *. lia. }
      exists c'. split; [exact Hrun|]. simpl in *.
      rewrite Hj, Hp, Hcl, Hlen, jsonFrames_app, pingFrames_app, closeFrames_app, length_app.
      change (ticksTaken (FromSend true :: sched)) with (ticksTaken sched).
      change (pingFrames [WsJSON m]) with 0. change (closeFrames [WsJSON m]) with 0.
      change (jsonFrames [WsJSON m]) with [m].
      rewrite <- app_assoc. simpl.
      repeat split; try reflexivity; try tauto; lia.
    + (* a tick *)
      change (sendsTaken (FromTicker true :: sched)) with (sendsTaken sched) in *.
      change (ticksTaken (FromTicker true :: sched)) with (S (ticksTaken sched)).
      cbn [app Subscription_writePump_loop].
      destruct (IH s (Conn_Write WsPing c) rest Hall Hk)
        as (c' & Hrun & Hj & Hp & Hcl & Hlen & Hrest).
      exists c'. split; [exact Hrun|]. simpl in *.
      rewrite Hj, Hp, Hcl, Hlen, jsonFrames_app, pingFrames_app, closeFrames_app, length_app.
      change (pingFrames [WsPing]) with 1. change (closeFrames [WsPing]) with 0.
      change (jsonFrames [WsPing]) with (@nil Message).
      rewrite app_nil_r. simpl.
      repeat split; try reflexivity; try tauto; lia.
Qed.

(** X10: the writer of a subscription, every write succeeding: it has
    written the messages it took from the queue, oldest first and each once,
    one ping for every tick of its ticker (every 30 s), no close frame and
    nothing else; what it did not take is still queued, and it goes on
    waiting with the connection open as it was. *)
Theorem Subscription_writePump_in_order sched s c :
  allSent sched = true ->
  sendsTaken sched <= length (Chan.buf (send s)) ->
  exists s' c',
    Subscription_writePump sched s c = Blocked (s', c') tt /\
    Time.period writePump_ticker = (30 * Time.Second)%Z /\
    jsonFrames (written c')
      = jsonFrames (written c) ++ take (sendsTaken sched) (Chan.buf (send s)) /\
    pingFrames (written c') = pingFrames (written c) + ticksTaken sched /\
    closeFrames (written c') = closeFrames (written c) /\
    length (written c') = length (written c) + length sched /\
    Chan.buf (send s') = drop (sendsTaken sched) (Chan.buf (send s)) /\
    connClosed c' = connClosed c.
Proof.
  intros Hall Hk.
  destruct (Subscription_writePump_loop_run sched s c [] Hall Hk)
    as (c' & Hrun & Hj & Hp & Hcl & Hlen & Hcc & _).
  rewrite app_nil_r in Hrun. unfold Subscription_writePump. rewrite Hrun. simpl.
  eexists _, c'. split; [reflexivity|]. split; [reflexivity|]. simpl.
  now repeat split.
Qed.

(** X11: what the writer of a subscription does once its queue has been
    closed depends on its writes. While every write succeeds it is not cut
    off: it writes all the queue holds, in order, then one close frame as the
    last frame, and returns, closing the connection. When a write fails
    before the queue is empty it returns at that point instead: no close
    frame is written, the message whose write failed and the ones behind it
    are not written, and the connection is closed. In both cases it takes
    nothing further from its schedule. *)
Theorem Subscription_writePump_drains sched x rest s c :
  Chan.closed (send s) = true ->
  allSent sched = true ->
  sendsTaken sched <= length (Chan.buf (send s)) ->
  (sendsTaken sched = length (Chan.buf (send s)) ->
   exists s' c',
     Subscription_writePump (sched ++ FromSend x :: rest) s c = Done (s', c') /\
     jsonFrames (written c') = jsonFrames (written c) ++ Chan.buf (send s) /\
     closeFrames (written c') = closeFrames (written c) + 1 /\
     last (written c') = Some WsClose /\
     pingFrames (written c') = pingFrames (written c) + ticksTaken sched /\
     connClosed c' = true /\
     Chan.buf (send s') = []) /\
  (sendsTaken sched < length (Chan.buf (send s)) ->
   exists s' c',
     Subscription_writePump (sched ++ FromSend false :: rest) s c = Done (s', c') /\
     jsonFrames (written c')
       = jsonFrames (written c) ++ take (sendsTaken sched) (Chan.buf (send s)) /\
     closeFrames (written c') = closeFrames (written c) /\
     length (written c') = length (written c) + length sched /\
     connClosed c' = true /\
     Chan.buf (send s') = drop (S (sendsTaken sched)) (Chan.buf (send s))).
Proof.
  intros Hclosed Hall Hle.
  destruct (Subscription_writePump_loop_run sched s c (FromSend x :: rest) Hall Hle)
    as (c' & Hrun & Hj & Hp & Hcl & Hlen & Hcc & _).
  destruct (Subscription_writePump_loop_run sched s c (FromSend false :: rest) Hall Hle)
    as (c2 & Hrun2 & Hj2 & Hp2 & Hcl2 & Hlen2 & Hcc2 & _).
  split.
  - intros Hk. unfold Subscription_writePump. rewrite Hrun.
    rewrite Hk, drop_all, Hclosed. cbn [Subscription_writePump_loop]. unfold Chan.recv. simpl.
    eexists _, _. split; [reflexivity|]. simpl.
    rewrite jsonFrames_app, closeFrames_app, pingFrames_app, Hj, Hp, Hcl, Hk, firstn_all.
    simpl. rewrite app_nil_r, last_snoc, Nat.add_0_r. now repeat split.
  - intros Hk. unfold Subscription_writePump. rewrite Hrun2.
    cbn [Subscription_writePump_loop]. unfold Chan.recv. cbn [send Chan.buf].
    destruct (drop (sendsTaken sched) (Chan.buf (send s))) as [|m tl] eqn:Hdrop.
    { apply (f_equal length) in Hdrop. rewrite length_drop in Hdrop. simpl in Hdrop. lia. }
    eexists _, _. split; [reflexivity|]. simpl.
    split; [exact Hj2|]. split; [exact Hcl2|]. split; [exact Hlen2|].
    split; [reflexivity|].
    change (S (sendsTaken sched)) with (1 + sendsTaken sched).
    rewrite Nat.add_comm, <- drop_drop, Hdrop. reflexivity.
Qed.

(** The reader of a subscription over events without a read error. *)
Lemma Subscription_readPump_loop_run p : forall pre c rest,
  noClientError pre = true ->
  exists c',
    Subscription_readPump_loop p (pre ++ rest) c
    = (let '(out, c2, over) := Subscription_readPump_loop p rest c' in
       (map Publish (clientMessages pre) ++ out, c2, over)) /\
    connClosed c' = connClosed c /\ written c' = written c /\ remote c' = remote c /\
    readDeadline c'
    = match last (omap (fun e => match e with ClPong t => Some t | _ => None end) pre) with
      | Some t => Some (readPump_deadline t)
      | None => readDeadline c
      end.
Proof.
  induction pre as [|e pre IH]; intros c rest Hok.
  - exists c. simpl. split; [|now repeat split].
    now destruct (Subscription_readPump_loop p rest c) as [[out c2] over].
  - destruct e as [m|t|]; simpl in Hok; [| |discriminate].
    + destruct (IH c rest Hok) as (c' & Hrun & Hrest).
      exists c'. split; [|exact Hrest].
      cbn [app Subscription_readPump_loop]. rewrite Hrun.
      now destruct (Subscription_readPump_loop p rest c') as [[out c2] over].
    + destruct (IH (Conn_SetReadDeadline (readPump_deadline t) c) rest Hok)
        as (c' & Hrun & Hcc & Hw & Hr & Hd).
      exists c'. split; [exact Hrun|]. simpl in *.
      split; [exact Hcc|]. split; [exact Hw|]. split; [exact Hr|].
      rewrite Hd.
      change (omap _ (ClPong t :: pre))
        with (t :: omap (fun e => match e with ClPong t => Some t | _ => None end) pre).
      rewrite last_cons. now destruct (last _).
Qed.

(** X12: the reader of a subscription passes on to the router every
    message it reads, whatever the header, in the order read, and when the
    read fails it unregisters its subscription, once and as the last thing it
    sends, and closes the connection; what follows the error is never read.
    It writes nothing to the connection. *)
Theorem Subscription_readPump_until_error now p pre post c :
  noClientError pre = true ->
  exists c',
    Subscription_readPump now p (pre ++ ClError :: post) c
    = (map Publish (clientMessages pre) ++ [Unregister p], c', true) /\
    connClosed c' = true /\
    written c' = written c.
Proof.
  intros Hok. unfold Subscription_readPump.
  destruct (Subscription_readPump_loop_run p pre
              (Conn_SetReadDeadline (readPump_deadline now) c) (ClError :: post) Hok)
    as (c' & Hrun & _ & Hw & _).
  rewrite Hrun. cbn [Subscription_readPump_loop].
  eexists. split; [reflexivity|]. simpl. now split.
Qed.

(** X13: while its reads succeed the reader of a subscription never
    unregisters and never closes the connection, and the read deadline is
    60 s after the last pong (after the start when there was none): a
    client that answers the pings, sent every 30 s, in time keeps its
    subscription. *)
Theorem Subscription_readPump_keeps_alive now p evs c :
  noClientError evs = true ->
  exists c',
    Subscription_readPump now p evs c = (map Publish (clientMessages evs), c', false) /\
    connClosed c' = connClosed c /\
    readDeadline c'
    = Some (match last (omap (fun e => match e with ClPong t => Some t | _ => None end) evs)
            with Some t => t | None => now end + 60 * Time.Second)%Z /\
    (Time.period writePump_ticker < 60 * Time.Second)%Z.
Proof.
  intros Hok. unfold Subscription_readPump.
  destruct (Subscription_readPump_loop_run p evs
              (Conn_SetReadDeadline (readPump_deadline now) c) [] Hok)
    as (c' & Hrun & Hcc & _ & _ & Hd).
  rewrite app_nil_r in Hrun. rewrite Hrun. cbn [Subscription_readPump_loop].
  rewrite app_nil_r. exists c'. split; [reflexivity|]. split; [exact Hcc|].
  split; [|reflexivity].
  rewrite Hd. simpl. now destruct (last _).
Qed.

(** ** Queues stay within bounds, and are closed exactly when dropped *)

Lemma deliver_Tidy p msg w w' : Tidy w -> deliver p msg w = Done w' -> Tidy w'.
Proof.
  intros (Hs & Hb & Hi) Hrun. unfold deliver in Hrun.
  destruct (subHeap w !! p) as [s|] eqn:Hp; [|discriminate].
  destruct (Hs p s Hp) as (Hcap & Hlen & Hcl).
  unfold Chan.send, Chan.close in Hrun.
  destruct (Chan.closed (send s)) eqn:Hc; [discriminate|].
  destruct (Chan.full (send s)) eqn:Hf; injection Hrun as <-.
  - (* no room: closed and deleted *)
    split; [|split; assumption].
    intros q sq Hq. simpl in Hq |- *. destruct (decide (q = p)) as [->|Hne].
    + rewrite lookup_insert_eq in Hq. injection Hq as <-.
      rewrite bool_decide_eq_false_2 by (clear; set_solver).
      unfold subTidy; simpl. now repeat split.
    + rewrite lookup_insert_ne in Hq by congruence.
      rewrite (bool_decide_ext _ (q ∈ subscriptions (router w))) by (clear -Hne; set_solver).
      now apply Hs.
  - (* room: queued *)
    split; [|split; assumption].
    intros q sq Hq. simpl in Hq |- *. destruct (decide (q = p)) as [->|Hne].
    + rewrite lookup_insert_eq in Hq. injection Hq as <-.
      unfold subTidy; simpl. rewrite length_app. simpl.
      unfold Chan.full in Hf. apply Nat.leb_gt in Hf.
      split; [assumption|]. split; [lia|]. exact Hcl.
    + rewrite lookup_insert_ne in Hq by congruence. now apply Hs.
Qed.

Lemma deliverAll_Tidy msg : forall l w w',
  Tidy w -> deliverAll msg l w = Done w' -> Tidy w'.
Proof.
  induction l as [|p l IH]; intros w w' HT Hrun; simpl in Hrun.
  - now injection Hrun as <-.
  - destruct (deliver p msg w) as [w1| |] eqn:Hd; try discriminate.
    eapply IH; [|exact Hrun]. now apply (deliver_Tidy p msg w).
Qed.

Lemma WritePassthrough_Tidy b msg w :
  Tidy w ->
  match WritePassthrough b msg w with
  | Done w' => Tidy w'
  | Blocked w' _ => w' = w
  | Panic _ => True
  end.
Proof.
  intros (Hs & Hb & Hi). unfold WritePassthrough.
  destruct (bridgeHeap w !! b) as [n|] eqn:Hn; [|exact I].
  destruct (Hb b n Hn) as (Hcap & Hlen & Hcl).
  unfold Node_Write, Chan.send. rewrite Hcl.
  destruct (Chan.full (writeQueue n)) eqn:Hf; [reflexivity|].
  split; [assumption|]. split; [|assumption].
  intros c nc Hc. simpl in Hc. destruct (decide (c = b)) as [->|Hne].
  - rewrite lookup_insert_eq in Hc. injection Hc as <-. simpl.
    rewrite length_app. simpl. unfold Chan.full in Hf. apply Nat.leb_gt in Hf.
    split; [assumption|]. split; [lia|reflexivity].
  - rewrite lookup_insert_ne in Hc by congruence. exact (Hb c nc Hc).
Qed.

Lemma forwardAll_Tidy msg : forall l w,
  Tidy w ->
  match forwardAll msg l w with
  | Done w' => Tidy w'
  | Blocked w' _ => Tidy w'
  | Panic _ => True
  end.
Proof.
  induction l as [|b l IH]; intros w HT; simpl; [exact HT|].
  pose proof (WritePassthrough_Tidy b msg w HT) as Hw.
  destruct (WritePassthrough b msg w) as [w1|w1 k|f]; [|now subst|exact I].
  now apply IH.
Qed.

(** The loop over the subscriptions never waits: its select has a default. *)
Lemma deliverAll_not_blocked msg : forall l w w' k, deliverAll msg l w <> Blocked w' k.
Proof.
  induction l as [|p l IH]; intros w w' k Hd; simpl in Hd; [discriminate|].
  destruct (deliver p msg w) as [w3|w3 k3|f3] eqn:Hp; try discriminate.
  - now apply IH in Hd.
  - unfold deliver in Hp.
    destruct (subHeap w !! p) as [s|]; [|discriminate].
    destruct (Chan.send (send s) msg); try discriminate.
    destruct (Chan.close (send s)); discriminate.
Qed.

Section LoopProperties.

Variable range : gset positive -> list positive.
Hypothesis range_perm : forall s, range s ≡ₚ elements s.

Lemma routeHeaders_Tidy body : forall ts w w',
  Tidy w -> final (routeHeaders range body ts w) = Some w' -> Tidy w'.
Proof.
  induction ts as [|t ts IH]; intros w w' HT Hfin; simpl in Hfin.
  - now injection Hfin as <-.
  - destruct (deliverAll _ _ w) as [w1|w1 k|f] eqn:Hd; simpl in Hfin.
    + pose proof (deliverAll_Tidy _ _ _ _ HT Hd) as HT1.
      pose proof (forwardAll_Tidy {| Header := t; Body := body |}
                    (range (routerConnections (router w1))) w1 HT1) as Hf.
      destruct (forwardAll _ _ w1) as [w2|w2 k|f]; simpl in Hfin.
      * now apply (IH w2).
      * now injection Hfin as <-.
      * discriminate.
    + now apply deliverAll_not_blocked in Hd.
    + discriminate.
Qed.

Lemma route_Tidy m w w' : Tidy w -> final (route range m w) = Some w' -> Tidy w'.
Proof.
  unfold route. intros HT Hfin.
  destruct (routingTable (router w) !! Header m) as [ts|].
  - now apply (routeHeaders_Tidy (Body m) ts w).
  - simpl in Hfin. now injection Hfin as <-.
Qed.

Lemma resume_Tidy k w w' : Tidy w -> final (resume range k w) = Some w' -> Tidy w'.
Proof.
  unfold resume. intros HT Hfin.
  pose proof (forwardAll_Tidy {| Header := kHeader k; Body := kBody k |} (kPeers k) w HT) as Hf.
  destruct (forwardAll _ _ w) as [w2|w2 k2|f]; simpl in Hfin.
  - now apply (routeHeaders_Tidy (kBody k) (kRest k) w2).
  - now injection Hfin as <-.
  - discriminate.
Qed.

Lemma after_route_final o s' : after_route o = Stepped s' -> final o = Some (world s').
Proof. destruct o; simpl; intros H; inversion H; reflexivity. Qed.

(** Every step keeps the queues tidy. *)
Lemma loop_step_Tidy ev s s' :
  Tidy (world s) -> loop_step range ev s = Stepped s' -> Tidy (world s').
Proof.
  destruct s as [w lp]. simpl. intros HT Hstep.
  pose proof HT as (Hs & Hb & Hi).
  unfold loop_step in Hstep; simpl in Hstep.
  destruct ev as [|q|m| | |q|b|net addr].
  - (* Listen *)
    destruct lp; [|discriminate]. injection Hstep as <-. simpl.
    split; [|split; assumption].
    intros p sp Hp. simpl in Hp |- *.
    destruct (decide (p = fresh (dom (subHeap w)))) as [->|Hne].
    + rewrite lookup_insert_eq in Hp. injection Hp as <-.
      rewrite bool_decide_eq_true_2 by (clear; set_solver).
      unfold subTidy; simpl. repeat split; lia.
    + rewrite lookup_insert_ne in Hp by congruence.
      rewrite (bool_decide_ext _ (p ∈ subscriptions (router w))) by (clear -Hne; set_solver).
      now apply Hs.
  - (* Unregister *)
    destruct lp; [|discriminate]. unfold unregister in Hstep.
    destruct (decide (q ∈ subscriptions (router w))) as [Hq|Hq].
    2:{ injection Hstep as <-. exact HT. }
    simpl in Hstep. destruct (subHeap w !! q) as [sq|] eqn:Hsq; [|discriminate].
    destruct (Hs q sq Hsq) as (Hcap & Hlen & Hcl).
    unfold Chan.close in Hstep.
    destruct (Chan.closed (send sq)); [discriminate|].
    injection Hstep as <-. simpl.
    split; [|split; assumption].
    intros p sp Hp. simpl in Hp |- *. destruct (decide (p = q)) as [->|Hne].
    + rewrite lookup_insert_eq in Hp. injection Hp as <-.
      rewrite bool_decide_eq_false_2 by (clear; set_solver).
      unfold subTidy; simpl. now repeat split.
    + rewrite lookup_insert_ne in Hp by congruence.
      rewrite (bool_decide_ext _ (p ∈ subscriptions (router w))) by (clear -Hne; set_solver).
      now apply Hs.
  - (* Publish *)
    unfold Chan.send in Hstep.
    destruct (Chan.closed (inChan (router w))); [discriminate|].
    destruct (Chan.full (inChan (router w))) eqn:Hf; [discriminate|].
    injection Hstep as <-. simpl.
    split; [assumption|]. split; [assumption|]. simpl. rewrite length_app. simpl.
    unfold Chan.full in Hf. apply Nat.leb_gt in Hf. lia.
  - (* Dispatch *)
    destruct lp; [|discriminate]. unfold Chan.recv in Hstep.
    destruct (Chan.buf (inChan (router w))) as [|m rest] eqn:Hbuf.
    + destruct (Chan.closed (inChan (router w))); [|discriminate].
      apply after_route_final in Hstep.
      exact (route_Tidy _ w (world s') HT Hstep).
    + apply after_route_final in Hstep.
      refine (route_Tidy m _ (world s') _ Hstep).
      split; [assumption|]. split; [assumption|]. simpl.
      simpl in Hi. split; [tauto|lia].
  - (* Resume *)
    destruct lp as [|k]; [discriminate|].
    apply after_route_final in Hstep. now apply (resume_Tidy k w).
  - (* SubDrain *)
    destruct (subHeap w !! q) as [sb|] eqn:Hsb; [|discriminate].
    destruct (Hs q sb Hsb) as (Hcap & Hlen & Hcl).
    unfold Subscription_writePump_recv, Chan.recv in Hstep.
    destruct (Chan.buf (send sb)) as [|m rest] eqn:Hbuf.
    { destruct (Chan.closed (send sb)); discriminate. }
    injection Hstep as <-. simpl.
    split; [|split; assumption].
    intros p sp Hp. simpl in Hp |- *. destruct (decide (p = q)) as [->|Hne].
    + rewrite lookup_insert_eq in Hp. injection Hp as <-.
      unfold subTidy; simpl. simpl in Hlen. repeat split; try assumption. lia.
    + rewrite lookup_insert_ne in Hp by congruence. now apply Hs.
  - (* PeerDrain *)
    destruct (bridgeHeap w !! b) as [n|] eqn:Hn; [|discriminate].
    destruct (Hb b n Hn) as (Hcap & Hlen & Hcl).
    unfold writePump_recv, Chan.recv in Hstep.
    destruct (Chan.buf (writeQueue n)) as [|m rest] eqn:Hbuf.
    { destruct (Chan.closed (writeQueue n)); discriminate. }
    injection Hstep as <-. simpl.
    split; [assumption|]. split; [|assumption].
    intros c nc Hc. simpl in Hc. destruct (decide (c = b)) as [->|Hne].
    + rewrite lookup_insert_eq in Hc. injection Hc as <-. simpl. simpl in Hlen.
      repeat split; try assumption. lia.
    + rewrite lookup_insert_ne in Hc by congruence. exact (Hb c nc Hc).
  - (* ConnectPeer *)
    destruct lp; [|discriminate]. injection Hstep as <-. simpl.
    unfold connectPeer.
    destruct (StartBridge net addr _ 1%positive) as [[[bridge|] [e|]]| |] eqn:Hrun;
      try exact HT.
    split; [assumption|]. split; [|assumption].
    intros c nc Hc. simpl in Hc.
    destruct (decide (c = fresh (dom (bridgeHeap w)))) as [->|Hne].
    + rewrite lookup_insert_eq in Hc. injection Hc as <-.
      rewrite (StartBridge_queue _ _ _ _ _ _ Hrun). simpl. repeat split; lia.
    + rewrite lookup_insert_ne in Hc by congruence. exact (Hb c nc Hc).
Qed.

Lemma initial_Tidy tbl : Tidy (world (initial tbl)).
Proof.
  split; [|split; [|split]].
  - intros p s Hp. simpl in Hp. now rewrite lookup_empty in Hp.
  - intros b n Hb. simpl in Hb. now rewrite lookup_empty in Hb.
  - reflexivity.
  - simpl. lia.
Qed.

Lemma reachable_Tidy tbl s : reachable range tbl s -> Tidy (world s).
Proof.
  induction 1 as [|ev s s' _ IH Hstep]; [apply initial_Tidy|].
  now apply (loop_step_Tidy ev s).
Qed.

(** X14: in every state the router can reach, the queue of a subscription
    is closed exactly when the subscription is no longer in the set: none
    that was unregistered or dropped is left open (its writer will see the
    close and return), and none that is in the set is closed (a send to it
    cannot panic). *)
Theorem closed_iff_removed tbl s p sb :
  reachable range tbl s ->
  subHeap (world s) !! p = Some sb ->
  (Chan.closed (send sb) = true <-> p ∉ subscriptions (router (world s))).
Proof.
  intros Hreach Hp.
  destruct (reachable_Tidy tbl s Hreach) as (Hs & _).
  destruct (Hs p sb Hp) as (_ & _ & Hcl). rewrite Hcl.
  destruct (decide (p ∈ subscriptions (router (world s)))) as [Hin|Hout].
  - rewrite bool_decide_eq_true_2 by assumption. simpl. split; [discriminate|tauto].
  - rewrite bool_decide_eq_false_2 by assumption. simpl. tauto.
Qed.

(** X15: in every state the router can reach, no queue holds more than the
    capacity it was made with: 1024 messages in the inbound queue and in the
    queue of each subscription, 4096 in the write queue of each bridge; and
    the write queue of a bridge is never closed. *)
Theorem queues_bounded tbl s :
  reachable range tbl s ->
  length (Chan.buf (inChan (router (world s)))) <= 1024 /\
  (forall p sb, subHeap (world s) !! p = Some sb ->
     Chan.cap (send sb) = 1024 /\ length (Chan.buf (send sb)) <= 1024) /\
  (forall b n, bridgeHeap (world s) !! b = Some n ->
     Chan.cap (writeQueue n) = 4096 /\ length (Chan.buf (writeQueue n)) <= 4096 /\
     Chan.closed (writeQueue n) = false).
Proof.
  intros Hreach.
  destruct (reachable_Tidy tbl s Hreach) as (Hs & Hb & _ & Hi).
  split; [exact Hi|]. split; [|exact Hb].
  intros p sb Hp. destruct (Hs p sb Hp) as (Hcap & Hlen & _). now split.
Qed.

End LoopProperties.

(** ** What the loop never does to the peers and the table *)

Section Peers.

Variable range : gset positive -> list positive.
Hypothesis range_perm : forall s, range s ≡ₚ elements s.

Lemma loop_step_peers ev s s' :
  Inv s -> loop_step range ev s = Stepped s' ->
  routerConnections (router (world s)) ⊆ routerConnections (router (world s')) /\
  routingTable (router (world s')) = routingTable (router (world s)).
Proof.
  intros (Hlive & Hopen & Hlog & Hin & Hk) Hstep.
  destruct s as [w lp]; simpl in *. unfold loop_step in Hstep; simpl in Hstep.
  destruct ev as [|q|m| | |q|b|net addr].
  - destruct lp; [|discriminate]. injection Hstep as <-. simpl. now split.
  - destruct lp; [|discriminate].
    destruct (unregister_spec range range_perm q w Hlive) as (w' & Hrun & _ & _ & Htab & Hconn & _).
    rewrite Hrun in Hstep. injection Hstep as <-. simpl. rewrite Hconn, Htab. now split.
  - destruct (Chan.send (inChan (router w)) m); try discriminate.
    injection Hstep as <-. simpl. now split.
  - destruct lp; [|discriminate]. unfold Chan.recv in Hstep.
    destruct (Chan.buf (inChan (router w))) as [|m rest] eqn:Hbuf.
    { rewrite Hin in Hstep. discriminate. }
    set (w0 := on_router _ w) in Hstep.
    destruct (route_sound range range_perm m w0 Hlive Hopen)
      as (w' & Hfin & _ & _ & Htab & Hconn & _).
    apply after_route_final in Hstep. rewrite Hstep in Hfin. injection Hfin as <-.
    rewrite Hconn, Htab. now split.
  - destruct lp as [|k]; [discriminate|].
    assert (Hsound : sound w (pending k) (resume range k w)).
    { apply (resume_sound range (kBody k) (kRest k));
        try reflexivity; try assumption.
      intros v Hv1 Hv2. now apply (routeHeaders_sound range range_perm). }
    destruct Hsound as (w' & Hfin & _ & _ & Htab & Hconn & _).
    apply after_route_final in Hstep. rewrite Hstep in Hfin. injection Hfin as <-.
    rewrite Hconn, Htab. now split.
  - destruct (subHeap w !! q) as [sb|]; [|discriminate].
    destruct (Subscription_writePump_recv sb) as [[? sb']|]; [|discriminate].
    injection Hstep as <-. simpl. now split.
  - destruct (bridgeHeap w !! b) as [n|]; [|discriminate].
    destruct (writePump_recv n) as [n'|]; [|discriminate].
    injection Hstep as <-. simpl. now split.
  - destruct lp; [|discriminate]. injection Hstep as <-. simpl.
    unfold connectPeer.
    destruct (StartBridge net addr _ 1%positive) as [[[bridge|] [e|]]| |];
      simpl; try (now split).
    split; [set_solver|reflexivity].
Qed.

(** X16: whatever the system does, no step takes a peer out of the router
    connections and none changes the routing table: a subscription can be
    dropped, a bridge cannot, and the table is the one given to
    [StartRouter]. *)
Theorem router_connections_only_grow s s' :
  Inv s -> steps range s s' ->
  routerConnections (router (world s)) ⊆ routerConnections (router (world s')) /\
  routingTable (router (world s')) = routingTable (router (world s)).
Proof.
  intros HInv Hsteps. induction Hsteps as [s|ev s s' s'' Hpre IH Hstep].
  - now split.
  - destruct (IH HInv) as [Hsub Htab].
    destruct (steps_Inv range range_perm s s' HInv Hpre) as [HInv' _].
    destruct (loop_step_peers ev s' s'' HInv' Hstep) as [Hsub' Htab'].
    split; [set_solver|congruence].
Qed.

End Peers.

(** ** Registering and unregistering *)

(** X17: a subscription that registers and then unregisters leaves the set
    of subscriptions as it was. It was given an address no subscription had,
    with an empty open queue of capacity 1024; unregistering deletes it and
    closes that queue, once, touching nothing else, and unregistering it
    again changes nothing. *)
Theorem register_unregister_round_trip w :
  liveOpen w ->
  exists p w',
    p = fresh (dom (subHeap w)) /\
    subHeap w !! p = None /\ (p ∉ subscriptions (router w)) /\
    p ∈ subscriptions (router (register w)) /\
    subHeap (register w) !! p = Some newSubscription /\
    unregister p (register w) = Done w' /\
    subscriptions (router w') = subscriptions (router w) /\
    subHeap w' = <[p := mkSubscription (Chan.mk [] 1024 true)]> (subHeap w) /\
    bridgeHeap w' = bridgeHeap w /\
    router w' = router w /\
    log w' = log w ++ [Deleted p; Closed p] /\
    unregister p w' = Done w'.
Proof.
  intros Hlive.
  set (p := fresh (dom (subHeap w))).
  assert (Hfresh : subHeap w !! p = None) by (apply not_elem_of_dom, is_fresh).
  assert (Hout : p ∉ subscriptions (router w)).
  { intros Hin. destruct (Hlive p Hin) as (s & Hs & _). congruence. }
  assert (Hset : ({[p]} ∪ subscriptions (router w)) ∖ {[p]} = subscriptions (router w))
    by set_solver.
  eexists p, _. split; [reflexivity|]. split; [exact Hfresh|]. split; [exact Hout|].
  split; [unfold register; simpl; fold p; set_solver|].
  split; [unfold register; simpl; fold p; apply lookup_insert_eq|].
  unfold unregister at 1, register. cbn [router on_router store_sub subscriptions set_subscriptions].
  fold p. rewrite decide_True by set_solver.
  cbn [record on_router store_sub subHeap router subscriptions set_subscriptions].
  rewrite lookup_insert_eq. cbn [newSubscription send Chan.close Chan.make Chan.closed].
  split; [reflexivity|].
  cbn [record on_router store_sub subHeap router subscriptions set_subscriptions
       bridgeHeap log Chan.buf Chan.cap inChan outChan routingTable routerConnections
       showMessageLogs].
  rewrite Hset, insert_insert_eq, <- app_assoc.
  split; [reflexivity|]. split; [reflexivity|]. split; [reflexivity|].
  split; [now destruct w as [[] ? ? ?]|]. split; [reflexivity|].
  unfold unregister.
  cbn [record on_router store_sub router subscriptions set_subscriptions].
  rewrite Hset. now rewrite decide_False by exact Hout.
Qed.

(** ** From one connection to the others *)

Lemma allSent_replicate k : allSent (replicate k (FromSend true)) = true.
Proof. induction k as [|k IH]; [reflexivity|exact IH]. Qed.

Lemma sendsTaken_replicate k : sendsTaken (replicate k (FromSend true)) = k.
Proof.
  induction k as [|k IH]; [reflexivity|].
  change (S (sendsTaken (replicate k (FromSend true))) = S k). now rewrite IH.
Qed.

Section Pipelines.

Variable range : gset positive -> list positive.
Hypothesis range_perm : forall s, range s ≡ₚ elements s.

(** X9: the router does not look at where a message came from. A message
    a bridge has read from its peer goes through [ReadPassthrough] into the
    inbound queue, and the dispatch that follows forwards every output of its
    topic to every router connection, the bridge it came from among them:
    the outputs are queued on that bridge's own write queue, back to the
    peer. *)
Theorem peer_message_echoed s b n m rest ts :
  Inv s -> loop s = Selecting ->
  b ∈ routerConnections (router (world s)) ->
  bridgeHeap (world s) !! b = Some n ->
  Chan.buf (readQueue n) = m :: rest ->
  Chan.buf (inChan (router (world s))) = [] ->
  0 < Chan.cap (inChan (router (world s))) ->
  routingTable (router (world s)) !! Header m = Some ts ->
  (forall b' n', b' ∈ routerConnections (router (world s)) ->
     bridgeHeap (world s) !! b' = Some n' -> length ts <= Chan.free (writeQueue n')) ->
  exists w1 s' n',
    ReadPassthrough_step b (world s) = Done w1 /\
    loop_step range Dispatch (mkSys w1 Selecting) = Stepped s' /\
    loop s' = Selecting /\
    bridgeHeap (world s') !! b = Some n' /\
    Chan.buf (readQueue n') = rest /\
    Chan.buf (writeQueue n') = Chan.buf (writeQueue n) ++ map (rewrite (Body m)) ts /\
    forwardedTo b (log (world s'))
      = forwardedTo b (log (world s)) ++ map (rewrite (Body m)) ts.
Proof.
  intros (Hlive & Hopen & Hlog & Hin & _) Hsel Hb Hn Hrq Hempty Hcap Htab Hroom.
  destruct s as [w lp]; simpl in *. subst lp.
  assert (Hnf : Chan.full (inChan (router w)) = false).
  { unfold Chan.full. rewrite Hempty. simpl. apply Nat.leb_gt. exact Hcap. }
  set (n1 := set_readQueue (Chan.mk rest (Chan.cap (readQueue n))
                                    (Chan.closed (readQueue n))) n).
  set (w1 := on_router (set_inChan (Chan.mk [m] (Chan.cap (inChan (router w))) false))
               (store_bridge b n1 w)).
  assert (Hrp : ReadPassthrough_step b w = Done w1).
  { unfold ReadPassthrough_step. rewrite Hn.
    unfold Node_Read, Chan.recv. rewrite Hrq. fold n1.
    unfold Chan.send. cbn [store_bridge router inChan]. rewrite Hin, Hnf, Hempty.
    reflexivity. }
  set (w2 := on_router (set_inChan (Chan.mk [] (Chan.cap (inChan (router w))) false)) w1).
  assert (Hd : loop_step range Dispatch (mkSys w1 Selecting)
               = after_route (route range m w2)) by reflexivity.
  assert (Hlive2 : liveOpen w2) by exact Hlive.
  assert (Hopen2 : peersOpen w2).
  { intros c Hc. unfold w2, w1; simpl. destruct (decide (c = b)) as [->|Hne].
    - rewrite lookup_insert_eq. eexists; split; [reflexivity|].
      destruct (Hopen b Hb) as (n0 & Hn0 & Hcl). unfold n1; simpl. congruence.
    - rewrite lookup_insert_ne by congruence. now apply Hopen. }
  assert (Hroom2 : forall b' n', b' ∈ routerConnections (router w2) ->
            bridgeHeap w2 !! b' = Some n' -> length ts <= Chan.free (writeQueue n')).
  { intros c nc Hc Hnc. unfold w2, w1 in Hnc; simpl in Hnc.
    destruct (decide (c = b)) as [->|Hne].
    - rewrite lookup_insert_eq in Hnc. injection Hnc as <-. unfold n1; simpl.
      now apply (Hroom b n).
    - rewrite lookup_insert_ne in Hnc by congruence. now apply (Hroom c nc). }
  destruct (route_peers range range_perm m ts w2 Htab Hlive2 Hopen2 Hroom2)
    as (w' & Hroute & _ & Hpeers & _ & _).
  rewrite Hroute in Hd. cbn [after_route] in Hd.
  destruct (Hpeers b n1 Hb) as (Hheap & Hfw).
  { unfold w2, w1; simpl. apply lookup_insert_eq. }
  exists w1, (mkSys w' Selecting). eexists.
  split; [exact Hrp|]. split; [exact Hd|]. split; [reflexivity|].
  split; [exact Hheap|]. split; [reflexivity|]. split; [reflexivity|].
  exact Hfw.
Qed.

(** X18: from one client to another. What the reader of a subscription
    reads it publishes; with the message dispatched, every subscription in
    the set whose queue has room for the outputs, the publisher's own
    included, has them queued behind what it held, and its writer, every
    write succeeding, puts on its connection what the queue held and then one
    message per output, in the order of the table, with the body of the
    message published. *)
Theorem published_reaches_subscribers now q c0 s m ts p sb :
  Inv s -> loop s = Selecting ->
  Chan.buf (inChan (router (world s))) = [] ->
  0 < Chan.cap (inChan (router (world s))) ->
  routingTable (router (world s)) !! Header m = Some ts ->
  (forall b n, b ∈ routerConnections (router (world s)) ->
     bridgeHeap (world s) !! b = Some n -> length ts <= Chan.free (writeQueue n)) ->
  p ∈ subscriptions (router (world s)) ->
  subHeap (world s) !! p = Some sb ->
  length ts <= Chan.free (send sb) ->
  exists c1 s1 s2 sb',
    Subscription_readPump now q [ClMessage m] c0 = ([Publish m], c1, false) /\
    loop_step range (Publish m) s = Stepped s1 /\
    loop_step range Dispatch s1 = Stepped s2 /\
    loop s2 = Selecting /\
    subHeap (world s2) !! p = Some sb' /\
    p ∈ subscriptions (router (world s2)) /\
    forall c, exists sb'' c',
      Subscription_writePump
        (replicate (length (Chan.buf (send sb)) + length ts) (FromSend true)) sb' c
      = Blocked (sb'', c') tt /\
      jsonFrames (written c')
      = jsonFrames (written c) ++ Chan.buf (send sb) ++ map (rewrite (Body m)) ts /\
      Chan.buf (send sb'') = [].
Proof.
  intros (Hlive & Hopen & Hlog & Hin & _) Hsel Hempty Hcap Htab Hroom Hp Hsb Hfree.
  destruct s as [w lp]; simpl in *. subst lp.
  assert (Hnf : Chan.full (inChan (router w)) = false).
  { unfold Chan.full. rewrite Hempty. simpl. apply Nat.leb_gt. exact Hcap. }
  set (w1 := on_router (set_inChan (Chan.mk [m] (Chan.cap (inChan (router w))) false)) w).
  assert (Hpub : loop_step range (Publish m) (mkSys w Selecting)
                 = Stepped (mkSys w1 Selecting)).
  { unfold loop_step. cbn [world loop]. unfold Chan.send. rewrite Hin, Hnf, Hempty.
    reflexivity. }
  set (w2 := on_router (set_inChan (Chan.mk [] (Chan.cap (inChan (router w))) false)) w1).
  assert (Hd : loop_step range Dispatch (mkSys w1 Selecting)
               = after_route (route range m w2)) by reflexivity.
  destruct (routeHeaders_room range range_perm (Body m) ts w2 Hlive Hopen Hroom)
    as (w' & Hrun & _ & _ & _ & _ & _ & Hsin & _ & _).
  unfold route in Hd. change (routingTable (router w2)) with (routingTable (router w)) in Hd.
  rewrite Htab, Hrun in Hd. cbn [after_route] in Hd.
  destruct (Hlive p Hp) as (s0 & Hs0 & Hpopen).
  rewrite Hsb in Hs0. injection Hs0 as <-.
  destruct (Hsin p sb Hp Hsb) as (H1 & H2 & _).
  pose proof (feedWorld_closed_form (Body m) ts p sb w2 Hpopen) as Hform.
  rewrite (store_sub_id p sb w2 Hsb) in Hform. cbv zeta in Hform.
  destruct Hform as (F1 & F2 & _).
  rewrite take_ge in F1 by exact Hfree.
  eexists _, (mkSys w1 Selecting), (mkSys w' Selecting), _.
  split; [reflexivity|]. split; [exact Hpub|]. split; [exact Hd|].
  split; [reflexivity|]. cbn [world].
  split; [rewrite H1; exact F1|]. split.
  { apply H2, F2. split; [exact Hp|exact Hfree]. }
  intros c.
  set (k := length (Chan.buf (send sb)) + length ts).
  destruct (Subscription_writePump_loop_run (replicate k (FromSend true))
              (mkSubscription (Chan.mk (Chan.buf (send sb) ++ map (rewrite (Body m)) ts)
                                       (Chan.cap (send sb))
                                       (Chan.free (send sb) <? length ts))) c []
              (allSent_replicate k))
    as (c' & Hloop & Hj & _).
  { rewrite sendsTaken_replicate. simpl. rewrite length_app, length_map. unfold k. lia. }
  rewrite app_nil_r in Hloop. unfold Subscription_writePump. rewrite Hloop.
  cbn [Subscription_writePump_loop].
  eexists _, c'. split; [reflexivity|].
  rewrite sendsTaken_replicate in Hj |- *. cbn [send Chan.buf] in Hj |- *.
  assert (Hk : k = length (Chan.buf (send sb) ++ map (rewrite (Body m)) ts)).
  { rewrite length_app, length_map. reflexivity. }
  rewrite Hk in Hj |- *. rewrite firstn_all in Hj. rewrite drop_all.
  split; [rewrite Hj; now rewrite app_assoc|reflexivity].
Qed.

End Pipelines.

(** ** A writer that fails before the reader *)

(** X19: when a write fails while the reader is still running, the writer
    closes the connection, posts its done token and goes into the retry
    procedure, which marks the node "down retrying" and waits for the token
    of the reader: no dial is made before the reader has returned. The
    message whose write failed is gone from the write queue; the ones behind
    it are kept. *)
Theorem writePump_failure_waits_for_reader net fuel sched st c m rest :
  conn (node st) = Some c ->
  Chan.buf (writeQueue (node st)) = m :: rest ->
  readDone (node st) = Chan.make 1 ->
  writeDone (node st) = Chan.make 1 ->
  exists st' c',
    writePump net fuel (FromQueue false :: sched) st
      = Some (Blocked st' (InRetry RecvReadDone)) /\
    state (node st') = "down retrying"%string /\
    retrying (state (node st')) /\
    conn (node st') = Some c' /\ connClosed c' = true /\ written c' = written c /\
    acts st' = acts st /\ attempt st' = attempt st /\
    Chan.buf (writeQueue (node st')) = rest /\
    Chan.buf (writeDone (node st')) = [true] /\
    Chan.buf (readDone (node st')) = [].
Proof.
  intros Hc Hq Hrd Hwd. unfold writePump. cbn [writePump_loop].
  unfold Chan.recv. rewrite Hq, Hc. cbn iota beta.
  unfold writePump_exit. cbn [node conn set_writeQueue]. rewrite Hc.
  cbn [on_node node writeDone set_state set_conn set_writeQueue]. rewrite Hwd.
  change (Chan.send (Chan.make 1) true) with (Chan.SendOk (Chan.mk [true] 1 false)).
  cbn iota beta.
  rewrite retryConnection_waits_read.
  2:{ cbn [on_node node readDone set_writeDone set_state set_conn set_writeQueue].
      rewrite Hrd. reflexivity. }
  eexists _, _. split; [reflexivity|]. cbn. rewrite Hrd.
  repeat split; try reflexivity.
  eexists. reflexivity.
Qed.

(** ** What a bridge lets in *)

Lemma accepted_filters n n' ms : filters n = filters n' -> accepted n ms = accepted n' ms.
Proof. unfold accepted. now intros ->. Qed.

(** X20: the bridge [ConnectToRouters] makes for a peer lets in exactly
    the messages the routing table has a topic for. Over events without a
    read error, its reader has queued for [ReadPassthrough], in the order
    read, the messages whose header is a key of the table, and none of the
    others: a message of a peer never reaches [route] to be found unknown
    there. *)
Theorem bridge_admits_routable net addr tbl w now evs :
  net 0 (dialURL addr) = None ->
  noReadError evs = true ->
  length (List.filter (fun m => bool_decide (is_Some (tbl !! Header m))) (readMessages evs))
    <= 4096 ->
  exists n n',
    bridgeHeap (connectPeer net addr tbl w) !! fresh (dom (bridgeHeap w)) = Some n /\
    readPump now evs n = Blocked n' WaitFrame /\
    Chan.buf (readQueue n')
    = List.filter (fun m => bool_decide (is_Some (tbl !! Header m))) (readMessages evs) /\
    Forall (fun m => is_Some (tbl !! Header m)) (Chan.buf (readQueue n')).
Proof.
  intros Hok Hev Hlen. unfold connectPeer, StartBridge, ConnectToRouter.
  rewrite openConnection_ok by exact Hok.
  cbn -[dialURL]. rewrite lookup_insert_eq.
  set (n := set_state _ _).
  assert (Hf : filters n = dom tbl).
  { change (addFilters (elements (dom tbl)) ∅ = dom tbl).
    rewrite addFilters_spec, list_to_set_elements_L. set_solver. }
  assert (Hacc : forall ms, accepted n ms
            = List.filter (fun m => bool_decide (is_Some (tbl !! Header m))) ms).
  { intros ms. unfold accepted. rewrite Hf.
    induction ms as [|m ms IH]; [reflexivity|]. simpl. rewrite IH.
    now rewrite (bool_decide_ext _ (is_Some (tbl !! Header m))) by apply elem_of_dom. }
  unfold readPump.
  destruct (readPump_loop_run evs (readPump_start now n)
              (Conn_SetReadDeadline (now + pingWait)
                 (mkConn (dialURL addr) false None [])) [] Hev)
    as (n1 & c1 & Hrun & Hq & _).
  { reflexivity. } { reflexivity. }
  { rewrite (accepted_filters _ n) by reflexivity. rewrite Hacc. exact Hlen. }
  rewrite app_nil_r in Hrun.
  exists n, n1. split; [reflexivity|]. split; [exact Hrun|].
  rewrite Hq. cbn [Chan.buf].
  rewrite (accepted_filters _ n) by reflexivity. rewrite Hacc.
  split; [reflexivity|].
  apply Forall_forall. intros m Hm. apply list_elem_of_In, filter_In in Hm.
  destruct Hm as [_ Hm]. now apply bool_decide_eq_true in Hm.
Qed.

(** * More scenarios, worked *)

Lemma quietWorld_peersOpen : peersOpen quietWorld.
Proof.
  intros p Hp.
  cbn [quietWorld store_bridge on_router sampleWorld routerConnections router set_inChan] in Hp.
  set_unfold in Hp. subst p. eexists; split; reflexivity.
Qed.

Lemma quietSys_Inv : Inv quietSys.
Proof.
  split; [apply sampleWorld_liveOpen|]. split; [apply quietWorld_peersOpen|].
  split; [apply emptyLog_OK; reflexivity|]. split; reflexivity.
Qed.

Lemma quiet_peer_live : 7%positive ∈ routerConnections (router quietWorld).
Proof.
  cbn [quietWorld store_bridge on_router sampleWorld routerConnections router set_inChan].
  set_solver.
Qed.

Lemma quiet_first_live : 1%positive ∈ subscriptions (router quietWorld).
Proof.
  cbn [quietWorld store_bridge on_router sampleWorld subscriptions router set_inChan].
  set_solver.
Qed.

Lemma quiet_peer_room b n :
  b ∈ routerConnections (router quietWorld) -> bridgeHeap quietWorld !! b = Some n ->
  length ["pong"%string] <= Chan.free (writeQueue n).
Proof.
  intros Hb Hn.
  cbn [quietWorld store_bridge on_router sampleWorld routerConnections router set_inChan] in Hb.
  set_unfold in Hb. subst b. vm_compute in Hn. injection Hn as <-. vm_compute. lia.
Qed.

Lemma cycledSys_reachable : reachable elements pingTable cycledSys.
Proof.
  apply (reach_step elements pingTable (Unregister 1%positive)
           (next elements Listen (initial pingTable))).
  - apply (reach_step elements pingTable Listen (initial pingTable)).
    + apply reach_initial.
    + apply next_Stepped. vm_compute. reflexivity.
  - apply next_Stepped. vm_compute. reflexivity.
Qed.

Lemma readPump_until_error_witness :
  noReadError [RdMessage pingMessage; RdPing 5; RdMessage pongMessage] = true /\
  conn (node connectedPeer) = Some peerConn /\
  exists n',
    readPump 0 ([RdMessage pingMessage; RdPing 5; RdMessage pongMessage]
                ++ RdError :: [RdMessage pingMessage]) (node connectedPeer) = Done n' /\
    Chan.buf (readQueue n') = [pingMessage] /\
    state n' = "down"%string.
Proof.
  split; [reflexivity|]. split; [reflexivity|].
  destruct (readPump_until_error 0 [RdMessage pingMessage; RdPing 5; RdMessage pongMessage]
              [RdMessage pingMessage] (node connectedPeer) peerConn eq_refl eq_refl eq_refl)
    as (n' & c' & Hrun & Hq & Hst & _).
  - apply Nat.leb_le. vm_compute. reflexivity.
  - reflexivity.
  - reflexivity.
  - exists n'. split; [exact Hrun|]. split; [|exact Hst].
    rewrite Hq. vm_compute. reflexivity.
Defined.

Lemma readPump_answers_pings_witness :
  noReadError [RdPing 5; RdMessage pingMessage; RdPing 7] = true /\
  conn (node connectedPeer) = Some peerConn /\
  exists n' c',
    readPump 0 [RdPing 5; RdMessage pingMessage; RdPing 7] (node connectedPeer)
      = Blocked n' WaitFrame /\
    conn n' = Some c' /\
    written c' = [WsPong; WsPong] /\
    readDeadline c' = Some (7 + 90 * Time.Second)%Z.
Proof.
  split; [reflexivity|]. split; [reflexivity|].
  destruct (readPump_answers_pings 0 [RdPing 5; RdMessage pingMessage; RdPing 7]
              (node connectedPeer) peerConn eq_refl eq_refl eq_refl)
    as (n' & c' & Hrun & Hc & Hw & _ & Hd & _).
  - apply Nat.leb_le. vm_compute. reflexivity.
  - exists n', c'. split; [exact Hrun|]. split; [exact Hc|]. split; [exact Hw|exact Hd].
Defined.

Lemma Write_then_writePump_witness :
  conn (node busyPeer) = Some peerConn /\
  Chan.closed (writeQueue (node busyPeer)) = false /\
  Chan.full (writeQueue (node busyPeer)) = false /\
  exists n1 n' c',
    Node_Write (node busyPeer) pingMessage = Done n1 /\
    writePump_loop (replicate 4 (FromQueue true)) n1 = Blocked n' InSelect /\
    conn n' = Some c' /\
    written c' = map WsJSON [pingMessage; pongMessage; mkMessage "old" []; pingMessage].
Proof.
  split; [reflexivity|]. split; [reflexivity|]. split; [reflexivity|].
  destruct (Write_then_writePump (node busyPeer) peerConn pingMessage
              eq_refl eq_refl eq_refl)
    as (n1 & n' & c' & Hw & Hrun & Hc & Hwr & _).
  exists n1, n', c'. split; [exact Hw|]. split; [exact Hrun|]. split; [exact Hc|exact Hwr].
Defined.

Lemma writePump_failed_write_witness :
  conn (node busyPeer) = Some peerConn /\
  Chan.buf (writeQueue (node busyPeer)) !! 1 = Some pongMessage /\
  exists n' c',
    writePump_loop [FromQueue true; FromQueue false; FromQueue true] (node busyPeer)
      = Done n' /\
    conn n' = Some c' /\
    written c' = [WsJSON pingMessage] /\
    Chan.buf (writeQueue n') = [mkMessage "old" []].
Proof.
  split; [reflexivity|]. split; [reflexivity|].
  destruct (writePump_failed_write 1 (node busyPeer) peerConn pongMessage
              [FromQueue true] eq_refl eq_refl)
    as (n' & c' & Hrun & Hc & Hwr & Hq & _).
  exists n', c'. split; [exact Hrun|]. split; [exact Hc|]. split; [exact Hwr|exact Hq].
Defined.

Lemma reconnect_after_read_error_witness :
  conn (node connectedPeer) = Some peerConn /\
  readDone (node connectedPeer) = Chan.make 1 /\
  writeDone (node connectedPeer) = Chan.make 1 /\
  flakyNet 3 (attempt connectedPeer + 2) (dialURL "peer:7100") = None /\
  exists n1 st',
    readPump 0 ([RdMessage pingMessage] ++ RdError :: []) (node connectedPeer) = Done n1 /\
    writePump (flakyNet 3) 5 [FromReadDone] (mkNodeSt n1 1 (acts connectedPeer))
      = Some (Done st') /\
    state (node st') = "good"%string /\
    readDone (node st') = Chan.make 1 /\ writeDone (node st') = Chan.make 1 /\
    Chan.buf (readQueue (node st')) = [pingMessage].
Proof.
  split; [reflexivity|]. split; [reflexivity|]. split; [reflexivity|].
  split; [reflexivity|].
  destruct (reconnect_after_read_error (flakyNet 3) 5 2 0 [RdMessage pingMessage] []
              [] connectedPeer peerConn eq_refl eq_refl eq_refl eq_refl eq_refl)
    as (n1 & st' & Hrd & Hwr & Hst & _ & Hrdone & Hwdone & _ & Hq & _).
  - apply Nat.leb_le. vm_compute. reflexivity.
  - intros i Hi. destruct i as [|[|i]]; [discriminate|discriminate|lia].
  - reflexivity.
  - lia.
  - exists n1, st'. split; [exact Hrd|]. split; [exact Hwr|]. split; [exact Hst|].
    split; [exact Hrdone|]. split; [exact Hwdone|].
    rewrite Hq. vm_compute. reflexivity.
Defined.

Lemma StartBridge_refused_recovers_witness :
  flakyNet 3 3 (dialURL "peer:7100") = None /\
  exists bridge st',
    StartBridge (flakyNet 3) "peer:7100" ["ping"%string] 1%positive
      = Done (Some bridge, Some (connectError "peer:7100")) /\
    retryConnection (flakyNet 3) 5 (BNode bridge) = Some (Done st') /\
    state (node st') = "good"%string /\
    acts st' = [ADial (dialURL "peer:7100") false; AGo RetryConnection;
                ADial (dialURL "peer:7100") false; ASleep retryInterval;
                ADial (dialURL "peer:7100") false; ASleep retryInterval;
                ADial (dialURL "peer:7100") true; AGo ReadPump; AGo WritePump].
Proof.
  split; [reflexivity|].
  destruct (StartBridge_refused_recovers (flakyNet 3) "peer:7100" ["ping"%string]
              1%positive 2 5)
    as (bridge & st' & Hsb & _ & Hrun & Hst & _ & Hacts & _).
  - intros i Hi. destruct i as [|[|[|i]]]; [discriminate|discriminate|discriminate|lia].
  - reflexivity.
  - lia.
  - exists bridge, st'. split; [exact Hsb|]. split; [exact Hrun|]. split; [exact Hst|].
    exact Hacts.
Defined.

Lemma connectPeer_refused_witness :
  downNet 0 (dialURL "peer:7200") <> None /\
  connectPeer downNet "peer:7200" pingTable sampleWorld = sampleWorld.
Proof.
  split; [discriminate|].
  apply (connectPeer_refused downNet "peer:7200" pingTable sampleWorld). discriminate.
Defined.

Lemma connectPeer_accepted_witness :
  flakyNet 0 0 (dialURL "peer:7200") = None /\
  exists b n,
    bridgeHeap sampleWorld !! b = None /\
    routerConnections (router (connectPeer (flakyNet 0) "peer:7200" pingTable sampleWorld))
      = {[b]} ∪ routerConnections (router sampleWorld) /\
    state n = "good"%string /\
    filters n = dom pingTable.
Proof.
  split; [reflexivity|].
  destruct (connectPeer_accepted (flakyNet 0) "peer:7200" pingTable sampleWorld eq_refl)
    as (b & n & _ & Hnew & _ & Hconn & Hst & _ & Hf & _).
  exists b, n. split; [exact Hnew|]. split; [exact Hconn|]. split; [exact Hst|exact Hf].
Defined.

Lemma Subscription_writePump_in_order_witness :
  allSent [FromSend true; FromTicker true; FromSend true] = true /\
  sendsTaken [FromSend true; FromTicker true; FromSend true]
    <= length (Chan.buf (send (busySub false))) /\
  exists s' c',
    Subscription_writePump [FromSend true; FromTicker true; FromSend true]
      (busySub false) clientConn = Blocked (s', c') tt /\
    jsonFrames (written c') = [pingMessage; pongMessage] /\
    pingFrames (written c') = 1 /\
    Chan.buf (send s') = [mkMessage "old" []].
Proof.
  split; [reflexivity|]. split; [vm_compute; lia|].
  destruct (Subscription_writePump_in_order [FromSend true; FromTicker true; FromSend true]
              (busySub false) clientConn eq_refl)
    as (s' & c' & Hrun & _ & Hj & Hp & _ & _ & Hq & _).
  - vm_compute. lia.
  - exists s', c'. split; [exact Hrun|]. split; [exact Hj|]. split; [exact Hp|exact Hq].
Defined.

Lemma Subscription_writePump_drains_witness :
  Chan.closed (send (busySub true)) = true /\
  allSent [FromSend true; FromSend true; FromTicker true; FromSend true] = true /\
  sendsTaken [FromSend true; FromSend true; FromTicker true; FromSend true]
    = length (Chan.buf (send (busySub true))) /\
  (exists s' c',
    Subscription_writePump
      ([FromSend true; FromSend true; FromTicker true; FromSend true]
       ++ FromSend true :: [FromTicker true]) (busySub true) clientConn = Done (s', c') /\
    jsonFrames (written c') = [pingMessage; pongMessage; mkMessage "old" []] /\
    last (written c') = Some WsClose /\
    connClosed c' = true) /\
  (exists s' c',
    Subscription_writePump ([FromSend true] ++ FromSend false :: [FromSend true])
      (busySub true) clientConn = Done (s', c') /\
    jsonFrames (written c') = [pingMessage] /\
    closeFrames (written c') = 0 /\
    connClosed c' = true /\
    Chan.buf (send s') = [mkMessage "old" []]).
Proof.
  split; [reflexivity|]. split; [reflexivity|]. split; [reflexivity|]. split.
  - destruct (Subscription_writePump_drains
                [FromSend true; FromSend true; FromTicker true; FromSend true] true
                [FromTicker true] (busySub true) clientConn eq_refl eq_refl)
      as [Hall _]; [vm_compute; lia|].
    destruct (Hall eq_refl) as (s' & c' & Hrun & Hj & _ & Hl & _ & Hc & _).
    exists s', c'. split; [exact Hrun|]. split; [exact Hj|]. split; [exact Hl|exact Hc].
  - destruct (Subscription_writePump_drains [FromSend true] true [FromSend true]
                (busySub true) clientConn eq_refl eq_refl)
      as [_ Hfail]; [vm_compute; lia|].
    destruct Hfail as (s' & c' & Hrun & Hj & Hcl & _ & Hc & Hq); [vm_compute; lia|].
    exists s', c'. split; [exact Hrun|]. split; [exact Hj|]. split; [exact Hcl|].
    split; [exact Hc|exact Hq].
Defined.

Lemma Subscription_readPump_until_error_witness :
  noClientError [ClMessage pingMessage; ClPong 5; ClMessage pongMessage] = true /\
  exists c',
    Subscription_readPump 0 2
      ([ClMessage pingMessage; ClPong 5; ClMessage pongMessage]
       ++ ClError :: [ClMessage pingMessage]) clientConn
    = ([Publish pingMessage; Publish pongMessage; Unregister 2], c', true) /\
    connClosed c' = true.
Proof.
  split; [reflexivity|].
  destruct (Subscription_readPump_until_error 0 2
              [ClMessage pingMessage; ClPong 5; ClMessage pongMessage]
              [ClMessage pingMessage] clientConn eq_refl)
    as (c' & Hrun & Hc & _).
  exists c'. split; [exact Hrun|exact Hc].
Defined.

Lemma Subscription_readPump_keeps_alive_witness :
  noClientError [ClMessage pingMessage; ClPong 5] = true /\
  exists c',
    Subscription_readPump 0 2 [ClMessage pingMessage; ClPong 5] clientConn
    = ([Publish pingMessage], c', false) /\
    connClosed c' = false /\
    readDeadline c' = Some (5 + 60 * Time.Second)%Z.
Proof.
  split; [reflexivity|].
  destruct (Subscription_readPump_keeps_alive 0 2 [ClMessage pingMessage; ClPong 5]
              clientConn eq_refl)
    as (c' & Hrun & Hc & Hd & _).
  exists c'. split; [exact Hrun|]. split; [exact Hc|exact Hd].
Defined.

Lemma closed_iff_removed_witness :
  reachable elements pingTable cycledSys /\
  subHeap (world cycledSys) !! 1%positive = Some (mkSubscription (Chan.mk [] 1024 true)) /\
  (1%positive ∉ subscriptions (router (world cycledSys))).
Proof.
  split; [exact cycledSys_reachable|]. split; [vm_compute; reflexivity|].
  apply (closed_iff_removed elements pingTable cycledSys 1%positive
           (mkSubscription (Chan.mk [] 1024 true)) cycledSys_reachable).
  - vm_compute. reflexivity.
  - reflexivity.
Defined.

Lemma queues_bounded_witness :
  reachable elements pingTable cycledSys /\
  length (Chan.buf (inChan (router (world cycledSys)))) <= 1024.
Proof.
  split; [exact cycledSys_reachable|].
  apply (queues_bounded elements pingTable cycledSys cycledSys_reachable).
Defined.

Lemma router_connections_only_grow_witness :
  Inv sampleSys /\
  steps elements sampleSys (next elements Dispatch sampleSys) /\
  7%positive ∈ routerConnections (router (world (next elements Dispatch sampleSys))) /\
  routingTable (router (world (next elements Dispatch sampleSys))) = pingTable.
Proof.
  assert (Hsteps : steps elements sampleSys (next elements Dispatch sampleSys)).
  { apply (steps_cons elements Dispatch sampleSys sampleSys); [apply steps_refl|].
    apply next_Stepped. vm_compute. reflexivity. }
  split; [apply sampleSys_Inv|]. split; [exact Hsteps|].
  destruct (router_connections_only_grow elements elements_range sampleSys
              (next elements Dispatch sampleSys) sampleSys_Inv Hsteps) as [Hsub Htab].
  split; [apply Hsub, sample_peer_live|exact Htab].
Defined.

Lemma register_unregister_round_trip_witness :
  liveOpen sampleWorld /\
  exists p w',
    unregister p (register sampleWorld) = Done w' /\
    subscriptions (router w') = subscriptions (router sampleWorld) /\
    log w' = [Deleted p; Closed p].
Proof.
  split; [apply sampleWorld_liveOpen|].
  destruct (register_unregister_round_trip sampleWorld sampleWorld_liveOpen)
    as (p & w' & _ & _ & _ & _ & _ & Hrun & Hsubs & _ & _ & _ & Hlog & _).
  exists p, w'. split; [exact Hrun|]. split; [exact Hsubs|exact Hlog].
Defined.

Lemma peer_message_echoed_witness :
  Inv quietSys /\
  7%positive ∈ routerConnections (router (world quietSys)) /\
  routingTable (router (world quietSys)) !! Header pingMessage = Some ["pong"%string] /\
  exists w1 s' n',
    ReadPassthrough_step 7 (world quietSys) = Done w1 /\
    loop_step elements Dispatch (mkSys w1 Selecting) = Stepped s' /\
    bridgeHeap (world s') !! 7%positive = Some n' /\
    Chan.buf (readQueue n') = [] /\
    Chan.buf (writeQueue n') = [mkMessage "pong" [Byte.x78]] /\
    forwardedTo 7 (log (world s')) = [mkMessage "pong" [Byte.x78]].
Proof.
  split; [apply quietSys_Inv|]. split; [apply quiet_peer_live|]. split; [reflexivity|].
  destruct (peer_message_echoed elements elements_range quietSys 7%positive
              (set_readQueue (Chan.mk [pingMessage] 4096 false)
                 (NewNode "peer:7100" ["ping"%string]))
              pingMessage [] ["pong"%string]
              quietSys_Inv eq_refl quiet_peer_live eq_refl eq_refl eq_refl)
    as (w1 & s' & n' & Hrp & Hd & _ & Hn & Hrq & Hwq & Hfw).
  - vm_compute. lia.
  - reflexivity.
  - exact quiet_peer_room.
  - exists w1, s', n'. split; [exact Hrp|]. split; [exact Hd|]. split; [exact Hn|].
    split; [exact Hrq|]. split; [exact Hwq|exact Hfw].
Defined.

Lemma published_reaches_subscribers_witness :
  Inv quietSys /\
  1%positive ∈ subscriptions (router (world quietSys)) /\
  subHeap (world quietSys) !! 1%positive = Some newSubscription /\
  exists s1 s2 sb',
    loop_step elements (Publish pingMessage) quietSys = Stepped s1 /\
    loop_step elements Dispatch s1 = Stepped s2 /\
    subHeap (world s2) !! 1%positive = Some sb' /\
    exists sb'' c',
      Subscription_writePump [FromSend true] sb' clientConn = Blocked (sb'', c') tt /\
      jsonFrames (written c') = [mkMessage "pong" [Byte.x78]].
Proof.
  split; [apply quietSys_Inv|]. split; [apply quiet_first_live|]. split; [reflexivity|].
  destruct (published_reaches_subscribers elements elements_range 0 1%positive clientConn
              quietSys pingMessage ["pong"%string] 1%positive newSubscription
              quietSys_Inv eq_refl eq_refl)
    as (c1 & s1 & s2 & sb' & _ & Hpub & Hd & _ & Hsb & _ & Hwr).
  - vm_compute. lia.
  - reflexivity.
  - exact quiet_peer_room.
  - exact quiet_first_live.
  - reflexivity.
  - vm_compute. lia.
  - exists s1, s2, sb'. split; [exact Hpub|]. split; [exact Hd|]. split; [exact Hsb|].
    destruct (Hwr clientConn) as (sb'' & c' & Hrun & Hj & _).
    exists sb'', c'. split; [exact Hrun|exact Hj].
Defined.

Lemma writePump_failure_waits_for_reader_witness :
  conn (node busyPeer) = Some peerConn /\
  readDone (node busyPeer) = Chan.make 1 /\
  writeDone (node busyPeer) = Chan.make 1 /\
  exists st',
    writePump downNet 0 [FromQueue false] busyPeer
      = Some (Blocked st' (InRetry RecvReadDone)) /\
    state (node st') = "down retrying"%string /\
    acts st' = acts busyPeer /\
    Chan.buf (writeQueue (node st')) = [pongMessage; mkMessage "old" []].
Proof.
  split; [reflexivity|]. split; [reflexivity|]. split; [reflexivity|].
  destruct (writePump_failure_waits_for_reader downNet 0 [] busyPeer peerConn pingMessage
              [pongMessage; mkMessage "old" []] eq_refl eq_refl eq_refl eq_refl)
    as (st' & c' & Hrun & Hst & _ & _ & _ & _ & Hacts & _ & Hq & _).
  exists st'. split; [exact Hrun|]. split; [exact Hst|]. split; [exact Hacts|exact Hq].
Defined.

Lemma bridge_admits_routable_witness :
  flakyNet 0 0 (dialURL "peer:7200") = None /\
  noReadError [RdMessage pongMessage; RdMessage pingMessage; RdPing 3] = true /\
  exists n n',
    bridgeHeap (connectPeer (flakyNet 0) "peer:7200" pingTable sampleWorld)
      !! fresh (dom (bridgeHeap sampleWorld)) = Some n /\
    readPump 0 [RdMessage pongMessage; RdMessage pingMessage; RdPing 3] n
      = Blocked n' WaitFrame /\
    Chan.buf (readQueue n') = [pingMessage].
Proof.
  split; [reflexivity|]. split; [reflexivity|].
  destruct (bridge_admits_routable (flakyNet 0) "peer:7200" pingTable sampleWorld 0
              [RdMessage pongMessage; RdMessage pingMessage; RdPing 3] eq_refl eq_refl)
    as (n & n' & Hn & Hrun & Hq & _).
  - apply Nat.leb_le. vm_compute. reflexivity.
  - exists n, n'. split; [exact Hn|]. split; [exact Hrun|].
    rewrite Hq. vm_compute. reflexivity.
Defined.
